(** * PerFlexity: the streaming transport and resilience layer

    A shallow embedding of
    - [StreamingService] (services/streaming: [processStream],
      [processSSELine], [handleSSEEvent] and the event handlers),
    - [ErrorRecoveryManager] (services/error-recovery.ts: [classifyError],
      [calculateDelay], [attemptRecovery] and the circuit breaker, the
      network monitor, [getStatus] and [reset]), and
    - the source utilities (utils/sourceUtils.ts: [deduplicateSources],
      [enhanceSources], [processSources]),
    together with the properties the specification states about them,
    and further properties of the code: of the connection life cycle,
    of the attempt log, of the decoder and of the sources.

    Conventions.
    - A JavaScript string is the list of its UTF-16 code units.
    - JavaScript numbers that hold counts, byte values and millisecond
      clock readings are integers ([Z]).  The delays of [calculateDelay]
      are IEEE 754 doubles ([Number.number]), with their rounding, their
      infinities and [NaN]; [Math.pow], which the standard leaves
      implementation-approximated, and [Math.random] are taken from
      outside.  The configured delays and factors, the reconnect delay
      of the streaming service, the stability rate and the relevance
      scores are exact rationals ([Q]).
    - A call of an optional callback slot ([this.handlers.onX?.(e)]) is
      recorded in a trace; whether a callback is registered in that slot
      is the business of the caller.
    - A timer that the code arms ([setTimeout]) is recorded; its callback
      is not part of the modelled run.  In the program a callback can run
      only while the run is suspended at an [await]; what is proved of a
      step from an arbitrary state of the service holds whatever the
      callbacks did before it. *)

From Stdlib Require Import ZArith QArith Qpower Qminmax Qround Qabs.
From Stdlib Require Import SpecFloat.
From Stdlib Require Import List Bool Lia Lqa Permutation.
From Stdlib.Strings Require Import String Ascii Byte.
Import ListNotations.

Local Open Scope Z_scope.

(** ** JavaScript strings *)

Module JsString.

Definition jsstring := list Z.

(** The code units of an ASCII literal of the source. *)
Definition lit (s : string) : jsstring :=
  map (fun c => Z.of_N (N_of_ascii c)) (list_ascii_of_string s).

Fixpoint eqb (a b : jsstring) : bool :=
  match a, b with
  | [], [] => true
  | x :: a', y :: b' => (x =? y) && eqb a' b'
  | _, _ => false
  end.

Fixpoint startsWith (s p : jsstring) : bool :=
  match p, s with
  | [], _ => true
  | y :: p', x :: s' => (x =? y) && startsWith s' p'
  | _ :: _, [] => false
  end.

(** [s.slice(n)] for a non-negative [n]. *)
Definition slice (n : nat) (s : jsstring) : jsstring := skipn n s.

(** WhiteSpace and LineTerminator of ECMAScript, the code units that
    [String.prototype.trim] strips. *)
Definition is_space (c : Z) : bool :=
  ((9 <=? c) && (c <=? 13)) || (c =? 32) || (c =? 160) || (c =? 5760)
  || ((8192 <=? c) && (c <=? 8202)) || (c =? 8232) || (c =? 8233)
  || (c =? 8239) || (c =? 8287) || (c =? 12288) || (c =? 65279).

Fixpoint trimStart (s : jsstring) : jsstring :=
  match s with
  | c :: s' => if is_space c then trimStart s' else s
  | [] => []
  end.

Definition trimEnd (s : jsstring) : jsstring := rev (trimStart (rev s)).

Definition trim (s : jsstring) : jsstring := trimEnd (trimStart s).

Definition isEmpty (s : jsstring) : bool :=
  match s with [] => true | _ => false end.

(** [s.split('\n')]: the segments between line feeds; never empty. *)
Fixpoint split_lf (s : jsstring) : list jsstring :=
  match s with
  | [] => [[]]
  | c :: s' =>
      if c =? 10 then [] :: split_lf s'
      else match split_lf s' with
           | l :: ls => (c :: l) :: ls
           | [] => [[c]]
           end
  end.

(** [lines.pop()]: the array without its last element, and that element
    ([undefined], here [None], on an empty array). *)
Definition pop {A} (l : list A) : list A * option A :=
  match rev l with
  | [] => ([], None)
  | x :: r => (rev r, Some x)
  end.

End JsString.
Import JsString.

(** ** The platform's streaming UTF-8 [TextDecoder]

    [new TextDecoder()] decodes UTF-8, replaces malformed input by U+FFFD
    and strips one leading byte order mark.  Called with [{stream: true}]
    it keeps the bytes of an unfinished sequence for the next call; the
    record below is that carried state (the UTF-8 decoder of the Encoding
    Standard, and the decoder object's [BOM seen] flag). *)

Module TextDecoder.

Record utf8 := {
  code_point : Z;
  bytes_seen : Z;
  bytes_needed : Z;
  lower_boundary : Z;
  upper_boundary : Z
}.

Definition utf8_init : utf8 :=
  {| code_point := 0; bytes_seen := 0; bytes_needed := 0;
     lower_boundary := 0x80; upper_boundary := 0xBF |}.

Inductive handler_result :=
| Continue
| CodePoint (cp : Z)
| DecodeError
| DecodeErrorRestore.   (* error, and the byte is put back on the input *)

Definition between (lo hi b : Z) : bool := (lo <=? b) && (b <=? hi).

Definition handler (d : utf8) (b : Z) : utf8 * handler_result :=
  if bytes_needed d =? 0 then
    if between 0x00 0x7F b then (d, CodePoint b)
    else if between 0xC2 0xDF b then
      ({| code_point := Z.land b 0x1F; bytes_seen := bytes_seen d;
          bytes_needed := 1;
          lower_boundary := lower_boundary d;
          upper_boundary := upper_boundary d |}, Continue)
    else if between 0xE0 0xEF b then
      ({| code_point := Z.land b 0xF; bytes_seen := bytes_seen d;
          bytes_needed := 2;
          lower_boundary := if b =? 0xE0 then 0xA0 else lower_boundary d;
          upper_boundary := if b =? 0xED then 0x9F else upper_boundary d |},
       Continue)
    else if between 0xF0 0xF4 b then
      ({| code_point := Z.land b 0x7; bytes_seen := bytes_seen d;
          bytes_needed := 3;
          lower_boundary := if b =? 0xF0 then 0x90 else lower_boundary d;
          upper_boundary := if b =? 0xF4 then 0x8F else upper_boundary d |},
       Continue)
    else (d, DecodeError)
  else if negb (between (lower_boundary d) (upper_boundary d) b) then
    (utf8_init, DecodeErrorRestore)
  else
    let cp := Z.lor (Z.shiftl (code_point d) 6) (Z.land b 0x3F) in
    let seen := bytes_seen d + 1 in
    if seen =? bytes_needed d then (utf8_init, CodePoint cp)
    else ({| code_point := cp; bytes_seen := seen;
             bytes_needed := bytes_needed d;
             lower_boundary := 0x80; upper_boundary := 0xBF |}, Continue).

(** One byte of input: the code points it completes.  A byte that breaks a
    sequence is read again as the first byte of the next one. *)
Definition step (d : utf8) (b : Z) : utf8 * list Z :=
  match handler d b with
  | (d', Continue) => (d', [])
  | (d', CodePoint cp) => (d', [cp])
  | (d', DecodeError) => (d', [0xFFFD])
  | (d', DecodeErrorRestore) =>
      match handler d' b with
      | (d'', CodePoint cp) => (d'', [0xFFFD; cp])
      | (d'', Continue) => (d'', [0xFFFD])
      | (d'', _) => (d'', [0xFFFD; 0xFFFD])
      end
  end.

(** The code units of a code point in a JavaScript string. *)
Definition utf16 (cp : Z) : jsstring :=
  if cp <=? 0xFFFF then [cp]
  else let c := cp - 0x10000 in
       [0xD800 + Z.shiftr c 10; 0xDC00 + Z.land c 0x3FF].

Record t := { decoder : utf8; BOM_seen : bool }.

Definition create : t := {| decoder := utf8_init; BOM_seen := false |}.

(** Output of the decoder object: the first code point is dropped when it
    is the byte order mark. *)
Fixpoint serialize (seen : bool) (cps : list Z) : bool * jsstring :=
  match cps with
  | [] => (seen, [])
  | cp :: rest =>
      let (seen', s) := serialize true rest in
      if seen then (seen', utf16 cp ++ s)
      else if cp =? 0xFEFF then (seen', s)
      else (seen', utf16 cp ++ s)
  end.

Definition decode_byte (td : t) (b : byte) : t * jsstring :=
  let (d', cps) := step (decoder td) (Z.of_N (Byte.to_N b)) in
  let (seen', s) := serialize (BOM_seen td) cps in
  ({| decoder := d'; BOM_seen := seen' |}, s).

(** [decoder.decode(value, { stream: true })]. *)
Fixpoint decode (td : t) (value : list byte) : t * jsstring :=
  match value with
  | [] => (td, [])
  | b :: rest =>
      let (td1, s1) := decode_byte td b in
      let (td2, s2) := decode td1 rest in
      (td2, s1 ++ s2)
  end.

End TextDecoder.

(** ** JavaScript values, as far as the services look into them *)

Module Js.

Set Warnings "-register-all".

Inductive value :=
| VUndefined
| VNull
| VBoolean (b : bool)
| VNumber (q : Q)
| VString (s : jsstring)
| VArray (items : list value)
| VObject (props : list (jsstring * value)).

(** ToBoolean. *)
Definition truthy (v : value) : bool :=
  match v with
  | VUndefined | VNull => false
  | VBoolean b => b
  | VNumber q => negb (Qeq_bool q 0%Q)
  | VString s => negb (isEmpty s)
  | VArray _ | VObject _ => true
  end.

(** [a || b]. *)
Definition or (a b : value) : value := if truthy a then a else b.

Fixpoint lookup (k : jsstring) (props : list (jsstring * value)) : value :=
  match props with
  | [] => VUndefined
  | (k', v) :: rest => if JsString.eqb k k' then v else lookup k rest
  end.

(** [data.k] for a [data] that is neither [null] nor [undefined]; none of
    the names the services read is a property of a primitive or of an
    array. *)
Definition prop (data : value) (k : string) : value :=
  match data with
  | VObject props => lookup (lit k) props
  | _ => VUndefined
  end.

(** [v === 'k'] for a string literal of the source. *)
Definition strictEq (v : value) (k : string) : bool :=
  match v with
  | VString s => JsString.eqb s (lit k)
  | _ => false
  end.

End Js.

(** ** types/sse.ts *)

Module Sse.

Inductive SSEConnectionState :=
| DISCONNECTED | CONNECTING | CONNECTED | RECONNECTING | ERROR.

Inductive SSEErrorType :=
| CONNECTION_FAILED | CONNECTION_LOST | NETWORK_ERROR | TIMEOUT_ERROR
| SERVER_ERROR | AUTH_ERROR | PARSE_ERROR | MAX_RETRIES_EXCEEDED.

Definition SSEConnectionState_eqb (a b : SSEConnectionState) : bool :=
  match a, b with
  | DISCONNECTED, DISCONNECTED | CONNECTING, CONNECTING
  | CONNECTED, CONNECTED | RECONNECTING, RECONNECTING | ERROR, ERROR => true
  | _, _ => false
  end.

End Sse.

(** ** StreamingService *)

Module Streaming.
Import Js Sse.

(** The fields of [SSEConfig] that the modelled methods read ([url] and
    [headers] only shape the request). *)
Record SSEConfig := {
  timeout : Z;
  maxRetries : Z;
  retryDelay : Z;
  heartbeatInterval : Z;
  enableReconnect : bool
}.

Definition DEFAULT_SSE_CONFIG : SSEConfig :=
  {| timeout := 30000; maxRetries := 5; retryDelay := 1000;
     heartbeatInterval := 30000; enableReconnect := true |}.

Record SSEConnectionError := {
  message : jsstring;
  type : SSEErrorType;
  code : value;
  retryable : bool
}.

Record SSEConnectionStatus := {
  state : SSEConnectionState;
  connected : bool;
  lastEventTime : option Z;
  retryCount : Z;
  error : option SSEConnectionError
}.

(** The event objects handed to the callbacks.  Every field copied from the
    payload keeps the payload's value, whatever its type. *)
Inductive SSEEvent :=
| SSEStartEvent (conversation_id message_id : value) (timestamp : Z)
| SSETokenEvent (content conversation_id message_id : value) (timestamp : Z)
| SSESourcesEvent (sources : value) (timestamp : Z)
| SSEClaimsEvent (claims : value) (timestamp : Z)
| SSEDoneEvent (conversation_id message_id total_tokens
                processing_time_ms : value) (timestamp : Z)
| SSEErrorEvent (error code details retry_after : value)
                (timestamp : option Z)
| SSECitationEvent (id title url snippet relevance_score position : value)
                   (timestamp : Z)
| SSEClaimEvent (id text confidence evidence_count has_conflict
                 uncertainty : value) (timestamp : Z).

Inductive Timer :=
| RetryAfterTimer (delay : value)   (* armed by handleErrorEvent *)
| ReconnectTimer (delay : Q)        (* armed by attemptReconnection *)
| HeartbeatTimer (delay : Z).       (* armed by resetHeartbeatTimeout *)

(** What a run does that is visible from outside the service. *)
Inductive Action :=
| Dispatch (eventData : value)      (* this.handleSSEEvent(parsed) *)
| Callback (e : SSEEvent)           (* this.handlers.on...?.(e) *)
| OnConnectionStateChange (s : SSEConnectionState)
| SetTimeout (t : Timer)
| ClearTimeout (t : Timer)
| ReleaseLock.

(** The fields of the service.  [eventSource] is never assigned,
    [currentStreamId] is never read, and the calls made through
    [handlers] are what [trace] records. *)
Record StreamingService := {
  config : SSEConfig;
  connectionStatus : SSEConnectionStatus;
  retryTimeout : option Timer;
  heartbeatTimeout : option Timer;
  currentMessage : jsstring;
  currentSources : list SSEEvent;
  currentCitations : list SSEEvent;
  currentClaims : list SSEEvent;
  currentClaimsGroup : list SSEEvent;
  trace : list Action
}.

Definition create (config : SSEConfig) : StreamingService :=
  {| config := config;
     connectionStatus :=
       {| state := DISCONNECTED; connected := false; lastEventTime := None;
          retryCount := 0; error := None |};
     retryTimeout := None; heartbeatTimeout := None;
     currentMessage := []; currentSources := []; currentCitations := [];
     currentClaims := []; currentClaimsGroup := []; trace := [] |}.

(** *** Field updates *)

Definition with_status (f : SSEConnectionStatus -> SSEConnectionStatus)
    (s : StreamingService) : StreamingService :=
  {| config := config s; connectionStatus := f (connectionStatus s);
     retryTimeout := retryTimeout s; heartbeatTimeout := heartbeatTimeout s;
     currentMessage := currentMessage s; currentSources := currentSources s;
     currentCitations := currentCitations s;
     currentClaims := currentClaims s;
     currentClaimsGroup := currentClaimsGroup s; trace := trace s |}.

Definition with_timers (r h : option Timer) (s : StreamingService) :
    StreamingService :=
  {| config := config s; connectionStatus := connectionStatus s;
     retryTimeout := r; heartbeatTimeout := h;
     currentMessage := currentMessage s; currentSources := currentSources s;
     currentCitations := currentCitations s;
     currentClaims := currentClaims s;
     currentClaimsGroup := currentClaimsGroup s; trace := trace s |}.

Definition with_accumulators (m : jsstring) (so ci cl cg : list SSEEvent)
    (s : StreamingService) : StreamingService :=
  {| config := config s; connectionStatus := connectionStatus s;
     retryTimeout := retryTimeout s; heartbeatTimeout := heartbeatTimeout s;
     currentMessage := m; currentSources := so; currentCitations := ci;
     currentClaims := cl; currentClaimsGroup := cg; trace := trace s |}.

Definition log (a : Action) (s : StreamingService) : StreamingService :=
  {| config := config s; connectionStatus := connectionStatus s;
     retryTimeout := retryTimeout s; heartbeatTimeout := heartbeatTimeout s;
     currentMessage := currentMessage s; currentSources := currentSources s;
     currentCitations := currentCitations s;
     currentClaims := currentClaims s;
     currentClaimsGroup := currentClaimsGroup s;
     trace := trace s ++ [a] |}.

Definition set_state (st : SSEConnectionState) (c : SSEConnectionStatus) :=
  {| state := st; connected := SSEConnectionState_eqb st CONNECTED;
     lastEventTime := lastEventTime c; retryCount := retryCount c;
     error := error c |}.

Definition set_lastEventTime (t : Z) (c : SSEConnectionStatus) :=
  {| state := state c; connected := connected c; lastEventTime := Some t;
     retryCount := retryCount c; error := error c |}.

Definition set_retryCount (n : Z) (c : SSEConnectionStatus) :=
  {| state := state c; connected := connected c;
     lastEventTime := lastEventTime c; retryCount := n; error := error c |}.

Definition set_error (e : option SSEConnectionError)
    (c : SSEConnectionStatus) :=
  {| state := state c; connected := connected c;
     lastEventTime := lastEventTime c; retryCount := retryCount c;
     error := e |}.

(** *** updateConnectionState *)

Definition updateConnectionState (st : SSEConnectionState)
    (s : StreamingService) : StreamingService :=
  if negb (SSEConnectionState_eqb (state (connectionStatus s)) st) then
    let s := with_status (set_state st) s in
    let s :=
      match st with
      | CONNECTED =>
          with_status (fun c => set_error None (set_retryCount 0 c)) s
      | _ => s
      end in
    log (OnConnectionStateChange st) s
  else s.

(** *** createSSEError *)

Definition createSSEError (ty : SSEErrorType) (msg : jsstring)
    : SSEConnectionError :=
  {| message := msg; type := ty; code := VUndefined;
     retryable :=
       match ty with
       | CONNECTION_FAILED | CONNECTION_LOST | NETWORK_ERROR
       | TIMEOUT_ERROR | SERVER_ERROR => true
       | _ => false
       end |}.

(** *** attemptReconnection *)

Definition attemptReconnection (s : StreamingService) : StreamingService :=
  let s := with_status
             (fun c => set_retryCount (retryCount c + 1) c) s in
  let s := updateConnectionState RECONNECTING s in
  let delay :=
    Qmin (inject_Z (retryDelay (config s))
          * Qpower 2 (retryCount (connectionStatus s) - 1))
         30000 in
  let t := ReconnectTimer delay in
  log (SetTimeout t) (with_timers (Some t) (heartbeatTimeout s) s).

(** *** handleConnectionError *)

Definition handleConnectionError (now : Z) (err : SSEConnectionError)
    (s : StreamingService) : StreamingService :=
  let s := with_status (set_error (Some err)) s in
  let s := updateConnectionState ERROR s in
  let s := log (Callback (SSEErrorEvent (VString (message err)) (code err)
                            VUndefined VUndefined (Some now))) s in
  if retryable err && enableReconnect (config s)
     && (retryCount (connectionStatus s) <? maxRetries (config s))
  then attemptReconnection s
  else s.

(** *** resetHeartbeatTimeout *)

Definition resetHeartbeatTimeout (s : StreamingService) : StreamingService :=
  let s :=
    match heartbeatTimeout s with
    | Some t => log (ClearTimeout t) s
    | None => s
    end in
  let t := HeartbeatTimer (heartbeatInterval (config s) * 2) in
  log (SetTimeout t) (with_timers (retryTimeout s) (Some t) s).

(** *** closeConnection ([eventSource] is never assigned and stays null) *)

Definition closeConnection (s : StreamingService) : StreamingService :=
  let s :=
    match retryTimeout s with
    | Some t => with_timers None (heartbeatTimeout s) (log (ClearTimeout t) s)
    | None => s
    end in
  let s :=
    match heartbeatTimeout s with
    | Some t => with_timers (retryTimeout s) None (log (ClearTimeout t) s)
    | None => s
    end in
  updateConnectionState DISCONNECTED s.

(** *** The parser and the dispatcher

    Three functions are taken from outside the service:
    [JSON.parse] ([None] when it throws a SyntaxError), the ToString
    conversion that [+=] and template literals apply to a value that is
    not a string, and [processSources] of utils/sourceUtils.ts ([None]
    when it throws on a malformed batch). *)

Section Platform.

Variable JSON_parse : jsstring -> option value.
Variable ToString : value -> jsstring.
Variable processSources : value -> option value.

(** [s += v] on a string [s]. *)
Definition append (s : jsstring) (v : value) : jsstring :=
  s ++ match v with VString t => t | _ => ToString v end.

(** A handler either returns, or throws after the writes it has made. *)
Inductive outcome :=
| Returned (s : StreamingService)
| Threw (s : StreamingService).

Definition handleStartEvent (now : Z) (s : StreamingService) (data : value)
    : StreamingService :=
  let event :=
    SSEStartEvent (or (prop data "conversation_id") (VString []))
                  (or (prop data "message_id") (VString [])) now in
  log (Callback event) s.

Definition handleSourcesEvent (now : Z) (s : StreamingService)
    (data : value) : outcome :=
  match processSources (or (prop data "sources") (VArray [])) with
  | None => Threw s
  | Some sources =>
      let event := SSESourcesEvent sources now in
      let s := with_accumulators (currentMessage s)
                 (currentSources s ++ [event]) (currentCitations s)
                 (currentClaims s) (currentClaimsGroup s) s in
      Returned (log (Callback event) s)
  end.

Definition handleClaimsEvent (now : Z) (s : StreamingService) (data : value)
    : StreamingService :=
  let event := SSEClaimsEvent (or (prop data "claims") (VArray [])) now in
  let s := with_accumulators (currentMessage s) (currentSources s)
             (currentCitations s) (currentClaims s)
             (currentClaimsGroup s ++ [event]) s in
  log (Callback event) s.

Definition handleDoneEvent (now : Z) (s : StreamingService) (data : value)
    : StreamingService :=
  let event :=
    SSEDoneEvent (prop data "conversation_id") (prop data "message_id")
                 (prop data "total_tokens") (prop data "processing_time_ms")
                 now in
  let s := log (Callback event) s in
  updateConnectionState DISCONNECTED s.

Definition handleTokenEvent (now : Z) (s : StreamingService) (data : value)
    : StreamingService :=
  let event :=
    SSETokenEvent (or (prop data "content") (VString []))
                  (prop data "conversation_id") (prop data "message_id")
                  now in
  (* Accumulate message content *)
  let s := with_accumulators
             (append (currentMessage s)
                     (or (prop data "content") (VString [])))
             (currentSources s) (currentCitations s) (currentClaims s)
             (currentClaimsGroup s) s in
  (* Notify handlers *)
  log (Callback event) s.

Definition handleCitationEvent (now : Z) (s : StreamingService)
    (data : value) : StreamingService :=
  let event :=
    SSECitationEvent
      (or (prop data "id")
          (VString (lit "citation-" ++ ToString (VNumber (inject_Z now)))))
      (or (prop data "title") (VString []))
      (or (prop data "url") (VString []))
      (or (prop data "snippet") (VString []))
      (or (prop data "relevance_score") (VNumber 0))
      (prop data "position") now in
  let s := with_accumulators (currentMessage s) (currentSources s)
             (currentCitations s ++ [event]) (currentClaims s)
             (currentClaimsGroup s) s in
  log (Callback event) s.

Definition handleClaimEvent (now : Z) (s : StreamingService) (data : value)
    : StreamingService :=
  let event :=
    SSEClaimEvent
      (or (prop data "id")
          (VString (lit "claim-" ++ ToString (VNumber (inject_Z now)))))
      (or (prop data "text") (VString []))
      (or (prop data "confidence") (VNumber 0))
      (or (prop data "evidence_count") (VNumber 0))
      (or (prop data "has_conflict") (VBoolean false))
      (or (prop data "uncertainty") (VBoolean false)) now in
  let s := with_accumulators (currentMessage s) (currentSources s)
             (currentCitations s) (currentClaims s ++ [event])
             (currentClaimsGroup s) s in
  log (Callback event) s.

Definition handleErrorEvent (now : Z) (s : StreamingService) (data : value)
    : StreamingService :=
  let retry_after := prop data "retry_after" in
  let event :=
    SSEErrorEvent (or (prop data "error") (VString (lit "Unknown error")))
                  (prop data "code") (prop data "details") retry_after
                  (Some now) in
  let s := log (Callback event) s in
  (* Handle retryable errors *)
  if truthy retry_after && enableReconnect (config s)
  then log (SetTimeout (RetryAfterTimer retry_after)) s
  else s.

Definition handleHeartbeatEvent (s : StreamingService) (data : value)
    : StreamingService :=
  resetHeartbeatTimeout s.

(** [handleSSEEvent]: reading [eventData.type] throws on [null]. *)
Definition handleSSEEvent (now : Z) (s : StreamingService)
    (eventData : value) : outcome :=
  match eventData with
  | VNull | VUndefined => Threw s
  | _ =>
      let ty := prop eventData "type" in
      if negb (truthy ty) then Returned s
      else
        (* Update last event time *)
        let s := with_status (set_lastEventTime now) s in
        if strictEq ty "start" then Returned (handleStartEvent now s eventData)
        else if strictEq ty "token" then
          Returned (handleTokenEvent now s eventData)
        else if strictEq ty "sources" then handleSourcesEvent now s eventData
        else if strictEq ty "claims" then
          Returned (handleClaimsEvent now s eventData)
        else if strictEq ty "citation" then
          Returned (handleCitationEvent now s eventData)
        else if strictEq ty "claim" then
          Returned (handleClaimEvent now s eventData)
        else if strictEq ty "done" then
          Returned (handleDoneEvent now s eventData)
        else if strictEq ty "error" then
          Returned (handleErrorEvent now s eventData)
        else if strictEq ty "heartbeat" then
          Returned (handleHeartbeatEvent s eventData)
        else Returned s
  end.

(** The event of the [catch] branch of [processSSELine]. *)
Definition parseErrorEvent : SSEEvent :=
  SSEErrorEvent (VString (lit "Failed to parse streaming data"))
                (VString (lit "PARSE_ERROR")) VUndefined VUndefined None.

(** [processSSELine]. *)
Definition processSSELine (now : Z) (s : StreamingService) (line : jsstring)
    : StreamingService :=
  let trimmedLine := trim line in
  if isEmpty trimmedLine || startsWith trimmedLine (lit ":") then
    s (* Skip empty lines and comments *)
  else if startsWith trimmedLine (lit "data: ") then
    let data := slice 6 trimmedLine in
    if JsString.eqb data (lit "[DONE]") then
      (* Handle explicit done signal *)
      updateConnectionState DISCONNECTED s
    else
      match JSON_parse data with
      | None => log (Callback parseErrorEvent) s
      | Some parsed =>
          match handleSSEEvent now (log (Dispatch parsed) s) parsed with
          | Returned s' => s'
          | Threw s' => log (Callback parseErrorEvent) s'
          end
      end
  else s.

(** How the body ends: [reader.read()] reports [done], or rejects; a
    rejection carries the clock reading of the [catch] branch and the
    message of the error ([None] when the thrown value is not an Error). *)
Inductive StreamEnd :=
| EndOfInput
| ReadFailure (now : Z) (message : option jsstring).

(** The [while (true)] loop of [processStream].  Each read delivers a
    chunk together with the clock reading ([Date.now()]) of the turn
    that processes it. *)
Fixpoint readLoop (s : StreamingService) (decoder : TextDecoder.t)
    (buffer : jsstring) (reads : list (Z * list byte)) (e : StreamEnd)
    : StreamingService :=
  match reads with
  | [] =>
      match e with
      | EndOfInput =>
          (* Stream completed naturally *)
          updateConnectionState DISCONNECTED s
      | ReadFailure now msg =>
          handleConnectionError now
            (createSSEError NETWORK_ERROR
               (match msg with
                | Some m => m
                | None => lit "Stream processing failed"
                end)) s
      end
  | (now, value) :: rest =>
      (* Decode the chunk *)
      let (decoder, chunk) := TextDecoder.decode decoder value in
      let buffer := buffer ++ chunk in
      (* Process complete lines *)
      let (lines, last) := pop (split_lf buffer) in
      let buffer := match last with Some l => l | None => [] end in
      let s := fold_left (processSSELine now) lines s in
      readLoop s decoder buffer rest e
  end.

(** [processStream]. *)
Definition processStream (s : StreamingService)
    (reads : list (Z * list byte)) (e : StreamEnd) : StreamingService :=
  let s := updateConnectionState CONNECTED s in
  log ReleaseLock (readLoop s TextDecoder.create [] reads e).

(** What [fetch] delivers to [connectEventSource]. *)
Inductive FetchResult :=
| FetchRejected (message : option jsstring)
| NotOk (statusLine : jsstring)        (* `HTTP ${status}: ${statusText}` *)
| NoBody
| Body (reads : list (Z * list byte)) (e : StreamEnd).

(** [startStream]; [now] is the clock reading of its [catch] branch. *)
Definition startStream (now : Z) (s : StreamingService) (r : FetchResult)
    : StreamingService :=
  (* Close any existing connection *)
  let s := closeConnection s in
  (* Reset state *)
  let s := with_accumulators [] [] [] [] [] s in
  (* Update connection state *)
  let s := updateConnectionState CONNECTING s in
  let failed (m : jsstring) :=
    handleConnectionError now (createSSEError CONNECTION_FAILED m) s in
  match r with
  | Body reads e => processStream s reads e
  | FetchRejected (Some m) => failed m
  | FetchRejected None => failed (lit "Connection failed")
  | NotOk statusLine => failed statusLine
  | NoBody => failed (lit "No response body for streaming")
  end.

(** [getCurrentMessage]. *)
Definition getCurrentMessage (s : StreamingService) : jsstring :=
  currentMessage s.

(** The payloads handed to the dispatcher, in order. *)
Fixpoint dispatched (tr : list Action) : list value :=
  match tr with
  | [] => []
  | Dispatch v :: rest => v :: dispatched rest
  | _ :: rest => dispatched rest
  end.

End Platform.

End Streaming.

(** ** JavaScript numbers (IEEE 754 binary64)

    The arithmetic of [calculateDelay]: products and sums rounded to the
    nearest double, ties to even, with overflow to infinity, gradual
    underflow, signed zeros and [NaN].  [to_spec] reads a number as a
    [spec_float] of the Standard Library; the operations here are
    compared with its operations at precision 53 and exponent bound 1024
    on samples ([mul_agrees], [add_agrees], [overflow_agrees]). *)

Module Number.

(** A number of JavaScript: an IEEE 754 binary64 value.  [Finite s m e] is
    (-1)^s * m * 2^e. *)
Inductive number :=
| NaN
| Infinity (negative : bool)
| Zero (negative : bool)
| Finite (negative : bool) (m : positive) (e : Z).

Definition pow2 (e : Z) : Q := Qpower 2 e.

Definition magnitude (m : positive) (e : Z) : Q :=
  (inject_Z (Zpos m) * pow2 e)%Q.

(** The value of a finite number. *)
Definition value (x : number) : Q :=
  match x with
  | Finite s m e => if s then (- magnitude m e)%Q else magnitude m e
  | _ => 0%Q
  end.

(** [floor (log2 a)] for a positive [a]. *)
Definition Qlog2 (a : Q) : Z :=
  let k := Z.log2 (Qnum a) - Z.log2 (Zpos (Qden a)) in
  if Qle_bool (pow2 k) a then k else k - 1.

(** The exponent of the doubles around a positive [a]: 53 significant
    bits, and no exponent below that of the subnormals. *)
Definition exponent (a : Q) : Z := Z.max (Qlog2 a - 52) (-1074).

(** To the nearest integer, ties to even. *)
Definition nearest_even (n : Q) : Z :=
  let f := Qfloor n in
  match Qcompare (n - inject_Z f) (1 # 2) with
  | Lt => f
  | Gt => f + 1
  | Eq => if Z.even f then f else f + 1
  end.

Definition pack (s : bool) (m e : Z) : number :=
  if m =? 0 then Zero s
  else
    let (m, e) := if m =? 2 ^ 53 then (2 ^ 52, e + 1) else (m, e) in
    if 971 <? e then Infinity s else Finite s (Z.to_pos m) e.

(** The integer that [a > 0] is nearest to in units of [2 ^ exponent a]. *)
Definition mantissa (a : Q) : Z := nearest_even (a / pow2 (exponent a)).

(** The double nearest to the magnitude [a > 0], with sign [s]. *)
Definition nearest (s : bool) (a : Q) : number :=
  pack s (mantissa a) (exponent a).

(** The magnitude [a > 0] rounded to 53 bits, before the range of the
    exponent cuts it off at infinity. *)
Definition rounded (a : Q) : Q :=
  (inject_Z (mantissa a) * pow2 (exponent a))%Q.

(** The double nearest to [q]; an exact zero gets the sign [zero]. *)
Definition round (zero : bool) (q : Q) : number :=
  match Qcompare q 0 with
  | Eq => Zero zero
  | Gt => nearest false q
  | Lt => nearest true (- q)
  end.

Definition of_Q (q : Q) : number := round false q.
Definition of_Z (z : Z) : number := of_Q (inject_Z z).

(** [x * y]. *)
Definition mul (x y : number) : number :=
  match x, y with
  | NaN, _ | _, NaN => NaN
  | Infinity _, Zero _ | Zero _, Infinity _ => NaN
  | Infinity s, Infinity t | Infinity s, Finite t _ _
  | Finite s _ _, Infinity t => Infinity (xorb s t)
  | Zero s, Zero t | Zero s, Finite t _ _ | Finite s _ _, Zero t =>
      Zero (xorb s t)
  | Finite s _ _, Finite t _ _ =>
      nearest (xorb s t) (Qabs (value x * value y))
  end.

(** [x + y]. *)
Definition add (x y : number) : number :=
  match x, y with
  | NaN, _ | _, NaN => NaN
  | Infinity s, Infinity t => if Bool.eqb s t then x else NaN
  | Infinity _, _ => x
  | _, Infinity _ => y
  | Zero s, Zero t => Zero (s && t)
  | Zero _, _ => y
  | _, Zero _ => x
  | Finite _ _ _, Finite _ _ _ => round false (value x + value y)
  end.

(** [- x]. *)
Definition opp (x : number) : number :=
  match x with
  | NaN => NaN
  | Infinity s => Infinity (negb s)
  | Zero s => Zero (negb s)
  | Finite s m e => Finite (negb s) m e
  end.

(** [x - y]. *)
Definition sub (x y : number) : number := add x (opp y).

(** The order of the numbers; [None] when one of them is [NaN]. *)
Definition compare (x y : number) : option comparison :=
  match x, y with
  | NaN, _ | _, NaN => None
  | Infinity s, Infinity t =>
      Some (if s then if t then Eq else Lt else if t then Gt else Eq)
  | Infinity s, _ => Some (if s then Lt else Gt)
  | _, Infinity t => Some (if t then Gt else Lt)
  | _, _ => Some (Qcompare (value x) (value y))
  end.

Definition ltb (x y : number) : bool :=
  match compare x y with Some Lt => true | _ => false end.

Definition leb (x y : number) : bool :=
  match compare x y with Some (Lt | Eq) => true | _ => false end.

Definition is_nan (x : number) : bool :=
  match x with NaN => true | _ => false end.

Definition is_finite (x : number) : bool :=
  match x with Zero _ | Finite _ _ _ => true | _ => false end.

(** [Math.min(x, y)]: [NaN] if either is, and [-0] below [+0]. *)
Definition min (x y : number) : number :=
  match compare x y with
  | None => NaN
  | Some Lt => x
  | Some Gt => y
  | Some Eq =>
      match x, y with
      | Zero s, Zero t => Zero (s || t)
      | _, _ => x
      end
  end.

(** The magnitude of a finite number is below [2 ^ 1024]. *)
Definition bounded (x : number) : Prop :=
  match x with
  | Finite _ m e => (magnitude m e < pow2 1024)%Q
  | _ => True
  end.

(** Not negative, and not [NaN]. *)
Definition nonnegative (x : number) : Prop :=
  x = Zero false \/ x = Infinity false \/ exists m e, x = Finite false m e.

(** The magnitude of a finite number is one that rounding leaves as it
    is: the number is a double, and not only a triple of sign, mantissa
    and exponent. *)
Definition representable (x : number) : Prop :=
  match x with
  | Finite _ m e => (rounded (magnitude m e) == magnitude m e)%Q
  | _ => True
  end.

Definition zero : number := Zero false.
Definition one : number := of_Q 1.
Definition tenth : number := of_Q (1 # 10).     (* the literal [0.1] *)

Definition to_spec (x : number) : spec_float :=
  match x with
  | NaN => S754_nan
  | Infinity s => S754_infinity s
  | Zero s => S754_zero s
  | Finite s m e => S754_finite s m e
  end.

End Number.

(** ** ErrorRecoveryManager (services/error-recovery.ts) *)

Module Recovery.
Import Sse.

Inductive CircuitBreakerState := CLOSED | OPEN | HALF_OPEN.

Inductive RecoveryStrategy :=
| IMMEDIATE_RETRY | EXPONENTIAL_BACKOFF | LINEAR_BACKOFF | CIRCUIT_BREAKER
| FALLBACK | NONE.

Inductive NetworkQuality := EXCELLENT | GOOD | FAIR | POOR | OFFLINE.

Inductive Severity := low | medium | high | critical.

(** [ErrorRecoveryConfig]; its [maxRetries] is [config_maxRetries] here,
    the name [maxRetries] being the field of [ErrorClassification]. *)
Record ErrorRecoveryConfig := {
  config_maxRetries : Z;
  initialDelay : Q;
  maxDelay : Q;
  backoffMultiplier : Q;
  jitterEnabled : bool;
  circuitBreakerThreshold : Z;
  circuitBreakerTimeout : Z;
  networkQualityCheckInterval : Z;
  fallbackEnabled : bool
}.

Definition DEFAULT_RECOVERY_CONFIG : ErrorRecoveryConfig :=
  {| config_maxRetries := 5; initialDelay := 1000; maxDelay := 30000;
     backoffMultiplier := 2; jitterEnabled := true;
     circuitBreakerThreshold := 5; circuitBreakerTimeout := 60000;
     networkQualityCheckInterval := 30000; fallbackEnabled := true |}.

Record RecoveryAttempt := {
  attempt : Z;
  attempt_strategy : RecoveryStrategy;
  delay : Number.number;
  timestamp : Z;
  success : bool;
  attempt_error : option jsstring      (* message of the recovery error *)
}.

(** [NetworkMetrics]; a [latency] of [None] is [Infinity]. *)
Record NetworkMetrics := {
  latency : option Z;
  packetLoss : Z;
  bandwidth : Z;
  stability : Q;
  quality : NetworkQuality;
  metrics_timestamp : Z
}.

Record ErrorClassification := {
  type : SSEErrorType;
  severity : Severity;
  retryable : bool;
  strategy : RecoveryStrategy;
  maxRetries : Z;
  baseDelay : Q
}.

Definition ERROR_CLASSIFICATION_RULES (t : SSEErrorType)
    : ErrorClassification :=
  match t with
  | CONNECTION_FAILED =>
      {| type := CONNECTION_FAILED; severity := high; retryable := true;
         strategy := EXPONENTIAL_BACKOFF; maxRetries := 5;
         baseDelay := 2000 |}
  | CONNECTION_LOST =>
      {| type := CONNECTION_LOST; severity := medium; retryable := true;
         strategy := EXPONENTIAL_BACKOFF; maxRetries := 3;
         baseDelay := 1000 |}
  | NETWORK_ERROR =>
      {| type := NETWORK_ERROR; severity := high; retryable := true;
         strategy := CIRCUIT_BREAKER; maxRetries := 3; baseDelay := 5000 |}
  | TIMEOUT_ERROR =>
      {| type := TIMEOUT_ERROR; severity := medium; retryable := true;
         strategy := LINEAR_BACKOFF; maxRetries := 3; baseDelay := 2000 |}
  | SERVER_ERROR =>
      {| type := SERVER_ERROR; severity := high; retryable := true;
         strategy := EXPONENTIAL_BACKOFF; maxRetries := 2;
         baseDelay := 3000 |}
  | AUTH_ERROR =>
      {| type := AUTH_ERROR; severity := critical; retryable := false;
         strategy := NONE; maxRetries := 0; baseDelay := 0 |}
  | PARSE_ERROR =>
      {| type := PARSE_ERROR; severity := low; retryable := false;
         strategy := NONE; maxRetries := 0; baseDelay := 0 |}
  | MAX_RETRIES_EXCEEDED =>
      {| type := MAX_RETRIES_EXCEEDED; severity := critical;
         retryable := false; strategy := FALLBACK; maxRetries := 0;
         baseDelay := 0 |}
  end.

(** Calls of the optional listeners, and of what the manager awaits. *)
Inductive Action :=
| OnRecoveryAttempt (a : RecoveryAttempt)
| OnCircuitBreakerStateChange (s : CircuitBreakerState)
| Sleep (ms : Number.number)
| RecoveryFn.                        (* recoveryFn() is invoked *)

Record ErrorRecoveryManager := {
  config : ErrorRecoveryConfig;
  circuitBreakerState : CircuitBreakerState;
  failureCount : Z;
  lastFailureTime : Z;
  recoveryAttempts : list RecoveryAttempt;
  networkMetrics : option NetworkMetrics;
  trace : list Action
}.

Definition create (config : ErrorRecoveryConfig) : ErrorRecoveryManager :=
  {| config := config; circuitBreakerState := CLOSED; failureCount := 0;
     lastFailureTime := 0; recoveryAttempts := []; networkMetrics := None;
     trace := [] |}.

Definition CircuitBreakerState_eqb (a b : CircuitBreakerState) : bool :=
  match a, b with
  | CLOSED, CLOSED | OPEN, OPEN | HALF_OPEN, HALF_OPEN => true
  | _, _ => false
  end.

(** *** Field updates *)

Definition with_breaker (c : CircuitBreakerState) (m : ErrorRecoveryManager) :=
  {| config := config m; circuitBreakerState := c;
     failureCount := failureCount m; lastFailureTime := lastFailureTime m;
     recoveryAttempts := recoveryAttempts m;
     networkMetrics := networkMetrics m; trace := trace m |}.

Definition with_failureCount (n : Z) (m : ErrorRecoveryManager) :=
  {| config := config m; circuitBreakerState := circuitBreakerState m;
     failureCount := n; lastFailureTime := lastFailureTime m;
     recoveryAttempts := recoveryAttempts m;
     networkMetrics := networkMetrics m; trace := trace m |}.

Definition with_lastFailureTime (t : Z) (m : ErrorRecoveryManager) :=
  {| config := config m; circuitBreakerState := circuitBreakerState m;
     failureCount := failureCount m; lastFailureTime := t;
     recoveryAttempts := recoveryAttempts m;
     networkMetrics := networkMetrics m; trace := trace m |}.

Definition push_attempt (a : RecoveryAttempt) (m : ErrorRecoveryManager) :=
  {| config := config m; circuitBreakerState := circuitBreakerState m;
     failureCount := failureCount m; lastFailureTime := lastFailureTime m;
     recoveryAttempts := recoveryAttempts m ++ [a];
     networkMetrics := networkMetrics m; trace := trace m |}.

Definition with_networkMetrics (n : option NetworkMetrics)
    (m : ErrorRecoveryManager) :=
  {| config := config m; circuitBreakerState := circuitBreakerState m;
     failureCount := failureCount m; lastFailureTime := lastFailureTime m;
     recoveryAttempts := recoveryAttempts m;
     networkMetrics := n; trace := trace m |}.

Definition log (a : Action) (m : ErrorRecoveryManager) :=
  {| config := config m; circuitBreakerState := circuitBreakerState m;
     failureCount := failureCount m; lastFailureTime := lastFailureTime m;
     recoveryAttempts := recoveryAttempts m;
     networkMetrics := networkMetrics m; trace := trace m ++ [a] |}.

(** *** classifyError *)

(** [this.networkMetrics?.quality]. *)
Definition currentQuality (m : option NetworkMetrics)
    : option NetworkQuality :=
  option_map quality m.

Definition classifyError (metrics : option NetworkMetrics)
    (error_type : SSEErrorType) : ErrorClassification :=
  let baseClassification := ERROR_CLASSIFICATION_RULES error_type in
  (* Adjust strategy based on network quality *)
  match currentQuality metrics with
  | Some POOR =>
      {| type := type baseClassification;
         severity := severity baseClassification;
         retryable := retryable baseClassification;
         strategy := LINEAR_BACKOFF;
         maxRetries :=
           Z.max 1 (Qfloor (inject_Z (maxRetries baseClassification) / 2));
         baseDelay := baseDelay baseClassification * 2 |}
  | Some OFFLINE =>
      {| type := type baseClassification;
         severity := severity baseClassification;
         retryable := false;
         strategy := FALLBACK;
         maxRetries := maxRetries baseClassification;
         baseDelay := baseDelay baseClassification |}
  | _ => baseClassification
  end.

(** *** calculateDelay

    The base delay, the multiplier and the ceiling enter the arithmetic
    as the doubles they are ([Number.of_Q]: the double nearest to the
    rational, which is the rational itself for the integers of the rule
    table and of the default configuration).  [pow] is the platform's
    [Math.pow]. *)

(** The [switch] of [calculateDelay]: the delay before jitter and ceiling. *)
Definition strategyDelay
    (pow : Number.number -> Number.number -> Number.number)
    (m : ErrorRecoveryManager) (classification : ErrorClassification)
    (attemptCount : Z) : Number.number :=
  let baseDelay := Number.of_Q (baseDelay classification) in
  match strategy classification with
  | IMMEDIATE_RETRY => Number.zero
  | LINEAR_BACKOFF => Number.mul baseDelay (Number.of_Z attemptCount)
  | EXPONENTIAL_BACKOFF =>
      Number.mul baseDelay
        (pow (Number.of_Q (backoffMultiplier (config m)))
             (Number.sub (Number.of_Z attemptCount) Number.one))
  | CIRCUIT_BREAKER =>
      match circuitBreakerState m with
      | OPEN => Number.of_Z (circuitBreakerTimeout (config m))
      | _ => baseDelay
      end
  | _ => baseDelay
  end.

(** [calculateDelay]; [random] is the value of [Math.random()]. *)
Definition calculateDelay
    (pow : Number.number -> Number.number -> Number.number)
    (random : Number.number) (m : ErrorRecoveryManager)
    (classification : ErrorClassification) (attemptCount : Z)
    : Number.number :=
  let delay := strategyDelay pow m classification attemptCount in
  (* Apply jitter to prevent thundering herd *)
  let delay :=
    if jitterEnabled (config m) && Number.ltb Number.zero delay
    then
      let jitter :=
        Number.mul (Number.mul delay Number.tenth) random in
      Number.add delay jitter
    else delay in
  (* Ensure delay doesn't exceed maximum *)
  Number.min delay (Number.of_Q (maxDelay (config m))).

(** *** The circuit breaker *)

Definition setCircuitBreakerState (c : CircuitBreakerState)
    (m : ErrorRecoveryManager) : ErrorRecoveryManager :=
  if negb (CircuitBreakerState_eqb (circuitBreakerState m) c)
  then log (OnCircuitBreakerStateChange c) (with_breaker c m)
  else m.

Definition handleMaxRetriesExceeded (now : Z) (m : ErrorRecoveryManager)
    : ErrorRecoveryManager :=
  with_lastFailureTime now (setCircuitBreakerState OPEN m).

Definition incrementFailureCount (now : Z) (m : ErrorRecoveryManager)
    : ErrorRecoveryManager :=
  let m := with_failureCount (failureCount m + 1) m in
  if circuitBreakerThreshold (config m) <=? failureCount m
  then with_lastFailureTime now (setCircuitBreakerState OPEN m)
  else m.

Definition resetFailureCount (m : ErrorRecoveryManager) :=
  with_failureCount 0 m.

(** [reset]. *)
Definition reset (m : ErrorRecoveryManager) : ErrorRecoveryManager :=
  {| config := config m; circuitBreakerState := CLOSED; failureCount := 0;
     lastFailureTime := 0; recoveryAttempts := [];
     networkMetrics := networkMetrics m; trace := trace m |}.

(** *** attemptRecovery

    What one pass through [attemptRecovery] takes from outside: the
    metrics the network monitor has stored since the previous pass (the
    monitor runs on its own timer), the clock readings of the four
    [Date.now()] call sites, the platform's [Math.pow], the value of
    [Math.random()] and whether [recoveryFn()] resolves or rejects. *)

Inductive RecoveryResult :=
| Resolved
| Rejected (message : jsstring).

Record AttemptEnv := {
  monitor : option NetworkMetrics;  (* Some: stored since the last pass *)
  now_exceeded : Z;                 (* in handleMaxRetriesExceeded *)
  now_check : Z;                    (* in the circuit breaker check *)
  Math_pow : Number.number -> Number.number -> Number.number;
  random : Number.number;
  now_attempt : Z;                  (* timestamp of the attempt *)
  recovery : RecoveryResult;
  now_failure : Z                   (* in incrementFailureCount *)
}.

(** The monitor's write, if any, that precedes a pass. *)
Definition observe (e : AttemptEnv) (m : ErrorRecoveryManager)
    : ErrorRecoveryManager :=
  match monitor e with
  | Some n => with_networkMetrics (Some n) m
  | None => m
  end.

(** A pass either returns, or fails and tries again with the next attempt
    count. *)
Inductive pass_result :=
| Return (result : bool) (m : ErrorRecoveryManager)
| TryAgain (m : ErrorRecoveryManager).

(** The body of [attemptRecovery(error, recoveryFn, attemptCount)]. *)
Definition attemptRecovery_pass (e : AttemptEnv) (m : ErrorRecoveryManager)
    (error_type : SSEErrorType) (attemptCount : Z) : pass_result :=
  let m := observe e m in
  let classification := classifyError (networkMetrics m) error_type in
  (* Check if error is retryable *)
  if negb (retryable classification)
     || (maxRetries classification <? attemptCount)
  then Return false (handleMaxRetriesExceeded (now_exceeded e) m)
  else
    (* Check circuit breaker *)
    let blocked :=
      match circuitBreakerState m with
      | OPEN =>
          now_check e - lastFailureTime m <? circuitBreakerTimeout (config m)
      | _ => false
      end in
    if blocked then Return false m
    else
      let m := match circuitBreakerState m with
               | OPEN => setCircuitBreakerState HALF_OPEN m
               | _ => m
               end in
      let delay :=
        calculateDelay (Math_pow e) (random e) m classification
          attemptCount in
      let recoveryAttempt :=
        {| attempt := attemptCount;
           attempt_strategy := strategy classification;
           delay := delay; timestamp := now_attempt e;
           success := false; attempt_error := None |} in
      let m := log (OnRecoveryAttempt recoveryAttempt) m in
      let m := if Number.ltb Number.zero delay
               then log (Sleep delay) m else m in
      let m := log RecoveryFn m in
      match recovery e with
      | Resolved =>
          (* Recovery successful *)
          let m := push_attempt
                     {| attempt := attemptCount;
                        attempt_strategy := strategy classification;
                        delay := delay; timestamp := now_attempt e;
                        success := true; attempt_error := None |} m in
          let m := resetFailureCount m in
          let m := match circuitBreakerState m with
                   | HALF_OPEN => setCircuitBreakerState CLOSED m
                   | _ => m
                   end in
          Return true m
      | Rejected msg =>
          (* Recovery failed *)
          let m := push_attempt
                     {| attempt := attemptCount;
                        attempt_strategy := strategy classification;
                        delay := delay; timestamp := now_attempt e;
                        success := false; attempt_error := Some msg |} m in
          TryAgain (incrementFailureCount (now_failure e) m)
      end.

(** [attemptRecovery], with the passes of its recursion counted down by
    [fuel]; [env a] is the environment of the pass with attempt count
    [a]. *)
Fixpoint attemptRecovery_fuel (fuel : nat) (env : Z -> AttemptEnv)
    (m : ErrorRecoveryManager) (error_type : SSEErrorType)
    (attemptCount : Z) : option (bool * ErrorRecoveryManager) :=
  match fuel with
  | O => None
  | S fuel =>
      match attemptRecovery_pass (env attemptCount) m error_type
              attemptCount with
      | Return result m => Some (result, m)
      | TryAgain m =>
          (* Try again recursively *)
          attemptRecovery_fuel fuel env m error_type (attemptCount + 1)
      end
  end.

(** No classification allows more than this many retries. *)
Definition retry_ceiling : Z := 5.

(** [attemptRecovery]: the recursion ends once the attempt count passes
    the retry ceiling, so this much fuel is never used up. *)
Definition attemptRecovery (env : Z -> AttemptEnv) (m : ErrorRecoveryManager)
    (error_type : SSEErrorType) (attemptCount : Z)
    : option (bool * ErrorRecoveryManager) :=
  attemptRecovery_fuel (S (Z.to_nat (retry_ceiling + 1 - attemptCount)))
    env m error_type attemptCount.

(** How often [recoveryFn] was invoked. *)
Definition recoveryCalls (tr : list Action) : nat :=
  List.length
    (filter (fun a => match a with RecoveryFn => true | _ => false end) tr).

End Recovery.

(** ** The stream as a whole

    What the specification compares the chunked run with: the text of the
    whole body, and its lines. *)

Module Reading.
Import Js Sse Streaming.

(** The lines of a text that a line feed completes, and the rest. *)
Definition complete_lines (text : jsstring) : list jsstring :=
  fst (pop (split_lf text)).

Definition fragment (text : jsstring) : jsstring :=
  match snd (pop (split_lf text)) with Some l => l | None => [] end.

(** The text of a body: its bytes decoded in one piece by a fresh
    decoder. *)
Definition body_text (body : list byte) : jsstring :=
  snd (TextDecoder.decode TextDecoder.create body).

(** The lines that the read loop hands to [processSSELine], each with the
    clock reading of its turn. *)
Fixpoint fed (decoder : TextDecoder.t) (buffer : jsstring)
    (reads : list (Z * list byte)) : list (Z * jsstring) :=
  match reads with
  | [] => []
  | (now, value) :: rest =>
      let (decoder, chunk) := TextDecoder.decode decoder value in
      let (lines, last) := pop (split_lf (buffer ++ chunk)) in
      map (pair now) lines
      ++ fed decoder (match last with Some l => l | None => [] end) rest
  end.

(** The part of the service that no clock reading reaches: the event
    lists, the last event time and the callback arguments carry
    timestamps, and are left out. *)
Definition timeless (s : StreamingService) : StreamingService :=
  {| config := config s;
     connectionStatus :=
       {| state := state (connectionStatus s);
          connected := connected (connectionStatus s);
          lastEventTime := None;
          retryCount := retryCount (connectionStatus s);
          error := error (connectionStatus s) |};
     retryTimeout := retryTimeout s; heartbeatTimeout := heartbeatTimeout s;
     currentMessage := currentMessage s; currentSources := [];
     currentCitations := []; currentClaims := []; currentClaimsGroup := [];
     trace := map Dispatch (dispatched (trace s)) |}.

(** The service with [p] put in front of its trace. *)
Definition after_trace (p : list Action) (s : StreamingService)
    : StreamingService :=
  {| config := config s; connectionStatus := connectionStatus s;
     retryTimeout := retryTimeout s; heartbeatTimeout := heartbeatTimeout s;
     currentMessage := currentMessage s; currentSources := currentSources s;
     currentCitations := currentCitations s;
     currentClaims := currentClaims s;
     currentClaimsGroup := currentClaimsGroup s;
     trace := p ++ trace s |}.

(** The service with its trace replaced by [t]. *)
Definition with_trace (t : list Action) (s : StreamingService)
    : StreamingService :=
  {| config := config s; connectionStatus := connectionStatus s;
     retryTimeout := retryTimeout s; heartbeatTimeout := heartbeatTimeout s;
     currentMessage := currentMessage s; currentSources := currentSources s;
     currentCitations := currentCitations s;
     currentClaims := currentClaims s;
     currentClaimsGroup := currentClaimsGroup s;
     trace := t |}.

Section Runs.

Variable JSON_parse : jsstring -> option value.
Variable ToString : value -> jsstring.
Variable processSources : value -> option value.

(** The [for] loop over the lines of one turn. *)
Definition run_lines (now : Z) (lines : list jsstring)
    (s : StreamingService) : StreamingService :=
  fold_left (processSSELine JSON_parse ToString processSources now) lines s.

(** The same over the lines of several turns. *)
Definition run_timed (lines : list (Z * jsstring)) (s : StreamingService)
    : StreamingService :=
  fold_left
    (fun s tl =>
       processSSELine JSON_parse ToString processSources (fst tl) s (snd tl))
    lines s.

(** Payloads delivered to the dispatcher one after the other; a handler
    that throws leaves the writes it has made. *)
Definition deliver (events : list (Z * value)) (s : StreamingService)
    : StreamingService :=
  fold_left
    (fun s ev =>
       match handleSSEEvent ToString processSources (fst ev) s (snd ev) with
       | Returned s' => s'
       | Threw s' => s'
       end)
    events s.

End Runs.

End Reading.

(** ** Sample payloads and a sample platform, for the worked examples

    The examples run the services on concrete lines.  [JSON_parse] below
    is [JSON.parse] restricted to the payload texts of [payloads]: on each
    of them it returns the object the text denotes, and it is only ever
    applied, in the examples, to one of these texts or to a text that is
    not JSON at all. *)

Module Samples.
Import Js Sse.

(** A string literal of JSON: the text between double quotes (code unit
    34). *)
Definition quoted (s : string) : jsstring := [34] ++ lit s ++ [34].

(** The text of a flat object whose values are all strings. *)
Fixpoint members (fields : list (string * string)) : jsstring :=
  match fields with
  | [] => []
  | [(k, v)] => quoted k ++ lit ":" ++ quoted v
  | (k, v) :: rest =>
      quoted k ++ lit ":" ++ quoted v ++ lit "," ++ members rest
  end.

Definition text_of (fields : list (string * string)) : jsstring :=
  lit "{" ++ members fields ++ lit "}".

Definition object_of (fields : list (string * string)) : value :=
  VObject (map (fun kv => (lit (fst kv), VString (lit (snd kv)))) fields).

Definition token (content : string) : list (string * string) :=
  [("type", "token"); ("content", content)]%string.

Definition payloads : list (list (string * string)) :=
  [ [("type", "start"); ("conversation_id", "c1"); ("message_id", "m1")];
    token "Hel"; token "lo "; token "world"; token "Hi";
    [("type", "done")] ]%string.

Fixpoint parse_in (table : list (list (string * string))) (s : jsstring)
    : option value :=
  match table with
  | [] => None
  | fields :: rest =>
      if JsString.eqb s (text_of fields) then Some (object_of fields)
      else parse_in rest s
  end.

Definition JSON_parse : jsstring -> option value := parse_in payloads.

(** Stand-ins for the two other platform functions; no example reaches a
    value that is not a string, nor a [sources] batch. *)
Definition ToString (v : value) : jsstring :=
  match v with VString s => s | _ => lit "[object Object]" end.

Definition processSources (v : value) : option value := Some v.

Definition processSSELine :=
  Streaming.processSSELine JSON_parse ToString processSources.

Definition processStream :=
  Streaming.processStream JSON_parse ToString processSources.

Definition startStream :=
  Streaming.startStream JSON_parse ToString processSources.

(** A data line of the wire format, [data: <text>] followed by a blank
    line, and its bytes. *)
Definition data_line (text : jsstring) : jsstring :=
  lit "data: " ++ text ++ [10; 10].

Definition bytes_of (s : jsstring) : list byte :=
  map (fun c =>
         match Byte.of_N (Z.to_N c) with Some b => b | None => x00 end) s.

(** A manager whose breaker is at a given position. *)
Definition manager_at (c : Recovery.CircuitBreakerState) (failures last : Z)
    : Recovery.ErrorRecoveryManager :=
  Recovery.with_lastFailureTime last
    (Recovery.with_failureCount failures
       (Recovery.with_breaker c
          (Recovery.create Recovery.DEFAULT_RECOVERY_CONFIG))).

(** A [Math.pow] that is right to the last bit where [calculateDelay]
    calls it, at an exponent that is an integer: for a finite base the
    double nearest to the power, for a base that is zero or infinite the
    limit the standard fixes, and 1 for the exponent zero.  Other
    exponents are not part of the sample, and give [NaN]. *)
Definition Math_pow (base exponent : Number.number) : Number.number :=
  match exponent with
  | Number.NaN | Number.Infinity _ => Number.NaN
  | Number.Zero _ => Number.one
  | Number.Finite _ _ _ =>
      let n := Qfloor (Number.value exponent) in
      if negb (Qeq_bool (inject_Z n) (Number.value exponent)) then Number.NaN
      else
        match base with
        | Number.NaN => Number.NaN
        | Number.Zero s =>
            if 0 <? n then Number.Zero (s && Z.odd n)
            else Number.Infinity (s && Z.odd n)
        | Number.Infinity s =>
            if 0 <? n then Number.Infinity (s && Z.odd n)
            else Number.Zero (s && Z.odd n)
        | Number.Finite _ _ _ =>
            Number.of_Q (Qpower (Qred (Number.value base)) n)
        end
  end.

(** An environment in which every pass reads the clock at [t], draws
    [Math.random() = 1/2], sees no new metrics, and whose [recoveryFn]
    ends as [r]. *)
Definition env_at (t : Z) (r : Recovery.RecoveryResult)
    : Z -> Recovery.AttemptEnv :=
  fun _ =>
    {| Recovery.monitor := None; Recovery.now_exceeded := t;
       Recovery.now_check := t; Recovery.Math_pow := Math_pow;
       Recovery.random := Number.of_Q (1 # 2);
       Recovery.now_attempt := t; Recovery.recovery := r;
       Recovery.now_failure := t |}.

End Samples.

(** ** What a run shows: payloads, callbacks, notifications *)

Module Observations.
Import Js Sse Streaming Reading.

Section Platform.

Variable JSON_parse : jsstring -> option value.
Variable ToString : value -> jsstring.

(** The payload that a line hands to the dispatcher, if it hands one. *)
Definition line_payload (line : jsstring) : option value :=
  let trimmedLine := trim line in
  if isEmpty trimmedLine || startsWith trimmedLine (lit ":") then None
  else if startsWith trimmedLine (lit "data: ") then
    let data := slice 6 trimmedLine in
    if JsString.eqb data (lit "[DONE]") then None else JSON_parse data
  else None.

Definition payloads_of (lines : list jsstring) : list value :=
  flat_map (fun l => match line_payload l with
                     | Some v => [v]
                     | None => []
                     end) lines.

(** The payloads of a body: those of the lines of its text that a line
    feed completes. *)
Definition body_payloads (body : list byte) : list value :=
  payloads_of (complete_lines (body_text body)).

(** The text that a [content] value adds to a string by [+=]. *)
Definition content_text (content : value) : jsstring :=
  match content with VString t => t | _ => ToString content end.

(** What a payload adds to the accumulated message: the content of a
    token, nothing otherwise. *)
Definition token_text (v : value) : jsstring :=
  match v with
  | VNull | VUndefined => []
  | _ =>
      if strictEq (prop v "type") "token"
      then content_text (or (prop v "content") (VString []))
      else []
  end.

(** What a token event adds on the side of a callback that accumulates
    [event.content] itself. *)
Definition event_text (e : SSEEvent) : jsstring :=
  match e with
  | SSETokenEvent content _ _ _ => content_text content
  | _ => []
  end.

End Platform.

(** The events passed to the callbacks, in order. *)
Fixpoint callbacks (tr : list Action) : list SSEEvent :=
  match tr with
  | [] => []
  | Callback e :: rest => e :: callbacks rest
  | _ :: rest => callbacks rest
  end.

Definition is_sources (e : SSEEvent) : bool :=
  match e with SSESourcesEvent _ _ => true | _ => false end.

Definition is_citation (e : SSEEvent) : bool :=
  match e with SSECitationEvent _ _ _ _ _ _ _ => true | _ => false end.

Definition is_claim (e : SSEEvent) : bool :=
  match e with SSEClaimEvent _ _ _ _ _ _ _ => true | _ => false end.

Definition is_claims (e : SSEEvent) : bool :=
  match e with SSEClaimsEvent _ _ => true | _ => false end.

(** The states passed to [onConnectionStateChange], in order. *)
Fixpoint notified (tr : list Action) : list SSEConnectionState :=
  match tr with
  | [] => []
  | OnConnectionStateChange st :: rest => st :: notified rest
  | _ :: rest => notified rest
  end.

(** [chain a l b]: starting in state [a], each state of [l] differs from
    the one before it, and the last one is [b]. *)
Fixpoint chain (a : SSEConnectionState) (l : list SSEConnectionState)
    (b : SSEConnectionState) : Prop :=
  match l with
  | [] => a = b
  | x :: rest => a <> x /\ chain x rest b
  end.

(** Watchdog timers armed, less watchdog timers cleared. *)
Fixpoint watchdogs (tr : list Action) : Z :=
  match tr with
  | [] => 0
  | SetTimeout (HeartbeatTimer _) :: rest => 1 + watchdogs rest
  | ClearTimeout (HeartbeatTimer _) :: rest => watchdogs rest - 1
  | _ :: rest => watchdogs rest
  end.

Definition stored (t : option Timer) : Z :=
  match t with Some _ => 1 | None => 0 end.

(** The timers a service stores are of the kind of their field. *)
Definition timers_sorted (s : StreamingService) : Prop :=
  match retryTimeout s with
  | Some (ReconnectTimer _) | None => True
  | _ => False
  end
  /\ match heartbeatTimeout s with
     | Some (HeartbeatTimer _) | None => True
     | _ => False
     end.

(** The timers cleared. *)
Fixpoint cleared (tr : list Action) : list Timer :=
  match tr with
  | [] => []
  | ClearTimeout t :: rest => t :: cleared rest
  | _ :: rest => cleared rest
  end.

(** A payload that the dispatcher takes for a heartbeat. *)
Definition is_heartbeat (v : value) : bool :=
  strictEq (prop v "type") "heartbeat".

(** The [connected] flag says whether the state is [connected]. *)
Definition flag_agrees (s : StreamingService) : Prop :=
  connected (connectionStatus s)
  = SSEConnectionState_eqb (state (connectionStatus s)) CONNECTED.

Section Growth.

Variable ToString : value -> jsstring.

(** [grows s s' d]: [s'] is [s] after the calls [d]; each accumulator of
    [s'] is that of [s] followed by what the callbacks of its kind were
    passed in [d]. *)
Definition grows (s s' : StreamingService) (d : list Action) : Prop :=
  trace s' = trace s ++ d
  /\ currentMessage s'
     = currentMessage s
       ++ List.concat (map (event_text ToString) (callbacks d))
  /\ currentSources s' = currentSources s ++ filter is_sources (callbacks d)
  /\ currentCitations s'
     = currentCitations s ++ filter is_citation (callbacks d)
  /\ currentClaims s' = currentClaims s ++ filter is_claim (callbacks d)
  /\ currentClaimsGroup s'
     = currentClaimsGroup s ++ filter is_claims (callbacks d).

End Growth.

(** [tracks s s' d]: [s'] is [s] after the calls [d]; the state changes
    notified in [d] lead from the state of [s] to that of [s'], and the
    watchdogs armed and not cleared in [d] make up for the change of the
    stored watchdog. *)
Definition tracks (s s' : StreamingService) (d : list Action) : Prop :=
  trace s' = trace s ++ d
  /\ chain (state (connectionStatus s)) (notified d)
       (state (connectionStatus s'))
  /\ (timers_sorted s ->
      timers_sorted s'
      /\ watchdogs d
         = stored (heartbeatTimeout s') - stored (heartbeatTimeout s)).

End Observations.

(** ** utils/sourceUtils.ts *)

Module SourceUtils.

Record Source := {
  url : jsstring;
  title : jsstring;
  excerpt : jsstring;
  relevance_score : Q;
  rank : option Z
}.

(** *** A [Map] with string keys: its entries in insertion order *)

Fixpoint map_get {V} (m : list (jsstring * V)) (k : jsstring) : option V :=
  match m with
  | [] => None
  | (k', v) :: rest => if JsString.eqb k k' then Some v else map_get rest k
  end.

(** [m.set(k, v)]: the value of an existing key is replaced where it
    stands, a new key goes to the end. *)
Fixpoint map_set {V} (m : list (jsstring * V)) (k : jsstring) (v : V)
    : list (jsstring * V) :=
  match m with
  | [] => [(k, v)]
  | (k', v') :: rest =>
      if JsString.eqb k k' then (k', v) :: rest
      else (k', v') :: map_set rest k v
  end.

Definition map_values {V} (m : list (jsstring * V)) : list V := map snd m.

(** *** deduplicateSources *)

Definition Qgtb (a b : Q) : bool := negb (Qle_bool a b).

(** The callback of [sources.forEach]. *)
Definition visit (sourceMap : list (jsstring * Source)) (source : Source)
    (index : Z) : list (jsstring * Source) :=
  let existing := map_get sourceMap (url source) in
  (* Keep the source with higher relevance score, or first occurrence if
     scores are equal *)
  match existing with
  | None =>
      map_set sourceMap (url source)
        {| url := url source; title := title source;
           excerpt := excerpt source;
           relevance_score := relevance_score source;
           rank := Some (index + 1) |}
  | Some existing =>
      if Qgtb (relevance_score source) (relevance_score existing)
      then map_set sourceMap (url source)
             {| url := url source; title := title source;
                excerpt := excerpt source;
                relevance_score := relevance_score source;
                rank := rank existing |}   (* Preserve original rank *)
      else sourceMap
  end.

Fixpoint forEach (sourceMap : list (jsstring * Source))
    (sources : list Source) (index : Z) : list (jsstring * Source) :=
  match sources with
  | [] => sourceMap
  | source :: rest => forEach (visit sourceMap source index) rest (index + 1)
  end.

(** [.sort((a, b) => b.relevance_score - a.relevance_score)]: the sort of
    an array is stable, so sources of equal score keep their order. *)
Fixpoint insert (x : Source) (sorted : list Source) : list Source :=
  match sorted with
  | [] => [x]
  | y :: rest =>
      if Qgtb (relevance_score y) (relevance_score x)
      then y :: insert x rest
      else x :: y :: rest
  end.

Fixpoint sort (l : list Source) : list Source :=
  match l with
  | [] => []
  | x :: rest => insert x (sort rest)
  end.

Definition deduplicateSources (sources : list Source) : list Source :=
  match sources with
  | [] => []
  | _ =>
      let sourceMap := forEach [] sources 0 in
      (* Convert back to array and sort by relevance score (highest
         first); limit to top 6 unique sources *)
      firstn 6 (sort (map_values sourceMap))
  end.

(** *** cleanSourceTitle *)

Definition isUpper (c : Z) : bool := (65 <=? c) && (c <=? 90).
Definition isLower (c : Z) : bool := (97 <=? c) && (c <=? 122).

Fixpoint span (p : Z -> bool) (s : jsstring) : jsstring * jsstring :=
  match s with
  | c :: rest =>
      if p c then let (a, b) := span p rest in (c :: a, b) else ([], s)
  | [] => ([], [])
  end.

Definition endsWith (s suffix : jsstring) : bool :=
  startsWith (rev s) (rev suffix).

(** [s.replace(/ - Wikipedia$/, '')]. *)
Definition strip_wikipedia (s : jsstring) : jsstring :=
  if endsWith s (lit " - Wikipedia")
  then firstn (List.length s - 12) s
  else s.

(** [[A-Z][a-z]+$] read from the end of the string backwards: the letters
    matched, in reverse, and what stands before them, in reverse. *)
Definition capitalized_end (reversed : jsstring)
    : option (jsstring * jsstring) :=
  let (lower, before) := span isLower reversed in
  match lower, before with
  | _ :: _, c :: before' =>
      if isUpper c then Some (lower ++ [c], before') else None
  | _, _ => None
  end.

(** [s.replace(/ \| [A-Z][a-z]+$/, '')]. *)
Definition strip_pipe_brand (s : jsstring) : jsstring :=
  match capitalized_end (rev s) with
  | Some (_, 32 :: 124 :: 32 :: before) => rev before
  | _ => s
  end.

(** [s.replace(/ - [A-Z][a-z]+ [A-Z][a-z]+$/, '')]. *)
Definition strip_dash_two_words (s : jsstring) : jsstring :=
  match capitalized_end (rev s) with
  | Some (_, 32 :: before) =>
      match capitalized_end before with
      | Some (_, 32 :: 45 :: 32 :: before') => rev before'
      | _ => s
      end
  | _ => s
  end.

Definition cleanSourceTitle (title : jsstring) : jsstring :=
  (* Remove common patterns like " - Wikipedia", " | IBM", etc. *)
  trim (strip_dash_two_words (strip_pipe_brand (strip_wikipedia title))).

(** *** cleanExcerpt *)

(** [s.lastIndexOf('.')]: the index of the last full stop, or -1. *)
Fixpoint lastIndexOf_from (i : Z) (found : Z) (s : jsstring) : Z :=
  match s with
  | [] => found
  | c :: rest => lastIndexOf_from (i + 1) (if c =? 46 then i else found) rest
  end.

Definition lastIndexOf_dot (s : jsstring) : Z := lastIndexOf_from 0 (-1) s.

(** [s.substring(0, n)]. *)
Definition substring0 (n : Z) (s : jsstring) : jsstring :=
  firstn (Z.to_nat n) s.

Definition cleanExcerpt (excerpt : jsstring) : jsstring :=
  if isEmpty excerpt then []
  else
    (* If excerpt ends with "...", find last complete sentence *)
    if endsWith excerpt (lit "...") then
      let lastSentence := lastIndexOf_dot excerpt in
      if Z.of_nat (List.length excerpt) - 50 <? lastSentence
      then substring0 (lastSentence + 1) excerpt
      else excerpt
    else excerpt.

(** *** enhanceSources, processSources *)

Definition enhanceSources (sources : list Source) : list Source :=
  map (fun source =>
         {| url := url source;
            (* Clean title by removing common suffixes *)
            title := cleanSourceTitle (title source);
            (* Ensure excerpt doesn't end mid-word *)
            excerpt := cleanExcerpt (excerpt source);
            relevance_score := relevance_score source;
            rank := rank source |})
      sources.

Definition processSources (rawSources : list Source) : list Source :=
  let deduplicated := deduplicateSources rawSources in
  enhanceSources deduplicated.

(** Scores in decreasing order, equal scores allowed. *)
Fixpoint descending (l : list Source) : Prop :=
  match l with
  | x :: (y :: _) as rest =>
      (relevance_score y <= relevance_score x)%Q /\ descending rest
  | _ => True
  end.

End SourceUtils.

(** ** The network monitor and the status of the manager
    (services/error-recovery.ts) *)

Module NetworkMonitor.
Import Sse Recovery.

(** [a.slice(-n)]: the last [n] elements. *)
Definition slice_last {A} (n : nat) (l : list A) : list A :=
  skipn (List.length l - n) l.

(** [calculateNetworkStability]. *)
Definition calculateNetworkStability (m : ErrorRecoveryManager) : Q :=
  match recoveryAttempts m with
  | [] => 1
  | _ =>
      let recentAttempts := slice_last 10 (recoveryAttempts m) in
      let successRate :=
        (inject_Z (Z.of_nat (List.length (filter success recentAttempts)))
         / inject_Z (Z.of_nat (List.length recentAttempts)))%Q in
      successRate
  end.

(** What the health probe of [checkNetworkQuality] meets: a response, with
    the clock readings before and after the request and of the metrics'
    timestamp, or an exception, with the reading of the timestamp. *)
Inductive Probe :=
| Response (ok : bool) (start finish stamp : Z)
| Failure (stamp : Z).

Definition NetworkQuality_eqb (a b : NetworkQuality) : bool :=
  match a, b with
  | EXCELLENT, EXCELLENT | GOOD, GOOD | FAIR, FAIR | POOR, POOR
  | OFFLINE, OFFLINE => true
  | _, _ => false
  end.

(** The quality bands. *)
Definition band (ok : bool) (latency : Z) : NetworkQuality :=
  if negb ok then OFFLINE
  else if latency <? 100 then EXCELLENT
  else if latency <? 300 then GOOD
  else if latency <? 1000 then FAIR
  else POOR.

(** [checkNetworkQuality]: the manager with the metrics stored, and the
    quality passed to [onNetworkQualityChange], if the listener is
    called. *)
Definition checkNetworkQuality (p : Probe) (m : ErrorRecoveryManager)
    : ErrorRecoveryManager * option NetworkQuality :=
  match p with
  | Response ok start finish stamp =>
      let latency := finish - start in
      let quality := band ok latency in
      let previousQuality := currentQuality (networkMetrics m) in
      let m' :=
        with_networkMetrics
          (Some {| latency := Some latency; packetLoss := 0; bandwidth := 0;
                   stability := calculateNetworkStability m;
                   quality := quality; metrics_timestamp := stamp |}) m in
      (m',
       match previousQuality with
       | Some q => if NetworkQuality_eqb q quality then None else Some quality
       | None => Some quality
       end)
  | Failure stamp =>
      (with_networkMetrics
         (Some {| latency := None; packetLoss := 1; bandwidth := 0;
                  stability := 0; quality := OFFLINE;
                  metrics_timestamp := stamp |}) m,
       Some OFFLINE)
  end.

(** [getStatus]. *)
Definition getStatus (m : ErrorRecoveryManager)
    : CircuitBreakerState * Z * option NetworkMetrics * list RecoveryAttempt :=
  (circuitBreakerState m, failureCount m, networkMetrics m,
   slice_last 5 (recoveryAttempts m)).

(** Better or equal, from [excellent] down to [offline]. *)
Definition grade (q : NetworkQuality) : Z :=
  match q with
  | EXCELLENT => 4 | GOOD => 3 | FAIR => 2 | POOR => 1 | OFFLINE => 0
  end.

(** A closed breaker has counted fewer failures than the threshold. *)
Definition closed_below_threshold (m : ErrorRecoveryManager) : Prop :=
  circuitBreakerState m = CLOSED ->
  0 <= failureCount m < circuitBreakerThreshold (config m).

End NetworkMonitor.

(** ** What the deduplication keeps *)

Module SourceInv.
Import SourceUtils.

(** What the map of [deduplicateSources] holds under a key, in terms of
    the sources visited so far: a source with that URL, with the fields
    of one of the sources visited, and with the rank of the first place
    (counted from one) at which the URL was met. *)
Definition from (visited : list Source) (k : jsstring) (y : Source) : Prop :=
  url y = k
  /\ (exists x, In x visited /\ url x = k /\ title x = title y
                /\ excerpt x = excerpt y
                /\ relevance_score x = relevance_score y)
  /\ exists (i : nat) (first : Source),
       rank y = Some (Z.of_nat i + 1)
       /\ nth_error visited i = Some first /\ url first = k
       /\ forall j xj, (j < i)%nat -> nth_error visited j = Some xj ->
                       url xj <> k.

(** The map after the sources [visited]: one entry for each URL met,
    holding a source of the highest score met for it. *)
Definition collected (visited : list Source) (m : list (jsstring * Source))
    : Prop :=
  NoDup (map fst m)
  /\ (forall k y, In (k, y) m -> from visited k y)
  /\ (forall x, In x visited ->
        exists y, In (url x, y) m
                  /\ (relevance_score x <= relevance_score y)%Q).

(** What a replacement removes: nothing, or an ending that begins with
    a space. *)
Definition ending (s kept : jsstring) : Prop :=
  kept = s \/ exists tail, s = kept ++ 32 :: tail.

End SourceInv.

(** ** The states of the decoder, and line feeds *)

Module DecoderInv.
Import TextDecoder.

(** The states the decoder can be in between two bytes: at rest it is
    the initial state; inside a sequence the code point collected is
    zero only after a lead byte [E0] or [F0], whose next byte must be
    [90] or above, and then the sequence has more than one byte to
    come. *)
Definition sound (d : utf8) : Prop :=
  (bytes_needed d = 0 -> d = utf8_init)
  /\ (bytes_needed d <> 0 ->
      0 <= code_point d
      /\ 0 <= bytes_seen d < bytes_needed d
      /\ 0x80 <= lower_boundary d /\ upper_boundary d <= 0xBF
      /\ (code_point d = 0 ->
          bytes_seen d + 1 < bytes_needed d /\ 0x90 <= lower_boundary d)).

(** The line feeds of a text, and the bytes [0A] of a body. *)
Definition line_feeds (s : jsstring) : nat :=
  List.length (filter (fun c => c =? 10) s).

Definition code (b : byte) : Z := Z.of_N (Byte.to_N b).

Definition bytes_0A (value : list byte) : nat :=
  List.length (filter (fun b => code b =? 10) value).

End DecoderInv.

(** ** More samples, for the worked instances *)

Module MoreSamples.
Import Recovery SourceUtils.

(** Metrics that the monitor stores after a slow answer. *)
Definition slow_network : NetworkMetrics :=
  {| latency := Some 1500; packetLoss := 0; bandwidth := 0; stability := 1;
     quality := POOR; metrics_timestamp := 0 |}.

(** Two hits on one page, the better one second, and a hit on another
    page. *)
Definition hit (u t : string) (score : Q) : Source :=
  {| url := lit u; title := lit t; excerpt := lit "..."; 
     relevance_score := score; rank := None |}.

Definition hits : list Source :=
  [ hit "https://a.example" "A - Wikipedia" (1 # 2);
    hit "https://b.example" "B" (7 # 10);
    hit "https://a.example" "A again" (9 # 10) ].

(** A server that sends heartbeats: [JSON.parse] on the payloads of
    [Samples.payloads] and on the heartbeat payload, and the data line
    of a heartbeat. *)
Definition heartbeat : list (string * string) :=
  [("type", "heartbeat")]%string.

Definition JSON_parse : jsstring -> option Js.value :=
  Samples.parse_in (heartbeat :: Samples.payloads).

Definition heartbeat_data_line : jsstring :=
  Samples.data_line (Samples.text_of heartbeat).

Definition startStream :=
  Streaming.startStream JSON_parse Samples.ToString Samples.processSources.

(** A service that has streamed a body of one heartbeat to its end: it
    still stores the watchdog that the heartbeat armed. *)
Definition watched : Streaming.StreamingService :=
  startStream 0 (Streaming.create Streaming.DEFAULT_SSE_CONFIG)
    (Streaming.Body [(1, Samples.bytes_of heartbeat_data_line)]
       Streaming.EndOfInput).

(** The calls of [setTimeout] and [clearTimeout] in a trace. *)
Definition timer_calls (tr : list Streaming.Action) : list Streaming.Action :=
  filter (fun a =>
            match a with
            | Streaming.SetTimeout _ | Streaming.ClearTimeout _ => true
            | _ => false
            end) tr.

(** The manager after one call of [attemptRecovery] for a failed
    connection, in which [recoveryFn] fails on the attempts before
    [first] and succeeds from then on. *)
Definition recovered_at (first : Z) : ErrorRecoveryManager :=
  let env a :=
    Samples.env_at 0
      (if a <? first then Rejected (lit "refused") else Resolved) a in
  match attemptRecovery env (create DEFAULT_RECOVERY_CONFIG)
          Sse.CONNECTION_FAILED 1 with
  | Some (_, m) => m
  | None => create DEFAULT_RECOVERY_CONFIG
  end.

End MoreSamples.

(** * Properties *)

(** ** Lines of a text *)

Module LineFacts.
Import Reading.

Lemma eqb_eq (a b : jsstring) : JsString.eqb a b = true <-> a = b.
Proof.
  revert b; induction a as [|x a IH]; intros [|y b]; simpl.
  - split; reflexivity.
  - split; discriminate.
  - split; discriminate.
  - rewrite andb_true_iff, Z.eqb_eq, IH. split.
    + intros [-> ->]; reflexivity.
    + intros H; injection H; auto.
Qed.

Lemma eqb_refl (a : jsstring) : JsString.eqb a a = true.
Proof. apply eqb_eq; reflexivity. Qed.

Lemma eqb_neq (a b : jsstring) : a <> b -> JsString.eqb a b = false.
Proof.
  intros H. destruct (JsString.eqb a b) eqn:E; [|reflexivity].
  apply eqb_eq in E. contradiction.
Qed.

Lemma startsWith_app (p s : jsstring) : startsWith (p ++ s) p = true.
Proof.
  induction p as [|y p IH]; simpl.
  - destruct s; reflexivity.
  - now rewrite Z.eqb_refl.
Qed.

Lemma pop_snoc {A} (l : list A) (x : A) : pop (l ++ [x]) = (l, Some x).
Proof.
  unfold pop. rewrite rev_app_distr. simpl. now rewrite rev_involutive.
Qed.

Lemma split_lf_nonempty (s : jsstring) : split_lf s <> [].
Proof.
  destruct s as [|c s]; simpl; [discriminate|].
  destruct (c =? 10); [discriminate|].
  destruct (split_lf s); discriminate.
Qed.

(** [split] returns the completed lines followed by the open fragment. *)
Lemma split_lf_decomp (s : jsstring) :
  split_lf s = complete_lines s ++ [fragment s].
Proof.
  unfold complete_lines, fragment.
  destruct (exists_last (split_lf_nonempty s)) as (l & x & E).
  rewrite E, pop_snoc. reflexivity.
Qed.

Lemma pop_split_lf (s : jsstring) :
  pop (split_lf s) = (complete_lines s, Some (fragment s)).
Proof. rewrite split_lf_decomp at 1. apply pop_snoc. Qed.

Lemma lines_of_decomp (s : jsstring) (ls : list jsstring) (f : jsstring) :
  split_lf s = ls ++ [f] -> complete_lines s = ls /\ fragment s = f.
Proof.
  intros E. unfold complete_lines, fragment. rewrite E, pop_snoc. auto.
Qed.

Lemma lines_nil : complete_lines [] = [] /\ fragment [] = [].
Proof. apply lines_of_decomp. reflexivity. Qed.

Lemma lines_cons_lf (s : jsstring) :
  complete_lines (10 :: s) = [] :: complete_lines s
  /\ fragment (10 :: s) = fragment s.
Proof.
  apply lines_of_decomp. simpl. rewrite (split_lf_decomp s) at 1. reflexivity.
Qed.

Lemma lines_cons_other (c : Z) (s : jsstring) :
  c <> 10 ->
  complete_lines (c :: s)
  = match complete_lines s with
    | [] => []
    | l :: ls => (c :: l) :: ls
    end
  /\ fragment (c :: s)
     = match complete_lines s with
       | [] => c :: fragment s
       | _ :: _ => fragment s
       end.
Proof.
  intros Hc. apply lines_of_decomp. simpl.
  apply Z.eqb_neq in Hc. rewrite Hc.
  rewrite (split_lf_decomp s) at 1.
  destruct (complete_lines s) as [|l ls]; reflexivity.
Qed.

(** Splitting a text in two pieces: the lines of the first piece, then the
    lines of its open fragment continued by the second piece. *)
Lemma lines_app (a b : jsstring) :
  complete_lines (a ++ b)
  = complete_lines a ++ complete_lines (fragment a ++ b)
  /\ fragment (a ++ b) = fragment (fragment a ++ b).
Proof.
  induction a as [|c a [IHl IHf]].
  - destruct lines_nil as [-> ->]. simpl. auto.
  - rewrite <- app_comm_cons.
    destruct (Z.eq_dec c 10) as [->|Hc].
    + destruct (lines_cons_lf (a ++ b)) as [-> ->].
      destruct (lines_cons_lf a) as [-> ->].
      rewrite IHl, IHf. simpl. auto.
    + destruct (lines_cons_other c (a ++ b) Hc) as [-> ->].
      destruct (lines_cons_other c a Hc) as [-> ->].
      rewrite IHl, IHf.
      destruct (complete_lines a) as [|l ls]; simpl.
      * destruct (lines_cons_other c (fragment a ++ b) Hc) as [-> ->]. auto.
      * auto.
Qed.

(** An open fragment holds no completed line. *)
Lemma fragment_open (a : jsstring) :
  complete_lines (fragment a) = [] /\ fragment (fragment a) = fragment a.
Proof.
  destruct (lines_app a []) as [Hl Hf].
  rewrite !app_nil_r in *. split; [|congruence].
  destruct (complete_lines (fragment a)) as [|x l]; [reflexivity|].
  apply (f_equal (@List.length _)) in Hl. rewrite length_app in Hl.
  simpl in Hl. lia.
Qed.

End LineFacts.

(** ** The streaming decoder *)

Module DecoderFacts.
Import TextDecoder.

(** Decoding a chunk cut in two gives the text of the uncut chunk: the
    second call resumes from the state the first one left. *)
Lemma decode_app (td : t) (a b : list byte) :
  decode td (a ++ b)
  = (fst (decode (fst (decode td a)) b),
     snd (decode td a) ++ snd (decode (fst (decode td a)) b)).
Proof.
  revert td; induction a as [|x a IH]; intros td; simpl.
  - destruct (decode td b); reflexivity.
  - destruct (decode_byte td x) as [td1 s1]. rewrite IH.
    destruct (decode td1 a) as [td2 s2]. simpl.
    destruct (decode td2 b) as [td3 s3]. simpl.
    now rewrite app_assoc.
Qed.

(** A character of two bytes cut between its bytes: the first call emits
    nothing and keeps the lead byte, the second call emits the character
    (U+00E9). *)
Example decode_split_character :
  snd (decode create [xc3]%byte) = []
  /\ snd (decode (fst (decode create [xc3]%byte)) [xa9]%byte) = [233]
  /\ snd (decode create [xc3; xa9]%byte) = [233].
Proof. repeat split. Qed.

End DecoderFacts.

(** ** The stream processor *)

Module StreamingFacts.
Import Js Sse Streaming Reading LineFacts.

Lemma dispatched_app (tr1 tr2 : list Action) :
  dispatched (tr1 ++ tr2) = dispatched tr1 ++ dispatched tr2.
Proof.
  induction tr1 as [|a tr1 IH]; simpl; [reflexivity|].
  destruct a; simpl; now rewrite ?IH.
Qed.

Lemma dispatched_map (l : list value) : dispatched (map Dispatch l) = l.
Proof. induction l; simpl; congruence. Qed.

Ltac break_ifs :=
  repeat (simpl;
          match goal with
          | |- context [if ?c then _ else _] => destruct c eqn:?
          | |- context [match ?c with Some _ => _ | None => _ end] =>
              destruct c eqn:?
          | |- context [match ?c with DISCONNECTED => _ | _ => _ end] =>
              destruct c eqn:?
          end).

Ltac unfold_handlers :=
  unfold handleSSEEvent, handleStartEvent, handleTokenEvent,
    handleSourcesEvent, handleClaimsEvent, handleCitationEvent,
    handleClaimEvent, handleDoneEvent, handleErrorEvent,
    handleHeartbeatEvent, resetHeartbeatTimeout, handleConnectionError,
    attemptReconnection, updateConnectionState; simpl.

Ltac timeless_eq :=
  unfold timeless; simpl;
  rewrite ?dispatched_app, ?dispatched_map, ?map_app; simpl;
  rewrite ?app_nil_r; reflexivity.

Ltac frame_eq :=
  unfold after_trace; simpl; rewrite ?app_assoc; reflexivity.

Section Platform.

Variable JSON_parse : jsstring -> option value.
Variable ToString : value -> jsstring.
Variable processSources : value -> option value.

Let line := processSSELine JSON_parse ToString processSources.
Let loop := readLoop JSON_parse ToString processSources.
Let stream := processStream JSON_parse ToString processSources.

Let run_timed := run_timed JSON_parse ToString processSources.

(** *** No clock reading reaches the timeless part *)

Lemma timeless_line (now : Z) (s : StreamingService) (l : jsstring) :
  timeless (line now s l) = timeless (line 0 (timeless s) l).
Proof.
  destruct s as [cfg [st conn lt rc err] rt ht msg so ci cl cg tr].
  unfold line, processSSELine.
  destruct (isEmpty (trim l) || startsWith (trim l) (lit ":"));
    [timeless_eq|].
  destruct (startsWith (trim l) (lit "data: ")); [|timeless_eq].
  destruct (JsString.eqb _ _).
  - unfold_handlers; break_ifs; simpl; timeless_eq.
  - destruct (JSON_parse _) as [parsed|]; [|timeless_eq].
    destruct parsed; unfold_handlers; break_ifs; simpl; timeless_eq.
Qed.

Lemma timeless_run_timed (l1 l2 : list (Z * jsstring))
    (s1 s2 : StreamingService) :
  map snd l1 = map snd l2 -> timeless s1 = timeless s2 ->
  timeless (run_timed l1 s1) = timeless (run_timed l2 s2).
Proof.
  revert l2 s1 s2; induction l1 as [|[n1 x1] l1 IH];
    intros [|[n2 x2] l2] s1 s2 Hl Hs; simpl in *; try discriminate; auto.
  injection Hl as -> Hl. apply IH; [assumption|].
  rewrite (timeless_line n1 s1), (timeless_line n2 s2). now rewrite Hs.
Qed.

Lemma timeless_finish (s1 s2 : StreamingService) (d1 d2 : TextDecoder.t)
    (b1 b2 : jsstring) (e : StreamEnd) :
  timeless s1 = timeless s2 ->
  timeless (loop s1 d1 b1 [] e) = timeless (loop s2 d2 b2 [] e).
Proof.
  destruct s1
    as [cfg1 [st1 conn1 lt1 rc1 err1] rt1 ht1 msg1 so1 ci1 cl1 cg1 tr1].
  destruct s2
    as [cfg2 [st2 conn2 lt2 rc2 err2] rt2 ht2 msg2 so2 ci2 cl2 cg2 tr2].
  unfold timeless at 1 2; simpl. intros H.
  injection H as -> -> -> -> -> -> -> -> Htr.
  apply (f_equal dispatched) in Htr. rewrite !dispatched_map in Htr.
  destruct e as [|now msg]; simpl.
  - unfold_handlers; break_ifs; simpl; unfold timeless; simpl;
      rewrite ?dispatched_app, Htr; reflexivity.
  - unfold createSSEError; unfold_handlers; destruct st2; simpl;
      break_ifs; simpl;
      unfold timeless; simpl; rewrite ?dispatched_app, Htr; reflexivity.
Qed.

(** *** The read loop feeds the lines of the body *)

Lemma run_timed_cons (now : Z) (l : jsstring) (rest : list (Z * jsstring))
    (s : StreamingService) :
  run_timed ((now, l) :: rest) s = run_timed rest (line now s l).
Proof. reflexivity. Qed.

Lemma run_timed_app (a b : list (Z * jsstring)) (s : StreamingService) :
  run_timed (a ++ b) s = run_timed b (run_timed a s).
Proof. apply fold_left_app. Qed.

Lemma run_timed_turn (now : Z) (lines : list jsstring)
    (rest : list (Z * jsstring)) (s : StreamingService) :
  run_timed (map (pair now) lines ++ rest) s
  = run_timed rest (run_lines JSON_parse ToString processSources now lines s).
Proof.
  unfold run_timed, Reading.run_timed, run_lines.
  rewrite fold_left_app. f_equal.
  revert s; induction lines as [|x lines IHl]; intros s; simpl; auto.
Qed.

Lemma readLoop_fed (reads : list (Z * list byte)) (s : StreamingService)
    (d : TextDecoder.t) (b : jsstring) (e : StreamEnd) :
  loop s d b reads e
  = loop (run_timed (fed d b reads) s) TextDecoder.create [] [] e.
Proof.
  revert s d b; induction reads as [|[now value] reads IH]; intros s d b.
  - destruct e; reflexivity.
  - unfold loop in *. simpl.
    destruct (TextDecoder.decode d value) as [d' chunk].
    destruct (pop (split_lf (b ++ chunk))) as [lines last].
    rewrite IH, run_timed_turn. reflexivity.
Qed.

Lemma fed_lines (reads : list (Z * list byte)) (d : TextDecoder.t)
    (b : jsstring) :
  complete_lines b = [] -> fragment b = b ->
  map snd (fed d b reads)
  = complete_lines
      (b ++ snd (TextDecoder.decode d (List.concat (map snd reads)))).
Proof.
  revert d b; induction reads as [|[now value] reads IH]; intros d b Hl Hf.
  - simpl. now rewrite app_nil_r.
  - simpl. rewrite DecoderFacts.decode_app.
    destruct (TextDecoder.decode d value) as [d' chunk]. simpl.
    rewrite pop_split_lf, map_app, map_map. simpl. rewrite map_id.
    destruct (fragment_open (b ++ chunk)) as [Hl' Hf'].
    rewrite (IH d' _ Hl' Hf'), app_assoc.
    symmetry. apply lines_app.
Qed.

(** The lines fed to the parser are those of the whole body, however the
    body is cut. *)
Lemma fed_whole (reads : list (Z * list byte)) :
  map snd (fed TextDecoder.create [] reads)
  = complete_lines (body_text (List.concat (map snd reads))).
Proof.
  destruct lines_nil as [Hl Hf]. rewrite (fed_lines _ _ _ Hl Hf). reflexivity.
Qed.

Lemma timeless_stream (s : StreamingService)
    (reads1 reads2 : list (Z * list byte)) (e : StreamEnd) :
  List.concat (map snd reads1) = List.concat (map snd reads2) ->
  timeless (stream s reads1 e) = timeless (stream s reads2 e).
Proof.
  intros H. unfold stream, processStream.
  assert (L : forall x y, timeless x = timeless y ->
              timeless (log ReleaseLock x) = timeless (log ReleaseLock y)).
  { intros x y E. unfold timeless in *. simpl.
    rewrite !dispatched_app, !app_nil_r. exact E. }
  apply L. fold loop. rewrite (readLoop_fed reads1), (readLoop_fed reads2).
  apply timeless_finish, timeless_run_timed; [|reflexivity].
  now rewrite !fed_whole, H.
Qed.

(** C1. However the bytes of a body are cut into chunks, also inside a
    line or inside a multi-byte character, and whenever the chunks
    arrive, the run hands the dispatcher the same payloads in the same
    order as the run on the body in one chunk; the accumulated message
    and the connection state come out the same as well.  This holds for
    every byte sequence, valid SSE or not. *)
Theorem C1_chunk_split_invariance (s : StreamingService)
    (reads : list (Z * list byte)) (e : StreamEnd) (t : Z) :
  let chunked := stream s reads e in
  let unsplit := stream s [(t, List.concat (map snd reads))] e in
  dispatched (trace chunked) = dispatched (trace unsplit)
  /\ currentMessage chunked = currentMessage unsplit
  /\ state (connectionStatus chunked) = state (connectionStatus unsplit).
Proof.
  intros chunked unsplit.
  assert (H : timeless chunked = timeless unsplit).
  { apply timeless_stream. simpl. now rewrite app_nil_r. }
  repeat split.
  - apply (f_equal (fun x => dispatched (trace x))) in H. simpl in H.
    now rewrite !dispatched_map in H.
  - apply (f_equal currentMessage) in H. exact H.
  - apply (f_equal (fun x => state (connectionStatus x))) in H. exact H.
Qed.

(** *** The trace is only ever extended *)

Lemma frame_line (p : list Action) (now : Z) (s : StreamingService)
    (l : jsstring) :
  line now (after_trace p s) l = after_trace p (line now s l).
Proof.
  destruct s as [cfg [st conn lt rc err] rt ht msg so ci cl cg tr].
  unfold line, processSSELine.
  destruct (isEmpty (trim l) || startsWith (trim l) (lit ":"));
    [frame_eq|].
  destruct (startsWith (trim l) (lit "data: ")); [|frame_eq].
  destruct (JsString.eqb _ _).
  - unfold_handlers; break_ifs; simpl; frame_eq.
  - destruct (JSON_parse _) as [parsed|]; [|frame_eq].
    destruct parsed; unfold_handlers; break_ifs; simpl; frame_eq.
Qed.

Lemma frame_run_timed (p : list Action) (lines : list (Z * jsstring))
    (s : StreamingService) :
  run_timed lines (after_trace p s) = after_trace p (run_timed lines s).
Proof.
  revert s; induction lines as [|[now l] lines IH]; intros s.
  - reflexivity.
  - rewrite !run_timed_cons, frame_line. apply IH.
Qed.

Lemma after_with_trace (s : StreamingService) :
  after_trace (trace s) (with_trace [] s) = s.
Proof.
  destruct s. unfold after_trace, with_trace. simpl. now rewrite app_nil_r.
Qed.

(** *** What a line leaves alone *)

Lemma line_keeps_recovery (now : Z) (s : StreamingService) (l : jsstring) :
  error (connectionStatus (line now s l)) = error (connectionStatus s)
  /\ retryCount (connectionStatus (line now s l))
     = retryCount (connectionStatus s)
  /\ retryTimeout (line now s l) = retryTimeout s.
Proof.
  destruct s as [cfg [st conn lt rc err] rt ht msg so ci cl cg tr].
  unfold line, processSSELine.
  destruct (isEmpty (trim l) || startsWith (trim l) (lit ":")); [auto|].
  destruct (startsWith (trim l) (lit "data: ")); [|auto].
  destruct (JsString.eqb _ _).
  - unfold_handlers; break_ifs; simpl; auto.
  - destruct (JSON_parse _) as [parsed|]; [|simpl; auto].
    destruct parsed; unfold_handlers; break_ifs; simpl; auto.
Qed.

Lemma run_timed_keeps_recovery (lines : list (Z * jsstring))
    (s : StreamingService) :
  error (connectionStatus (run_timed lines s)) = error (connectionStatus s)
  /\ retryCount (connectionStatus (run_timed lines s))
     = retryCount (connectionStatus s)
  /\ retryTimeout (run_timed lines s) = retryTimeout s.
Proof.
  revert s; induction lines as [|[now l] lines IH]; intros s.
  - simpl; auto.
  - rewrite run_timed_cons.
    destruct (IH (line now s l)) as (-> & -> & ->).
    apply line_keeps_recovery.
Qed.

Lemma state_after_update (st : SSEConnectionState) (s : StreamingService) :
  state (connectionStatus (updateConnectionState st s)) = st.
Proof.
  destruct s as [cfg [st0 conn lt rc err] rt ht msg so ci cl cg tr].
  unfold updateConnectionState. simpl.
  destruct st0, st; reflexivity.
Qed.

(** *** The prefix of a data line *)

Lemma data_prefix (data : jsstring) :
  isEmpty (lit "data: " ++ data)
  || startsWith (lit "data: " ++ data) (lit ":") = false
  /\ startsWith (lit "data: " ++ data) (lit "data: ") = true
  /\ slice 6 (lit "data: " ++ data) = data.
Proof. repeat split. apply startsWith_app. Qed.

(** *** The dispatcher on a token *)

Lemma strictEq_true (v : value) (k : string) :
  strictEq v k = true -> v = VString (lit k).
Proof.
  destruct v; simpl; try discriminate.
  intros H. apply eqb_eq in H. now subst.
Qed.

Lemma handle_token (now : Z) (s : StreamingService) (v : value) :
  strictEq (prop v "type") "token" = true ->
  handleSSEEvent ToString processSources now s v
  = Returned (handleTokenEvent ToString now
                (with_status (set_lastEventTime now) s) v).
Proof.
  intros H. unfold handleSSEEvent.
  destruct v; simpl in H; try discriminate.
  apply strictEq_true in H. simpl in H. simpl. rewrite H. reflexivity.
Qed.

Lemma token_message (now : Z) (s : StreamingService) (v : value)
    (c : jsstring) :
  prop v "content" = VString c ->
  currentMessage (handleTokenEvent ToString now s v) = currentMessage s ++ c.
Proof.
  intros H. unfold handleTokenEvent. simpl. rewrite H.
  unfold append, or. destruct c; simpl; [now rewrite app_nil_r | reflexivity].
Qed.

(** C2. Token events delivered to the dispatcher in order leave, as
    accumulated message, the message held before followed by their
    [content] strings in arrival order; delivered to a fresh service,
    the tokens Hel, lo , world leave exactly Hello world. *)
Theorem C2_token_accumulation :
  (forall (events : list (Z * value)) (contents : list jsstring)
          (s : StreamingService),
      Forall2 (fun ev c =>
                 strictEq (prop (snd ev) "type") "token" = true
                 /\ prop (snd ev) "content" = VString c)
              events contents ->
      getCurrentMessage (deliver ToString processSources events s)
      = getCurrentMessage s ++ List.concat contents)
  /\ (forall (cfg : SSEConfig) (t1 t2 t3 : Z),
        getCurrentMessage
          (deliver ToString processSources
             [(t1, Samples.object_of (Samples.token "Hel"));
              (t2, Samples.object_of (Samples.token "lo "));
              (t3, Samples.object_of (Samples.token "world"))]
             (create cfg))
        = lit "Hello world").
Proof.
  assert (G : forall (events : list (Z * value)) (contents : list jsstring)
                (s : StreamingService),
      Forall2 (fun ev c =>
                 strictEq (prop (snd ev) "type") "token" = true
                 /\ prop (snd ev) "content" = VString c)
              events contents ->
      getCurrentMessage (deliver ToString processSources events s)
      = getCurrentMessage s ++ List.concat contents).
  { intros events contents s H. revert s.
    induction H as [|[now v] c events contents [Hty Hc] _ IH]; intros s.
    - simpl. now rewrite app_nil_r.
    - unfold deliver in *. simpl in *.
      rewrite (handle_token now s v Hty), IH.
      unfold getCurrentMessage. rewrite (token_message _ _ _ _ Hc).
      simpl. now rewrite app_assoc. }
  split; [exact G|].
  intros cfg t1 t2 t3.
  rewrite (G _ [lit "Hel"; lit "lo "; lit "world"]); [reflexivity|].
  repeat constructor.
Qed.

(** C7, as amended. When the body ends, the state becomes
    [disconnected] whether or not a [done] payload or a [[DONE]] line was
    seen.  The end of input itself sets no error and enters no recovery:
    in whatever state the service is when the read reports the end (with
    whatever the lines, and the callbacks of timers that ran between the
    reads, have left there), the step sets the state and nothing else.
    It keeps the error, the retry count and the timers it finds, and
    calls the state listener, once if the state changes, and no other
    callback. *)
Theorem C7_end_of_input_disconnects (s : StreamingService)
    (reads : list (Z * list byte)) :
  state (connectionStatus (stream s reads EndOfInput)) = DISCONNECTED
  /\ forall (r : StreamingService) (decoder : TextDecoder.t)
            (buffer : jsstring),
       let ended := loop r decoder buffer [] EndOfInput in
       state (connectionStatus ended) = DISCONNECTED
       /\ error (connectionStatus ended) = error (connectionStatus r)
       /\ retryCount (connectionStatus ended)
          = retryCount (connectionStatus r)
       /\ retryTimeout ended = retryTimeout r
       /\ heartbeatTimeout ended = heartbeatTimeout r
       /\ trace ended
          = trace r
            ++ match state (connectionStatus r) with
               | DISCONNECTED => []
               | _ => [OnConnectionStateChange DISCONNECTED]
               end.
Proof.
  split.
  - unfold stream, processStream. fold loop. rewrite readLoop_fed.
    unfold loop. simpl. apply state_after_update.
  - intros r decoder buffer ended. unfold ended, loop. simpl.
    destruct r as [cfg [st conn lt rc err] rt ht msg so ci cl cg tr].
    unfold updateConnectionState. simpl.
    destruct st; simpl; rewrite ?app_nil_r; repeat split.
Qed.


(** C9. A data line whose payload is not JSON does not stop the run: the
    line calls the error callback once, with the PARSE_ERROR event, and
    changes nothing else; the lines after it are processed as they would
    have been without it, so that the run with the line and the run
    without it end in the same state and differ in the trace by that one
    call, at the place of the line. *)
Theorem C9_malformed_json_is_skipped (now : Z) (s : StreamingService)
    (l data : jsstring) :
  trim l = lit "data: " ++ data ->
  data <> lit "[DONE]" ->
  JSON_parse data = None ->
  line now s l = log (Callback parseErrorEvent) s
  /\ forall before rest : list (Z * jsstring),
       let reached := run_timed before s in
       let clean := run_timed (before ++ rest) s in
       let faulty := run_timed (before ++ (now, l) :: rest) s in
       exists tail : list Action,
         trace clean = trace reached ++ tail
         /\ faulty
            = with_trace
                (trace reached ++ Callback parseErrorEvent :: tail) clean.
Proof.
  intros Ht Hd Hp.
  assert (E : forall s0, line now s0 l = log (Callback parseErrorEvent) s0).
  { intros s0. unfold line, processSSELine. rewrite Ht.
    destruct (data_prefix data) as (-> & -> & ->).
    rewrite (eqb_neq _ _ Hd), Hp. reflexivity. }
  split; [apply E|].
  intros before rest reached clean faulty.
  exists (trace (run_timed rest (with_trace [] reached))).
  assert (C : clean
              = after_trace (trace reached)
                  (run_timed rest (with_trace [] reached))).
  { unfold clean. rewrite run_timed_app. fold reached.
    rewrite <- (after_with_trace reached) at 1. apply frame_run_timed. }
  split.
  - rewrite C. reflexivity.
  - unfold faulty. rewrite run_timed_app, run_timed_cons. fold reached.
    rewrite E.
    replace (log (Callback parseErrorEvent) reached)
      with (after_trace (trace reached ++ [Callback parseErrorEvent])
              (with_trace [] reached))
      by (destruct reached; unfold after_trace, with_trace, log; simpl;
          now rewrite app_nil_r).
    rewrite frame_run_timed, C.
    unfold after_trace, with_trace. simpl.
    now rewrite <- app_assoc.
Qed.

End Platform.


(** *** Worked instances, on the sample platform *)

Lemma C2_witness :
  getCurrentMessage
    (deliver Samples.ToString Samples.processSources
       [(1, Samples.object_of (Samples.token "Hi"));
        (2, Samples.object_of (Samples.token "Hel"))]
       (create DEFAULT_SSE_CONFIG))
  = lit "HiHel".
Proof.
  apply (proj1 (C2_token_accumulation Samples.ToString
                  Samples.processSources)
           [(1, Samples.object_of (Samples.token "Hi"));
            (2, Samples.object_of (Samples.token "Hel"))]
           [lit "Hi"; lit "Hel"] (create DEFAULT_SSE_CONFIG)).
  repeat constructor.
Defined.

(** The scenario of the specification, over the wire: [start], the
    tokens Hel, lo , world and [done], the body cut in the middle of a
    line.  The message is Hello world, the done callback is called once
    and the connection ends [disconnected]. *)
Example hello_world_stream :
  let body :=
    Samples.data_line
      (Samples.text_of
         [("type", "start"); ("conversation_id", "c1");
          ("message_id", "m1")]%string)
    ++ Samples.data_line (Samples.text_of (Samples.token "Hel"))
    ++ Samples.data_line (Samples.text_of (Samples.token "lo "))
    ++ Samples.data_line (Samples.text_of (Samples.token "world"))
    ++ Samples.data_line (Samples.text_of [("type", "done")]%string) in
  let s :=
    Samples.startStream 0 (create DEFAULT_SSE_CONFIG)
      (Body [(1, Samples.bytes_of (firstn 100 body));
             (2, Samples.bytes_of (skipn 100 body))] EndOfInput) in
  getCurrentMessage s = lit "Hello world"
  /\ state (connectionStatus s) = DISCONNECTED
  /\ filter (fun a => match a with
                      | Callback (SSEDoneEvent _ _ _ _ _) => true
                      | _ => false
                      end) (trace s)
     = [Callback (SSEDoneEvent VUndefined VUndefined VUndefined VUndefined 2)].
Proof. vm_compute. repeat split. Qed.

(** A body that delivers one token and ends, without a [done] payload
    and without a [[DONE]] line: the run ends [disconnected], with no
    error set, no error callback and no reconnection armed. *)
Lemma C7_counterexample :
  let s :=
    Samples.processStream (create DEFAULT_SSE_CONFIG)
      [(7, Samples.bytes_of
             (Samples.data_line (Samples.text_of (Samples.token "Hi"))))]
      EndOfInput in
  trace s
  = [OnConnectionStateChange CONNECTED;
     Dispatch (Samples.object_of (Samples.token "Hi"));
     Callback (SSETokenEvent (VString (lit "Hi")) VUndefined VUndefined 7);
     OnConnectionStateChange DISCONNECTED;
     ReleaseLock]
  /\ state (connectionStatus s) = DISCONNECTED
  /\ error (connectionStatus s) = None
  /\ retryCount (connectionStatus s) = 0
  /\ retryTimeout s = None
  /\ ~ (exists e, error (connectionStatus s) = Some e
                  /\ type e = CONNECTION_LOST).
Proof.
  vm_compute. repeat split. intros (e & H & _). discriminate H.
Qed.



Lemma C9_witness :
  let s := updateConnectionState CONNECTED (create DEFAULT_SSE_CONFIG) in
  let l := lit "data: {oops" in
  Samples.processSSELine 5 s l = log (Callback parseErrorEvent) s
  /\ forall before rest : list (Z * jsstring),
       let run := run_timed Samples.JSON_parse Samples.ToString
                    Samples.processSources in
       exists tail : list Action,
         trace (run (before ++ rest) s) = trace (run before s) ++ tail
         /\ run (before ++ (5, l) :: rest) s
            = with_trace
                (trace (run before s) ++ Callback parseErrorEvent :: tail)
                (run (before ++ rest) s).
Proof.
  intros s l.
  apply (C9_malformed_json_is_skipped Samples.JSON_parse Samples.ToString
           Samples.processSources 5 s l (lit "{oops")).
  - reflexivity.
  - discriminate.
  - reflexivity.
Defined.

(** A malformed line between two token lines: one PARSE_ERROR callback,
    and the message of both tokens. *)
Example malformed_line_between_tokens :
  let s :=
    Samples.processStream (create DEFAULT_SSE_CONFIG)
      [(7, Samples.bytes_of
             (Samples.data_line (Samples.text_of (Samples.token "Hel"))
              ++ Samples.data_line (lit "{oops")
              ++ Samples.data_line (Samples.text_of (Samples.token "lo "))))]
      EndOfInput in
  currentMessage s = lit "Hello "
  /\ trace s
     = [OnConnectionStateChange CONNECTED;
        Dispatch (Samples.object_of (Samples.token "Hel"));
        Callback (SSETokenEvent (VString (lit "Hel")) VUndefined VUndefined 7);
        Callback parseErrorEvent;
        Dispatch (Samples.object_of (Samples.token "lo "));
        Callback (SSETokenEvent (VString (lit "lo ")) VUndefined VUndefined 7);
        OnConnectionStateChange DISCONNECTED;
        ReleaseLock].
Proof. vm_compute. split; reflexivity. Qed.

End StreamingFacts.

(** ** Error recovery *)

(** ** The arithmetic of doubles *)

Module NumberFacts.
Import Number.

(** *** Powers of two *)

Lemma two_nonzero : ~ (2 == 0)%Q.
Proof. discriminate. Qed.

Lemma pow2_pos (e : Z) : (0 < pow2 e)%Q.
Proof. apply Qpower_0_lt. reflexivity. Qed.

Lemma pow2_plus (a b : Z) : (pow2 (a + b) == pow2 a * pow2 b)%Q.
Proof. apply Qpower_plus, two_nonzero. Qed.

Lemma pow2_le (a b : Z) : a <= b -> (pow2 a <= pow2 b)%Q.
Proof. intros H. apply Qpower_le_compat_l; [exact H|discriminate]. Qed.

Lemma pow2_lt (a b : Z) : a < b -> (pow2 a < pow2 b)%Q.
Proof. intros H. apply Qpower_lt_compat_l; [exact H|reflexivity]. Qed.

Lemma pow2_lt_inv (a b : Z) : (pow2 a < pow2 b)%Q -> a < b.
Proof.
  intros H. destruct (Z_lt_le_dec a b) as [L|L]; [exact L|].
  apply pow2_le in L. exfalso. apply (Qlt_irrefl (pow2 a)).
  eapply Qlt_le_trans; eassumption.
Qed.

Lemma pow2_Z (n : Z) : 0 <= n -> (inject_Z (2 ^ n) == pow2 n)%Q.
Proof. intros H. unfold pow2. now rewrite Zpower_Qpower. Qed.

Lemma pow2_succ (e : Z) : (pow2 (e + 1) == 2 * pow2 e)%Q.
Proof. rewrite pow2_plus. unfold pow2 at 2. simpl. ring. Qed.

(** *** The binary logarithm *)

Lemma Z_bounds (n : Z) :
  0 < n ->
  (pow2 (Z.log2 n) <= inject_Z n)%Q /\ (inject_Z n < pow2 (Z.log2 n + 1))%Q.
Proof.
  intros H. destruct (Z.log2_spec n H) as [L U].
  pose proof (Z.log2_nonneg n) as P.
  rewrite <- !pow2_Z by lia. rewrite <- Zle_Qle, <- Zlt_Qlt.
  split; [exact L|]. now rewrite <- Z.add_1_r in U.
Qed.

Lemma Qlog2_spec (a : Q) :
  (0 < a)%Q -> (pow2 (Qlog2 a) <= a)%Q /\ (a < pow2 (Qlog2 a + 1))%Q.
Proof.
  intros Ha. destruct a as [p q].
  assert (Hp : 0 < p) by (unfold Qlt in Ha; simpl in Ha; lia).
  destruct (Z_bounds p Hp) as [Lp Up].
  destruct (Z_bounds (Zpos q) eq_refl) as [Lq Uq].
  unfold Qlog2. cbn [Qnum Qden].
  set (lp := Z.log2 p) in *. set (lq := Z.log2 (Zpos q)) in *.
  assert (E : (p # q == inject_Z p / inject_Z (Zpos q))%Q)
    by apply Qmake_Qdiv.
  assert (Q0 : (0 < inject_Z (Zpos q))%Q) by reflexivity.
  assert (Upper : (p # q < pow2 (lp - lq + 1))%Q).
  { rewrite E. apply Qlt_shift_div_r; [exact Q0|].
    replace (lp - lq + 1) with ((lp + 1) + - lq) by lia.
    rewrite pow2_plus.
    eapply Qlt_le_trans; [exact Up|].
    rewrite <- (Qmult_1_r (pow2 (lp + 1))) at 1.
    rewrite <- Qmult_assoc.
    apply Qmult_le_l; [apply pow2_pos|].
    apply Qle_trans with (pow2 (- lq) * pow2 lq)%Q.
    - rewrite <- pow2_plus. replace (- lq + lq) with 0 by lia. apply Qle_refl.
    - apply Qmult_le_l; [apply pow2_pos|exact Lq]. }
  assert (Lower : (pow2 (lp - lq - 1) <= p # q)%Q).
  { rewrite E. apply Qle_shift_div_l; [exact Q0|].
    replace (lp - lq - 1) with (lp + - (lq + 1)) by lia.
    rewrite pow2_plus.
    eapply Qle_trans; [|exact Lp].
    rewrite <- (Qmult_1_r (pow2 lp)) at 2.
    rewrite <- Qmult_assoc.
    apply Qmult_le_l; [apply pow2_pos|].
    apply Qle_trans with (pow2 (- (lq + 1)) * pow2 (lq + 1))%Q.
    - apply Qmult_le_l; [apply pow2_pos|]. apply Qlt_le_weak, Uq.
    - rewrite <- pow2_plus. replace (- (lq + 1) + (lq + 1)) with 0 by lia.
      apply Qle_refl. }
  destruct (Qle_bool (pow2 (lp - lq)) (p # q)) eqn:B.
  - apply Qle_bool_iff in B. split; assumption.
  - split; [exact Lower|].
    replace (lp - lq - 1 + 1) with (lp - lq) by lia.
    apply Qnot_le_lt. intros L. apply Qle_bool_iff in L. congruence.
Qed.

Lemma Qlog2_mono (a b : Q) :
  (0 < a)%Q -> (a <= b)%Q -> Qlog2 a <= Qlog2 b.
Proof.
  intros Ha Hab.
  assert (Hb : (0 < b)%Q) by (eapply Qlt_le_trans; eassumption).
  destruct (Qlog2_spec a Ha) as [La _].
  destruct (Qlog2_spec b Hb) as [_ Ub].
  assert (H : Qlog2 a < Qlog2 b + 1).
  { apply pow2_lt_inv. eapply Qle_lt_trans; [exact La|].
    eapply Qle_lt_trans; eassumption. }
  lia.
Qed.

Lemma Qlog2_below (a : Q) (k : Z) :
  (0 < a)%Q -> (a < pow2 k)%Q -> Qlog2 a < k.
Proof.
  intros Ha H. destruct (Qlog2_spec a Ha) as [La _].
  apply pow2_lt_inv. eapply Qle_lt_trans; eassumption.
Qed.

(** *** Rounding to the nearest integer *)

Ltac qcmp H :=
  first [apply <- Qeq_alt in H | apply <- Qlt_alt in H | apply <- Qgt_alt in H].


Lemma nearest_even_floor (n : Q) :
  Qfloor n <= nearest_even n <= Qfloor n + 1.
Proof.
  unfold nearest_even.
  destruct (Qcompare _ _); [destruct (Z.even _)| |]; lia.
Qed.

Lemma nearest_even_Z (z : Z) : nearest_even (inject_Z z) = z.
Proof.
  unfold nearest_even. rewrite Qfloor_Z.
  assert (H : Qcompare (inject_Z z - inject_Z z) (1 # 2) = Lt).
  { apply Qlt_alt.
    setoid_replace (inject_Z z - inject_Z z)%Q with 0%Q by ring. reflexivity. }
  now rewrite H.
Qed.

Lemma fraction_compare (n n' : Q) :
  Qfloor n = Qfloor n' -> (n <= n')%Q ->
  (n - inject_Z (Qfloor n) <= n' - inject_Z (Qfloor n'))%Q.
Proof. intros E H. rewrite E. lra. Qed.

Lemma nearest_even_mono (n n' : Q) :
  (n <= n')%Q -> nearest_even n <= nearest_even n'.
Proof.
  intros H. pose proof (Qfloor_resp_le _ _ H) as F.
  destruct (Z.eq_dec (Qfloor n) (Qfloor n')) as [E|E].
  - pose proof (fraction_compare n n' E H) as R.
    unfold nearest_even.
    set (r := (n - inject_Z (Qfloor n))%Q) in *.
    set (r' := (n' - inject_Z (Qfloor n'))%Q) in *.
    rewrite <- E.
    destruct (Qcompare r (1 # 2)) eqn:C; destruct (Qcompare r' (1 # 2)) eqn:C';
      try lia; try (destruct (Z.even (Qfloor n)); lia); exfalso;
      qcmp C; qcmp C'; lra.
  - pose proof (nearest_even_floor n). pose proof (nearest_even_floor n'). lia.
Qed.

Lemma nearest_even_le (n : Q) (z : Z) :
  (n <= inject_Z z)%Q -> nearest_even n <= z.
Proof.
  intros H. rewrite <- (nearest_even_Z z). now apply nearest_even_mono.
Qed.

Lemma nearest_even_ge (n : Q) (z : Z) :
  (inject_Z z <= n)%Q -> z <= nearest_even n.
Proof.
  intros H. rewrite <- (nearest_even_Z z). now apply nearest_even_mono.
Qed.

(** *** The mantissa of the nearest double *)

Lemma exponent_spec (a : Q) :
  (0 < a)%Q ->
  -1074 <= exponent a
  /\ (a / pow2 (exponent a) < pow2 53)%Q
  /\ (-1074 < exponent a -> (pow2 52 <= a / pow2 (exponent a))%Q).
Proof.
  intros Ha. destruct (Qlog2_spec a Ha) as [L U]. unfold exponent.
  split; [lia|]. split.
  - apply Qlt_shift_div_r; [apply pow2_pos|]. rewrite <- pow2_plus.
    eapply Qlt_le_trans; [exact U|]. apply pow2_le. lia.
  - intros H. apply Qle_shift_div_l; [apply pow2_pos|]. rewrite <- pow2_plus.
    eapply Qle_trans; [|exact L]. apply pow2_le. lia.
Qed.

Lemma mantissa_spec (a : Q) :
  (0 < a)%Q ->
  0 <= mantissa a <= 2 ^ 53
  /\ (-1074 < exponent a -> 2 ^ 52 <= mantissa a).
Proof.
  intros Ha. destruct (exponent_spec a Ha) as (_ & U & L). unfold mantissa.
  split; [split|].
  - apply nearest_even_ge. apply Qle_shift_div_l; [apply pow2_pos|].
    rewrite Qmult_0_l. now apply Qlt_le_weak.
  - apply nearest_even_le. rewrite pow2_Z by lia. now apply Qlt_le_weak.
  - intros H. apply nearest_even_ge. rewrite pow2_Z by lia. auto.
Qed.

Lemma rounded_mono (a b : Q) :
  (0 < a)%Q -> (a <= b)%Q -> (rounded a <= rounded b)%Q.
Proof.
  intros Ha Hab.
  assert (Hb : (0 < b)%Q) by (eapply Qlt_le_trans; eassumption).
  assert (He : exponent a <= exponent b).
  { unfold exponent. pose proof (Qlog2_mono a b Ha Hab). lia. }
  unfold rounded.
  destruct (Z.eq_dec (exponent a) (exponent b)) as [E|E].
  - rewrite <- E. apply Qmult_le_compat_r; [|apply Qlt_le_weak, pow2_pos].
    rewrite <- Zle_Qle. unfold mantissa. rewrite <- E.
    apply nearest_even_mono.
    apply Qmult_le_compat_r; [exact Hab|].
    apply Qlt_le_weak, Qinv_lt_0_compat, pow2_pos.
  - destruct (mantissa_spec a Ha) as [[_ Ua] _].
    destruct (mantissa_spec b Hb) as [_ Lb].
    destruct (exponent_spec a Ha) as (Ea & _).
    specialize (Lb ltac:(lia)).
    apply Qle_trans with (pow2 53 * pow2 (exponent a))%Q.
    + apply Qmult_le_compat_r; [|apply Qlt_le_weak, pow2_pos].
      rewrite <- pow2_Z by lia. now rewrite <- Zle_Qle.
    + apply Qle_trans with (pow2 52 * pow2 (exponent b))%Q.
      * rewrite <- !pow2_plus. apply pow2_le. lia.
      * apply Qmult_le_compat_r; [|apply Qlt_le_weak, pow2_pos].
        rewrite <- pow2_Z by lia. now rewrite <- Zle_Qle.
Qed.

(** *** Packing *)

Lemma pack_cases (s : bool) (m e : Z) :
  0 <= m <= 2 ^ 53 -> (-1074 < e -> 2 ^ 52 <= m) ->
  match pack s m e with
  | NaN => False
  | Zero s' => s' = s /\ m = 0
  | Infinity s' =>
      s' = s /\ (pow2 1024 <= inject_Z m * pow2 e)%Q
  | Finite s' m' e' =>
      s' = s /\ 0 < m
      /\ (magnitude m' e' == inject_Z m * pow2 e)%Q
      /\ (magnitude m' e' < pow2 1024)%Q
  end.
Proof.
  intros Hm Hn. unfold pack.
  destruct (Z.eqb_spec m 0) as [->|N0]; [auto|].
  assert (B : forall (k : Z) (f : Z),
             0 < k < 2 ^ 53 -> f <= 971 ->
             (magnitude (Z.to_pos k) f < pow2 1024)%Q).
  { intros k f Hk Hf. unfold magnitude. rewrite Z2Pos.id by lia.
    apply Qlt_le_trans with (pow2 53 * pow2 f)%Q.
    - apply Qmult_lt_compat_r; [apply pow2_pos|].
      rewrite <- pow2_Z by lia. rewrite <- Zlt_Qlt. lia.
    - rewrite <- pow2_plus. apply pow2_le. lia. }
  destruct (Z.eqb_spec m (2 ^ 53)) as [->|N1].
  - destruct (Z.ltb_spec 971 (e + 1)) as [L|L].
    + split; [reflexivity|]. rewrite pow2_Z by lia. rewrite <- pow2_plus.
      apply pow2_le. lia.
    + split; [reflexivity|]. split; [lia|]. split.
      * unfold magnitude. rewrite Z2Pos.id by lia.
        rewrite !pow2_Z by lia. rewrite <- !pow2_plus.
        replace (52 + (e + 1)) with (53 + e) by lia. reflexivity.
      * apply B; lia.
  - destruct (Z.ltb_spec 971 e) as [L|L].
    + split; [reflexivity|].
      apply Qle_trans with (pow2 52 * pow2 e)%Q.
      * rewrite <- pow2_plus. apply pow2_le. lia.
      * apply Qmult_le_compat_r; [|apply Qlt_le_weak, pow2_pos].
        rewrite <- pow2_Z by lia. rewrite <- Zle_Qle. apply Hn. lia.
    + split; [reflexivity|]. split; [lia|]. split.
      * unfold magnitude. rewrite Z2Pos.id by lia. reflexivity.
      * apply B; lia.
Qed.

Lemma nearest_cases (s : bool) (a : Q) :
  (0 < a)%Q ->
  match nearest s a with
  | NaN => False
  | Zero s' => s' = s /\ (rounded a == 0)%Q
  | Infinity s' => s' = s /\ (pow2 1024 <= rounded a)%Q
  | Finite s' m e =>
      s' = s /\ (0 < rounded a)%Q
      /\ (magnitude m e == rounded a)%Q
      /\ (magnitude m e < pow2 1024)%Q
  end.
Proof.
  intros Ha. destruct (mantissa_spec a Ha) as [M N].
  pose proof (pack_cases s (mantissa a) (exponent a) M N) as P.
  unfold nearest, rounded.
  destruct (pack s (mantissa a) (exponent a)) as [|s'|s'|s' m e];
    [exact P| | |].
  - exact P.
  - destruct P as [-> ->]. split; [reflexivity|]. ring.
  - destruct P as (-> & Hm & E & B). split; [reflexivity|].
    split; [|split; assumption].
    apply Qmult_lt_0_compat; [|apply pow2_pos].
    change 0%Q with (inject_Z 0). now rewrite <- Zlt_Qlt.
Qed.

Lemma magnitude_pos (m : positive) (e : Z) : (0 < magnitude m e)%Q.
Proof.
  unfold magnitude. apply Qmult_lt_0_compat; [reflexivity|apply pow2_pos].
Qed.

(** *** The nearest double does not decrease with the magnitude *)

Lemma nearest_mono (a b : Q) :
  (0 < a)%Q -> (a <= b)%Q ->
  leb (nearest false a) (nearest false b) = true.
Proof.
  intros Ha Hab.
  assert (Hb : (0 < b)%Q) by (eapply Qlt_le_trans; eassumption).
  pose proof (rounded_mono a b Ha Hab) as R.
  pose proof (nearest_cases false a Ha) as A.
  pose proof (nearest_cases false b Hb) as B.
  unfold leb, compare.
  destruct (nearest false a) as [|sa|sa|sa ma ea];
    destruct (nearest false b) as [|sb|sb|sb mb eb];
    try contradiction;
    repeat match goal with
           | H : _ /\ _ |- _ => destruct H
           end; subst; cbn [value]; try reflexivity;
    try (exfalso; pose proof (pow2_pos 1024); lra);
    match goal with
    | |- context [Qcompare ?x ?y] =>
        destruct (Qcompare x y) eqn:C; try reflexivity; qcmp C; exfalso;
        try pose proof (magnitude_pos ma ea);
        try pose proof (magnitude_pos mb eb); lra
    end.
Qed.

(** *** Kinds of results *)

Lemma nearest_kind (s : bool) (a : Q) :
  (0 < a)%Q ->
  nearest s a = Zero s \/ nearest s a = Infinity s
  \/ exists m e, nearest s a = Finite s m e
                 /\ (magnitude m e < pow2 1024)%Q.
Proof.
  intros Ha. pose proof (nearest_cases s a Ha) as C.
  destruct (nearest s a) as [|s'|s'|s' m e]; [contradiction| | |].
  - destruct C as [-> _]. auto.
  - destruct C as [-> _]. auto.
  - destruct C as (-> & _ & _ & B). right. right. eauto.
Qed.

Lemma nearest_finite (s : bool) (a : Q) :
  (0 < a)%Q -> (a < pow2 1023)%Q -> is_finite (nearest s a) = true.
Proof.
  intros Ha Hb. pose proof (nearest_cases s a Ha) as C.
  destruct (nearest s a) as [|s'|s'|s' m e]; try reflexivity;
    [contradiction|]. exfalso. destruct C as [_ C].
  destruct (mantissa_spec a Ha) as [[_ M] _].
  assert (E : exponent a <= 970).
  { unfold exponent. pose proof (Qlog2_below a 1023 Ha Hb). lia. }
  assert (R : (rounded a <= pow2 1023)%Q).
  { unfold rounded.
    apply Qle_trans with (pow2 53 * pow2 (exponent a))%Q.
    - apply Qmult_le_compat_r; [|apply Qlt_le_weak, pow2_pos].
      rewrite <- pow2_Z by lia. now rewrite <- Zle_Qle.
    - rewrite <- pow2_plus. apply pow2_le. lia. }
  pose proof (pow2_lt 1023 1024 eq_refl). lra.
Qed.

Lemma round_kind (z : bool) (q : Q) :
  is_nan (round z q) = false /\ bounded (round z q).
Proof.
  unfold round.
  destruct (Qcompare q 0) eqn:C; [split; exact I || reflexivity| |].
  - qcmp C. assert (P : (0 < - q)%Q) by lra.
    destruct (nearest_kind true (- q) P) as [-> | [-> | (m & e & -> & B)]];
      split; try reflexivity; try exact I; exact B.
  - qcmp C.
    destruct (nearest_kind false q C) as [-> | [-> | (m & e & -> & B)]];
      split; try reflexivity; try exact I; exact B.
Qed.

Lemma of_Q_nonneg (q : Q) :
  (0 <= q)%Q ->
  of_Q q = Zero false \/ of_Q q = Infinity false
  \/ exists m e, of_Q q = Finite false m e.
Proof.
  intros H. unfold of_Q, round. destruct (Qcompare q 0) eqn:C; [auto| |].
  - qcmp C. exfalso. lra.
  - qcmp C.
    destruct (nearest_kind false q C) as [-> | [-> | (m & e & -> & _)]];
      eauto.
Qed.

Lemma of_Q_below_one (q : Q) :
  (0 <= q)%Q -> (q < 1)%Q ->
  of_Q q = Zero false \/ exists m e, of_Q q = Finite false m e.
Proof.
  intros H0 H1. unfold of_Q, round. destruct (Qcompare q 0) eqn:C; [auto| |].
  - qcmp C. exfalso. lra.
  - qcmp C.
    assert (B : (q < pow2 1023)%Q).
    { eapply Qlt_le_trans; [exact H1|]. apply (pow2_le 0 1023). lia. }
    pose proof (nearest_finite false q C B) as F.
    destruct (nearest_kind false q C) as [E | [E | (m & e & E & _)]];
      rewrite E in *; [auto|discriminate|eauto].
Qed.

Lemma value_nonzero (s : bool) (m : positive) (e : Z) :
  ~ (value (Finite s m e) == 0)%Q.
Proof.
  pose proof (magnitude_pos m e). simpl. destruct s; lra.
Qed.

Lemma product_pos (x y : number) (s t : bool) (m n : positive) (e f : Z) :
  x = Finite s m e -> y = Finite t n f ->
  (0 < Qabs (value x * value y))%Q.
Proof.
  intros -> ->. pose proof (value_nonzero s m e) as A.
  pose proof (value_nonzero t n f) as B.
  pose proof (Qabs_nonneg (value (Finite s m e) * value (Finite t n f))) as P.
  destruct (Qeq_dec (Qabs (value (Finite s m e) * value (Finite t n f))) 0)
    as [Z0|N]; [|lra].
  exfalso.
  assert (Z1 : (value (Finite s m e) * value (Finite t n f) == 0)%Q).
  { revert Z0. apply Qabs_case; intros _ Hq; lra. }
  apply Qmult_integral in Z1. tauto.
Qed.

Lemma mul_bounded (x y : number) : bounded (mul x y).
Proof.
  destruct x as [|s|s|s m e], y as [|t|t|t n f]; try exact I.
  cbn [mul].
  pose proof (product_pos _ _ s t m n e f eq_refl eq_refl) as P.
  destruct (nearest_kind (xorb s t) _ P) as [-> | [-> | (k & g & -> & B)]];
    try exact I. exact B.
Qed.

(** *** Comparisons and [Math.min] *)

Lemma compare_refl (x : number) :
  is_nan x = false -> compare x x = Some Eq.
Proof.
  destruct x as [|[]|s|s m e]; try discriminate; intros _; try reflexivity;
    unfold compare; f_equal; apply Qeq_alt; reflexivity.
Qed.

Lemma compare_none (x y : number) :
  compare x y = None <-> is_nan x || is_nan y = true.
Proof.
  destruct x as [|[]|s|s m e], y as [|[]|t|t n f]; simpl;
    split; intros H; try reflexivity; discriminate.
Qed.

Lemma min_nan (x y : number) : is_nan (min x y) = is_nan x || is_nan y.
Proof.
  unfold min. destruct (compare x y) as [c|] eqn:C.
  - assert (N : is_nan x || is_nan y = false).
    { destruct (is_nan x || is_nan y) eqn:E; [|reflexivity].
      apply compare_none in E. congruence. }
    rewrite N. apply orb_false_elim in N. destruct N as [Nx Ny].
    destruct c; [|exact Nx|exact Ny].
    destruct x, y; try discriminate; reflexivity.
  - apply compare_none in C. now rewrite C.
Qed.

Lemma min_not_above (x y : number) : compare (min x y) y <> Some Gt.
Proof.
  unfold min. destruct (compare x y) as [[]|] eqn:C.
  - destruct x as [|s|s|s m e], y as [|t|t|t n f];
      try discriminate; try (rewrite C; discriminate).
  - rewrite C. discriminate.
  - rewrite compare_refl; [discriminate|].
    destruct (is_nan y) eqn:E; [|reflexivity].
    assert (N : is_nan x || is_nan y = true) by (rewrite E; apply orb_true_r).
    apply compare_none in N. congruence.
  - destruct y; discriminate.
Qed.

Lemma min_le (x y : number) :
  is_nan x = false -> is_nan y = false -> leb (min x y) y = true.
Proof.
  intros Nx Ny. pose proof (min_not_above x y) as A.
  assert (N : is_nan (min x y) || is_nan y = false)
    by (rewrite min_nan, Nx, Ny; reflexivity).
  unfold leb. destruct (compare (min x y) y) as [[]|] eqn:C;
    try reflexivity; [congruence|].
  apply compare_none in C. congruence.
Qed.

Lemma leb_infinity (x : number) :
  is_nan x = false -> leb x (Infinity false) = true.
Proof. destruct x as [|[]|s|s m e]; try discriminate; reflexivity. Qed.

(** *** Products and sums of delays *)

Lemma value_one : (value one == 1)%Q.
Proof. vm_compute. reflexivity. Qed.

Lemma leb_value (x y : number) :
  is_finite x = true -> is_finite y = true -> leb x y = true ->
  (value x <= value y)%Q.
Proof.
  intros Fx Fy. unfold leb.
  assert (E : compare x y = Some (Qcompare (value x) (value y)))
    by (destruct x, y; try discriminate; reflexivity).
  rewrite E. destruct (Qcompare (value x) (value y)) eqn:C;
    try discriminate; intros _; qcmp C; lra.
Qed.

Lemma leb_one (p : number) :
  leb one p = true ->
  p = Infinity false
  \/ exists n f, p = Finite false n f /\ (1 <= magnitude n f)%Q.
Proof.
  intros H. destruct p as [|[]|t|[] n f]; auto.
  - exfalso. revert H. vm_compute. discriminate.
  - exfalso. revert H. vm_compute. discriminate.
  - exfalso. revert H. vm_compute. discriminate.
  - exfalso. apply leb_value in H; try reflexivity.
    rewrite value_one in H. pose proof (magnitude_pos n f). simpl in H. lra.
  - right. exists n, f. split; [reflexivity|].
    apply leb_value in H; try reflexivity.
    rewrite value_one in H. exact H.
Qed.

Lemma nearest_not_nan (s : bool) (a : Q) :
  (0 < a)%Q -> is_nan (nearest s a) = false.
Proof.
  intros Ha.
  destruct (nearest_kind s a Ha) as [-> | [-> | (m & e & -> & _)]];
    reflexivity.
Qed.

Lemma mul_mono (x p q : number) :
  nonnegative x -> leb one p = true -> leb p q = true ->
  is_nan (mul x q) = false ->
  leb (mul x p) (mul x q) = true.
Proof.
  intros Hx Hp Hpq Hn.
  destruct (leb_one p Hp) as [-> | (n & f & -> & P)].
  - destruct q as [|[]|t|t k g]; try discriminate.
    destruct Hx as [-> | [-> | (m & e & ->)]];
      [discriminate|reflexivity|reflexivity].
  - destruct q as [|[]|t|t k g]; try discriminate.
    + destruct Hx as [-> | [-> | (m & e & ->)]];
        [discriminate|reflexivity|].
      apply leb_infinity. cbn [mul xorb].
      apply nearest_not_nan. eapply product_pos; reflexivity.
    + exfalso. apply leb_value in Hpq; try reflexivity. simpl in Hpq. lra.
    + apply leb_value in Hpq; try reflexivity.
      assert (T : t = false).
      { destruct t; [|reflexivity]. exfalso.
        pose proof (magnitude_pos k g). simpl in Hpq. lra. }
      subst t. simpl in Hpq.
      destruct Hx as [-> | [-> | (m & e & ->)]];
        [reflexivity|reflexivity|].
      cbn [mul xorb]. pose proof (magnitude_pos m e) as M.
      assert (A : (0 <= magnitude m e * magnitude n f)%Q) by nra.
      assert (B : (0 <= magnitude m e * magnitude k g)%Q) by nra.
      cbn [value]. pose proof (Qabs_pos _ A) as EA.
      pose proof (Qabs_pos _ B) as EB.
      assert (L : (magnitude m e * magnitude n f
                   <= magnitude m e * magnitude k g)%Q) by nra.
      assert (O : (0 < magnitude m e * magnitude n f)%Q) by nra.
      apply nearest_mono; lra.
Qed.

Lemma mul_nan (x p : number) :
  nonnegative x -> leb one p = true -> is_nan (mul x p) = true ->
  x = Zero false /\ p = Infinity false.
Proof.
  intros Hx Hp.
  destruct (leb_one p Hp) as [-> | (n & f & -> & P)];
    destruct Hx as [-> | [-> | (m & e & ->)]]; try discriminate; auto.
  cbn [mul xorb]. rewrite nearest_not_nan; [discriminate|].
  eapply product_pos; reflexivity.
Qed.

Lemma tenth_eq : tenth = Finite false 7205759403792794 (-56).
Proof. vm_compute. reflexivity. Qed.

Lemma mul_finite_kind (x y : number) :
  is_finite x = true -> is_finite y = true -> is_nan (mul x y) = false.
Proof.
  destruct x as [|s|s|s m e], y as [|t|t|t n f]; try discriminate;
    intros _ _; try reflexivity.
  cbn [mul]. apply nearest_not_nan. eapply product_pos; reflexivity.
Qed.

Lemma one_eq : one = Finite false 4503599627370496 (-52).
Proof. vm_compute. reflexivity. Qed.

Lemma leb_one_trans (p q : number) :
  leb one p = true -> leb p q = true -> leb one q = true.
Proof.
  intros Hp Hpq.
  destruct (leb_one p Hp) as [-> | (n & f & -> & P)].
  - destruct q as [|[]|t|t k g]; try discriminate. reflexivity.
  - destruct q as [|[]|t|t k g]; try discriminate; [reflexivity| |].
    + exfalso. apply leb_value in Hpq; try reflexivity. simpl in Hpq. lra.
    + apply leb_value in Hpq; try reflexivity. cbn [value] in Hpq.
      pose proof value_one as V. rewrite one_eq in V |- *.
      unfold leb, compare.
      destruct (Qcompare _ _) eqn:C; try reflexivity.
      qcmp C. exfalso. cbn [value] in *. lra.
Qed.

(** The draws of [Math.random]: at least zero and below one. *)
Lemma unit_range_finite (r : number) :
  leb zero r = true -> ltb r one = true -> is_finite r = true.
Proof.
  destruct r as [|[]|s|s m e]; try reflexivity; intros A B;
    try discriminate A; revert B; vm_compute; discriminate.
Qed.

Lemma tenth_product (s : bool) (m : positive) (e : Z) :
  bounded (Finite s m e) ->
  mul (Finite s m e) tenth = Zero s
  \/ exists k g, mul (Finite s m e) tenth = Finite s k g.
Proof.
  intros B.
  assert (J : is_finite (mul (Finite s m e) tenth) = true).
  { rewrite tenth_eq. cbn [mul].
    apply nearest_finite; [eapply product_pos; reflexivity|].
    cbn [bounded] in B. cbn [value]. rewrite Qabs_Qmult.
    assert (V : (Qabs (if s then - magnitude m e else magnitude m e)
                 == magnitude m e)%Q).
    { pose proof (magnitude_pos m e).
      destruct s; [rewrite Qabs_opp|]; apply Qabs_pos; lra. }
    rewrite V.
    assert (T : (Qabs (magnitude 7205759403792794 (-56)) < 1 # 2)%Q).
    { vm_compute. reflexivity. }
    pose proof (Qabs_nonneg (magnitude 7205759403792794 (-56))).
    pose proof (magnitude_pos m e).
    assert (E : (pow2 1024 == 2 * pow2 1023)%Q).
    { rewrite <- (pow2_succ 1023). reflexivity. }
    set (t := Qabs (magnitude 7205759403792794 (-56))) in *.
    set (v := magnitude m e) in *.
    assert (S : (v * t <= v * (1 # 2))%Q).
    { apply Qmult_le_l; lra. }
    revert B E. generalize (pow2 1024), (pow2 1023). intros. lra. }
  revert J. rewrite tenth_eq. cbn [mul]. rewrite xorb_false_r.
  match goal with
  | |- context [nearest s ?a] =>
      assert (P : (0 < a)%Q) by (eapply product_pos; reflexivity);
      destruct (nearest_kind s a P) as [-> | [-> | (k & g & -> & _)]]
  end; try discriminate; eauto.
Qed.

(** A finite positive delay with its jitter is a number, whatever finite
    number [Math.random] drew. *)
Lemma jitter_is_number (d r : number) :
  bounded d -> is_finite d = true -> ltb zero d = true ->
  is_finite r = true ->
  is_nan (add d (mul (mul d tenth) r)) = false.
Proof.
  intros B F P K.
  destruct d as [|s|s|s m e]; try discriminate.
  assert (J : is_finite (mul (Finite s m e) tenth) = true).
  { destruct (tenth_product s m e B) as [-> | (k & g & ->)]; reflexivity. }
  pose proof (mul_finite_kind _ _ J K) as N.
  revert N. generalize (mul (mul (Finite s m e) tenth) r).
  intros [|t|t|t n f] N; cbn [add];
    [discriminate N|reflexivity|reflexivity|apply round_kind].
Qed.

(** An infinite delay stays infinite under a jitter that is not zero. *)
Lemma jitter_of_infinity (r : number) :
  ltb zero r = true ->
  add (Infinity false) (mul (mul (Infinity false) tenth) r) = Infinity false.
Proof.
  intros P. rewrite tenth_eq. cbn [mul xorb].
  destruct r as [|[]|s|[] m e]; try reflexivity; exfalso; revert P.
  - vm_compute. discriminate.
  - vm_compute. discriminate.
  - vm_compute. discriminate.
  - intros P. unfold ltb, compare, zero in P.
    destruct (Qcompare _ _) eqn:C; try discriminate. qcmp C.
    pose proof (magnitude_pos m e). simpl in C. lra.
Qed.

(** *** Doubles are left as they are by rounding *)

Lemma Qlog2_above (a : Q) (k : Z) :
  (pow2 k <= a)%Q -> k <= Qlog2 a.
Proof.
  intros H.
  assert (Ha : (0 < a)%Q)
    by (eapply Qlt_le_trans; [apply (pow2_pos k)|exact H]).
  destruct (Qlog2_spec a Ha) as [_ U].
  assert (L : k < Qlog2 a + 1).
  { apply pow2_lt_inv. eapply Qle_lt_trans; eassumption. }
  lia.
Qed.

Lemma Qlog2_proper (a b : Q) : (0 < a)%Q -> (a == b)%Q -> Qlog2 a = Qlog2 b.
Proof.
  intros Ha E.
  assert (Hb : (0 < b)%Q) by (rewrite <- E; exact Ha).
  pose proof (Qlog2_mono a b Ha) as A. pose proof (Qlog2_mono b a Hb) as B.
  assert (a <= b)%Q by (rewrite E; apply Qle_refl).
  assert (b <= a)%Q by (rewrite E; apply Qle_refl).
  specialize (A ltac:(assumption)). specialize (B ltac:(assumption)). lia.
Qed.

Lemma nearest_even_proper (n n' : Q) :
  (n == n')%Q -> nearest_even n = nearest_even n'.
Proof.
  intros E. unfold nearest_even. rewrite (Qfloor_comp _ _ E).
  assert (C : Qcompare (n - inject_Z (Qfloor n')) (1 # 2)
              = Qcompare (n' - inject_Z (Qfloor n')) (1 # 2)).
  { apply Qcompare_comp; [|reflexivity]. rewrite E. reflexivity. }
  now rewrite C.
Qed.

Lemma mantissa_of (a : Q) (m e : Z) :
  (0 < a)%Q -> exponent a = e -> (a == inject_Z m * pow2 e)%Q ->
  mantissa a = m.
Proof.
  intros Ha He E. unfold mantissa. rewrite He.
  rewrite <- (nearest_even_Z m). apply nearest_even_proper.
  rewrite E. field. pose proof (pow2_pos e). lra.
Qed.

(** A mantissa of at most 53 bits at an exponent that is the least one,
    or at which the mantissa has its 53 bits, is the value of a double. *)
Lemma rounded_of (m e : Z) :
  0 < m <= 2 ^ 53 -> -1074 <= e -> (-1074 < e -> 2 ^ 52 <= m) ->
  (rounded (inject_Z m * pow2 e) == inject_Z m * pow2 e)%Q.
Proof.
  intros Hm He Hn. set (a := (inject_Z m * pow2 e)%Q).
  assert (Ha : (0 < a)%Q).
  { apply Qmult_lt_0_compat; [|apply pow2_pos].
    change 0%Q with (inject_Z 0). rewrite <- Zlt_Qlt. lia. }
  assert (U : m < 2 ^ 53 -> (a < pow2 (53 + e))%Q).
  { intros L. unfold a. rewrite pow2_plus.
    apply Qmult_lt_compat_r; [apply pow2_pos|].
    rewrite <- pow2_Z by lia. rewrite <- Zlt_Qlt. exact L. }
  assert (L : 2 ^ 52 <= m -> (pow2 (52 + e) <= a)%Q).
  { intros G. unfold a. rewrite pow2_plus.
    apply Qmult_le_compat_r; [|apply Qlt_le_weak, pow2_pos].
    rewrite <- pow2_Z by lia. rewrite <- Zle_Qle. exact G. }
  destruct (Z.eq_dec m (2 ^ 53)) as [T|T].
  - assert (E : (a == inject_Z (2 ^ 52) * pow2 (e + 1))%Q).
    { unfold a. rewrite T. rewrite !pow2_Z by lia. rewrite <- !pow2_plus.
      replace (52 + (e + 1)) with (53 + e) by lia. reflexivity. }
    assert (X : exponent a = e + 1).
    { unfold exponent.
      assert (Qlog2 a = 53 + e).
      { assert (53 + e <= Qlog2 a).
        { apply Qlog2_above. rewrite E. rewrite pow2_Z by lia.
          rewrite <- pow2_plus. apply pow2_le. lia. }
        assert (Qlog2 a < 54 + e).
        { apply Qlog2_below; [exact Ha|]. rewrite E. rewrite pow2_Z by lia.
          rewrite <- pow2_plus. apply pow2_lt. lia. }
        lia. }
      lia. }
    unfold rounded. rewrite (mantissa_of a (2 ^ 52) (e + 1) Ha X E), X.
    symmetry. exact E.
  - assert (X : exponent a = e).
    { unfold exponent.
      assert (Qlog2 a < 53 + e) by (apply Qlog2_below; [exact Ha|apply U; lia]).
      destruct (Z.eq_dec e (-1074)) as [->|N]; [lia|].
      assert (52 + e <= Qlog2 a) by (apply Qlog2_above, L, Hn; lia).
      lia. }
    unfold rounded.
    rewrite (mantissa_of a m e Ha X ltac:(reflexivity)), X. reflexivity.
Qed.

Lemma rounded_idem (a : Q) :
  (0 < a)%Q -> (0 < rounded a)%Q -> (rounded (rounded a) == rounded a)%Q.
Proof.
  intros Ha Hr. destruct (mantissa_spec a Ha) as [[M0 M1] M2].
  destruct (exponent_spec a Ha) as [E0 _].
  unfold rounded at 2 3. apply rounded_of; try assumption.
  split; [|exact M1].
  destruct (Z.eq_dec (mantissa a) 0) as [Z0|N]; [|lia].
  exfalso. unfold rounded in Hr. rewrite Z0 in Hr.
  rewrite Qmult_0_l in Hr. lra.
Qed.

Lemma rounded_proper (a b : Q) :
  (0 < a)%Q -> (a == b)%Q -> (rounded a == rounded b)%Q.
Proof.
  intros Ha E. unfold rounded, mantissa, exponent.
  rewrite (Qlog2_proper a b Ha E).
  rewrite (nearest_even_proper _ (b / pow2 (Z.max (Qlog2 b - 52) (-1074)))).
  - reflexivity.
  - rewrite E. reflexivity.
Qed.

Lemma nearest_representable (s : bool) (a : Q) :
  (0 < a)%Q -> representable (nearest s a).
Proof.
  intros Ha. pose proof (nearest_cases s a Ha) as C.
  destruct (nearest s a) as [|s'|s'|s' m e]; try exact I.
  destruct C as (_ & P & E & _). cbn [representable].
  rewrite (rounded_proper _ _ (magnitude_pos m e) E).
  rewrite E. now apply rounded_idem.
Qed.

Lemma round_representable (z : bool) (q : Q) : representable (round z q).
Proof.
  unfold round. destruct (Qcompare q 0) eqn:C; [exact I| |]; qcmp C;
    apply nearest_representable; lra.
Qed.

Lemma mul_representable (x y : number) : representable (mul x y).
Proof.
  destruct x as [|s|s|s m e], y as [|t|t|t n f]; try exact I.
  cbn [mul]. apply nearest_representable. eapply product_pos; reflexivity.
Qed.

(** The nearest double to a magnitude that is at least that of a double
    is at least that double, and likewise from below. *)
Lemma nearest_above (m : positive) (e : Z) (b : Q) :
  representable (Finite false m e) ->
  (magnitude m e <= b)%Q ->
  leb (Finite false m e) (nearest false b) = true.
Proof.
  intros R H. pose proof (magnitude_pos m e) as P.
  assert (Hb : (0 < b)%Q) by lra.
  pose proof (rounded_mono _ _ P H) as M. cbn [representable] in R.
  pose proof (nearest_cases false b Hb) as C.
  destruct (nearest false b) as [|s'|s'|s' k g]; [contradiction| | |].
  - destruct C as [-> _]. reflexivity.
  - exfalso. destruct C as [_ C]. lra.
  - destruct C as (-> & _ & E & _). unfold leb, compare. cbn [value].
    destruct (Qcompare _ _) eqn:Q; try reflexivity. qcmp Q. exfalso. lra.
Qed.

Lemma nearest_under (m : positive) (e : Z) (a : Q) :
  representable (Finite false m e) -> bounded (Finite false m e) ->
  (0 < a)%Q -> (a <= magnitude m e)%Q ->
  leb (nearest false a) (Finite false m e) = true.
Proof.
  intros R B Ha H.
  pose proof (rounded_mono _ _ Ha H) as M.
  cbn [representable] in R. cbn [bounded] in B.
  pose proof (magnitude_pos m e) as P.
  pose proof (nearest_cases false a Ha) as C.
  destruct (nearest false a) as [|s'|s'|s' k g]; [contradiction| | |].
  - exfalso. destruct C as [_ C]. lra.
  - destruct C as [-> C]. unfold leb, compare. cbn [value].
    destruct (Qcompare _ _) eqn:Q; try reflexivity. qcmp Q. exfalso. lra.
  - destruct C as (-> & _ & E & _). unfold leb, compare. cbn [value].
    destruct (Qcompare _ _) eqn:Q; try reflexivity. qcmp Q. exfalso. lra.
Qed.

(** *** The order *)

Ltac order_cases :=
  repeat (cbv beta iota; cbn [value orb andb];
          match goal with
         | H : context [Qcompare ?a ?b] |- _ =>
             let C := fresh "C" in
             destruct (Qcompare a b) eqn:C; try discriminate H; qcmp C
         | |- context [Qcompare ?a ?b] =>
             let C := fresh "C" in
             destruct (Qcompare a b) eqn:C; qcmp C
         | |- context [match ?s with true => _ | false => _ end] =>
             destruct s
         end);
  try reflexivity; try discriminate; try lra; try (exfalso; lra).

Lemma leb_refl (x : number) : is_nan x = false -> leb x x = true.
Proof. intros H. unfold leb. now rewrite compare_refl. Qed.

Lemma leb_not_nan (x y : number) :
  leb x y = true -> is_nan x = false /\ is_nan y = false.
Proof. destruct x, y; try discriminate; auto. Qed.

Lemma leb_trans (x y z : number) :
  leb x y = true -> leb y z = true -> leb x z = true.
Proof.
  destruct x as [|[]|sx|sx mx ex], y as [|[]|sy|sy my ey],
    z as [|[]|sz|sz mz ez]; try discriminate; try reflexivity;
    unfold leb, compare; cbn [value]; intros A B;
    try discriminate; order_cases.
Qed.

Lemma min_mono (x y t : number) :
  is_nan t = false -> leb x y = true -> leb (min x t) (min y t) = true.
Proof.
  destruct x as [|[]|sx|sx mx ex], y as [|[]|sy|sy my ey],
    t as [|[]|st|st mt et]; try discriminate; try reflexivity;
    intros _; unfold leb, min, compare; cbn [value]; intros A;
    try discriminate; order_cases.
Qed.

(** *** Jitter *)

Lemma round_pos (z : bool) (q : Q) : (0 < q)%Q -> round z q = nearest false q.
Proof.
  intros H. unfold round.
  assert (C : Qcompare q 0 = Gt) by (apply Qgt_alt; exact H).
  now rewrite C.
Qed.

Lemma unit_range (r : number) :
  leb zero r = true -> ltb r one = true ->
  (exists s, r = Zero s)
  \/ exists n f, r = Finite false n f /\ (magnitude n f < 1)%Q.
Proof.
  intros A B. destruct r as [|[]|s|[] n f]; try discriminate A.
  - exfalso. revert B. vm_compute. discriminate.
  - left. eauto.
  - exfalso. unfold leb, compare, zero in A. cbn [value] in A.
    pose proof (magnitude_pos n f). order_cases.
  - right. exists n, f. split; [reflexivity|].
    pose proof value_one as V. rewrite one_eq in V, B.
    unfold ltb, compare in B. cbn [value] in B, V. order_cases.
Qed.

(** The jitter of a finite positive delay, for a draw of [Math.random]
    in its range: the sum is at least the delay, and at most the delay
    with a tenth of it. *)
Lemma jitter_bounds (d r : number) :
  representable d -> bounded d -> is_finite d = true ->
  ltb zero d = true ->
  leb zero r = true -> ltb r one = true ->
  leb d (add d (mul (mul d tenth) r)) = true
  /\ leb (add d (mul (mul d tenth) r)) (add d (mul d tenth)) = true.
Proof.
  intros R B F P R0 R1.
  destruct d as [|s|s|[] m e]; try discriminate.
  { exfalso. unfold ltb, compare, zero in P. cbn [value] in P.
    pose proof (magnitude_pos m e). order_cases. }
  pose proof (magnitude_pos m e) as Pd.
  assert (Dd : leb (Finite false m e) (Finite false m e) = true)
    by (apply leb_refl; reflexivity).
  pose proof (mul_representable (Finite false m e) tenth) as R1'.
  pose proof (mul_bounded (Finite false m e) tenth) as B1.
  destruct (tenth_product false m e B) as [J | (k & g & J)];
    rewrite J in *.
  - assert (Z : exists z, mul (Zero false) r = Zero z).
    { destruct (unit_range r R0 R1) as [[z ->] | (n & f & -> & _)];
        cbn [mul]; eauto. }
    destruct Z as [z ->]. cbn [add]. auto.
  - pose proof (magnitude_pos k g) as Pj.
    assert (U : add (Finite false m e) (Finite false k g)
                = nearest false (magnitude m e + magnitude k g)).
    { cbn [add value]. apply round_pos. lra. }
    assert (Du : leb (Finite false m e)
                   (add (Finite false m e) (Finite false k g)) = true).
    { rewrite U. apply nearest_above; [exact R|lra]. }
    destruct (unit_range r R0 R1) as [[z ->] | (n & f & -> & V)].
    + cbn [mul add]. auto.
    + pose proof (magnitude_pos n f) as Pr.
      cbn [mul xorb value].
      assert (A0 : (0 <= magnitude k g * magnitude n f)%Q) by nra.
      pose proof (Qabs_pos _ A0) as EA.
      set (a := Qabs (magnitude k g * magnitude n f)) in *.
      assert (Pa : (0 < a)%Q) by nra.
      assert (La : (a <= magnitude k g)%Q) by nra.
      pose proof (nearest_under k g a R1' B1 Pa La) as L.
      pose proof (nearest_kind false a Pa) as K.
      destruct K as [K | [K | (k2 & g2 & K & _)]]; rewrite K in *.
      * cbn [add]. auto.
      * discriminate L.
      * pose proof (magnitude_pos k2 g2) as P2.
        apply leb_value in L; try reflexivity. cbn [value] in L.
        assert (S : add (Finite false m e) (Finite false k2 g2)
                    = nearest false (magnitude m e + magnitude k2 g2)).
        { cbn [add value]. apply round_pos. lra. }
        rewrite S, U. split.
        -- apply nearest_above; [exact R|lra].
        -- apply nearest_mono; lra.
Qed.

(** A delay that is not negative is at most itself with a tenth of
    it. *)
Lemma tenth_more (d : number) :
  representable d -> bounded d -> is_finite d = true ->
  leb zero d = true ->
  leb d (add d (mul d tenth)) = true.
Proof.
  intros R B F P. destruct (ltb zero d) eqn:L.
  - destruct (jitter_bounds d zero R B F L eq_refl eq_refl) as [A C].
    eapply leb_trans; eassumption.
  - destruct d as [|s|s|s m e]; try discriminate.
    + rewrite tenth_eq. cbn [mul add]. reflexivity.
    + exfalso. pose proof (magnitude_pos m e).
      unfold leb, ltb, compare, zero in P, L. cbn [value] in P, L.
      destruct s; order_cases.
Qed.

(** *** Integers of at most 53 bits are doubles *)

Lemma rounded_Z (k : Z) :
  0 < k < 2 ^ 53 -> (rounded (inject_Z k) == inject_Z k)%Q.
Proof.
  intros H. pose proof (Z.log2_spec k ltac:(lia)) as [L U].
  pose proof (Z.log2_nonneg k) as N.
  assert (B : Z.log2 k < 53).
  { apply Z.log2_lt_pow2; lia. }
  set (l := Z.log2 k) in *.
  assert (E : (inject_Z k == inject_Z (k * 2 ^ (52 - l)) * pow2 (l - 52))%Q).
  { rewrite inject_Z_mult, pow2_Z by lia. rewrite <- Qmult_assoc.
    rewrite <- pow2_plus. replace (52 - l + (l - 52)) with 0 by lia.
    unfold pow2. simpl. ring. }
  assert (P : (0 < inject_Z k)%Q).
  { change 0%Q with (inject_Z 0). rewrite <- Zlt_Qlt. lia. }
  rewrite (rounded_proper _ _ P E).
  etransitivity; [|symmetry; exact E].
  assert (S : 2 ^ 53 = 2 ^ (l + 1) * 2 ^ (52 - l)).
  { rewrite <- Z.pow_add_r by lia. f_equal. lia. }
  assert (T : 2 ^ 52 = 2 ^ l * 2 ^ (52 - l)).
  { rewrite <- Z.pow_add_r by lia. f_equal. lia. }
  assert (Q2 : 0 < 2 ^ (52 - l)) by (apply Z.pow_pos_nonneg; lia).
  apply rounded_of.
  - rewrite S. replace (Z.succ l) with (l + 1) in U by lia. nia.
  - lia.
  - intros _. rewrite T. nia.
Qed.

Lemma nearest_Z (k : Z) (q : Q) :
  0 < k < 2 ^ 53 -> (q == inject_Z k)%Q ->
  exists m e, nearest false q = Finite false m e
              /\ (magnitude m e == inject_Z k)%Q.
Proof.
  intros H E.
  assert (P : (0 < q)%Q).
  { rewrite E. change 0%Q with (inject_Z 0). rewrite <- Zlt_Qlt. lia. }
  pose proof (rounded_proper _ _ P E) as R. rewrite (rounded_Z k H) in R.
  assert (B : (inject_Z k < pow2 1024)%Q).
  { apply Qlt_trans with (pow2 53).
    - rewrite <- pow2_Z by lia. rewrite <- Zlt_Qlt. lia.
    - apply pow2_lt. lia. }
  pose proof (nearest_cases false q P) as C.
  destruct (nearest false q) as [|s'|s'|s' m e]; [contradiction| | |].
  - exfalso. destruct C as [_ C]. lra.
  - exfalso. destruct C as [_ C]. lra.
  - destruct C as (-> & _ & V & _). exists m, e. split; [reflexivity|].
    rewrite V. exact R.
Qed.

Lemma of_Z_exact (k : Z) :
  0 < k < 2 ^ 53 ->
  exists m e, of_Z k = Finite false m e /\ (magnitude m e == inject_Z k)%Q.
Proof.
  intros H. unfold of_Z, of_Q. rewrite round_pos.
  - apply nearest_Z; [exact H|reflexivity].
  - change 0%Q with (inject_Z 0). rewrite <- Zlt_Qlt. lia.
Qed.

(** [n - 1] for an attempt count [n]. *)
Lemma sub_one (n : Z) :
  1 <= n < 2 ^ 53 ->
  (n = 1 /\ sub (of_Z n) one = Zero false)
  \/ (1 < n
      /\ exists m e, sub (of_Z n) one = Finite false m e
                     /\ (magnitude m e == inject_Z (n - 1))%Q).
Proof.
  intros H. destruct (of_Z_exact n ltac:(lia)) as (m & e & -> & V).
  pose proof value_one as O. rewrite one_eq in O |- *. cbn [value] in O.
  unfold sub. cbn [opp negb add value].
  set (o := magnitude 4503599627370496 (-52)) in *.
  assert (E : (magnitude m e + - o == inject_Z (n - 1))%Q).
  { rewrite V, O. unfold Z.sub. rewrite inject_Z_plus. reflexivity. }
  destruct (Z.eq_dec n 1) as [->|N].
  - left. split; [reflexivity|]. unfold round.
    assert (C : Qcompare (magnitude m e + - o) 0 = Eq).
    { apply Qeq_alt. rewrite E. reflexivity. }
    now rewrite C.
  - right. split; [lia|]. rewrite round_pos.
    + apply nearest_Z; [lia|exact E].
    + rewrite E. change 0%Q with (inject_Z 0). rewrite <- Zlt_Qlt. lia.
Qed.

Lemma one_nearest : one = nearest false 1.
Proof. unfold one, of_Q. now rewrite round_pos. Qed.

Lemma of_Q_at_least_one (q : Q) : (1 <= q)%Q -> leb one (of_Q q) = true.
Proof.
  intros H. unfold of_Q. rewrite round_pos by lra. rewrite one_nearest.
  apply nearest_mono; lra.
Qed.

(** *** Agreement with the Standard Library's specification of floats *)

Example mul_agrees :
  map (fun p => to_spec (mul (of_Q (fst p)) (of_Q (snd p))))
      [(7, 1 # 10); (2000, 4); (1 # 3, 3); (-5, 1 # 7)]%Q
  = map (fun p => SFmul 53 1024 (to_spec (of_Q (fst p)))
                    (to_spec (of_Q (snd p))))
      [(7, 1 # 10); (2000, 4); (1 # 3, 3); (-5, 1 # 7)]%Q.
Proof. vm_compute. reflexivity. Qed.

Example add_agrees :
  map (fun p => to_spec (add (of_Q (fst p)) (of_Q (snd p))))
      [(7, 7 # 10); (1 # 10, 2 # 10); (1, -1); (30000, 1 # 3)]%Q
  = map (fun p => SFadd 53 1024 (to_spec (of_Q (fst p)))
                    (to_spec (of_Q (snd p))))
      [(7, 7 # 10); (1 # 10, 2 # 10); (1, -1); (30000, 1 # 3)]%Q.
Proof. vm_compute. reflexivity. Qed.

Example overflow_agrees :
  let big := of_Q (Qpower 2 1023) in
  to_spec (mul big (of_Q 2)) = SFmul 53 1024 (to_spec big) (to_spec (of_Q 2))
  /\ mul big (of_Q 2) = Infinity false
  /\ mul zero (mul big (of_Q 2)) = NaN
  /\ to_spec (mul zero (Infinity false))
     = SFmul 53 1024 (to_spec zero) (S754_infinity false).
Proof. vm_compute. repeat split. Qed.

End NumberFacts.

Module RecoveryFacts.
Import Sse Recovery.

(** *** The classifier *)

Lemma floor_half (n : Z) : Qfloor (inject_Z n / 2) = n / 2.
Proof.
  unfold Qfloor, Qdiv, Qmult, Qinv, inject_Z. simpl. now rewrite Z.mul_1_r.
Qed.

Lemma classifyError_retryable (metrics : option NetworkMetrics)
    (t : SSEErrorType) :
  retryable (ERROR_CLASSIFICATION_RULES t) = false ->
  retryable (classifyError metrics t) = false.
Proof.
  unfold classifyError.
  destruct (currentQuality metrics) as [[]|]; simpl; auto.
Qed.

Lemma maxRetries_ceiling (metrics : option NetworkMetrics)
    (t : SSEErrorType) :
  maxRetries (classifyError metrics t) <= retry_ceiling.
Proof.
  unfold classifyError, retry_ceiling.
  destruct (currentQuality metrics) as [[]|]; destruct t; simpl;
    rewrite ?floor_half; try discriminate; vm_compute; discriminate.
Qed.

(** C5. By network quality: on [poor] the table's entry with linear
    backoff, the retries halved and rounded down but at least one, and
    the base delay doubled; on [offline] the entry made non-retryable
    with strategy [fallback]; otherwise, also when no metrics have been
    stored yet, the entry as it is. *)
Theorem C5_classification_by_quality (metrics : option NetworkMetrics)
    (t : SSEErrorType) :
  let base := ERROR_CLASSIFICATION_RULES t in
  let c := classifyError metrics t in
  match currentQuality metrics with
  | Some POOR =>
      strategy c = LINEAR_BACKOFF
      /\ maxRetries c = Z.max 1 (maxRetries base / 2)
      /\ (baseDelay c == 2 * baseDelay base)%Q
      /\ retryable c = retryable base
      /\ type c = type base /\ severity c = severity base
  | Some OFFLINE =>
      retryable c = false
      /\ strategy c = FALLBACK
      /\ maxRetries c = maxRetries base
      /\ baseDelay c = baseDelay base
      /\ type c = type base /\ severity c = severity base
  | _ => c = base
  end.
Proof.
  intros base c. unfold c, classifyError. fold base.
  destruct (currentQuality metrics) as [[]|];
    cbn [strategy maxRetries baseDelay retryable type severity];
    try reflexivity.
  - rewrite floor_half. repeat split. apply Qmult_comm.
  - repeat split.
Qed.

(** *** The backoff calculator *)

Lemma strategyDelay_bounded
    (pow : Number.number -> Number.number -> Number.number)
    (m : ErrorRecoveryManager) (c : ErrorClassification) (n : Z) :
  Number.bounded (strategyDelay pow m c n).
Proof.
  unfold strategyDelay.
  destruct (strategy c); try apply NumberFacts.mul_bounded;
    try apply (proj2 (NumberFacts.round_kind false _)); [exact I|].
  destruct (circuitBreakerState m);
    apply (proj2 (NumberFacts.round_kind false _)).
Qed.

Lemma strategyDelay_representable
    (pow : Number.number -> Number.number -> Number.number)
    (m : ErrorRecoveryManager) (c : ErrorClassification) (n : Z) :
  Number.representable (strategyDelay pow m c n).
Proof.
  unfold strategyDelay.
  destruct (strategy c); try apply NumberFacts.mul_representable;
    try apply NumberFacts.round_representable; [exact I|].
  destruct (circuitBreakerState m); apply NumberFacts.round_representable.
Qed.

(** *** A [Math.pow] that rounds correctly

    The conditions that the backoff asks of [Math.pow] are met by the
    one of the samples, whatever the multiplier of at least one: at the
    attempts from 1 on it returns at least 1, and no less at a later
    attempt. *)

Lemma Math_pow_at (base x : Number.number) (j : Z) (m : positive) (e : Z) :
  x = Number.Finite false m e ->
  (Number.magnitude m e == inject_Z j)%Q ->
  Samples.Math_pow base x
  = match base with
    | Number.NaN => Number.NaN
    | Number.Zero s =>
        if 0 <? j then Number.Zero (s && Z.odd j)
        else Number.Infinity (s && Z.odd j)
    | Number.Infinity s =>
        if 0 <? j then Number.Infinity (s && Z.odd j)
        else Number.Zero (s && Z.odd j)
    | Number.Finite _ _ _ =>
        Number.of_Q (Qpower (Qred (Number.value base)) j)
    end.
Proof.
  intros -> V. unfold Samples.Math_pow. cbv zeta. cbn [Number.value].
  rewrite (Qfloor_comp _ _ V), Qfloor_Z.
  assert (E : Qeq_bool (inject_Z j) (Number.magnitude m e) = true)
    by (apply Qeq_bool_iff; symmetry; exact V).
  rewrite E. reflexivity.
Qed.

Lemma Math_pow_grows (multiplier : Q) (a b : Z) :
  (1 <= multiplier)%Q -> 1 <= a <= b -> b < 2 ^ 53 ->
  let power n :=
    Samples.Math_pow (Number.of_Q multiplier)
      (Number.sub (Number.of_Z n) Number.one) in
  Number.leb Number.one (power a) = true
  /\ Number.leb (power a) (power b) = true.
Proof.
  intros Hm Hab Hb power.
  assert (O : power 1 = Number.one).
  { unfold power.
    destruct (NumberFacts.sub_one 1 ltac:(lia)) as [[_ ->] | [L _]];
      [reflexivity|lia]. }
  pose proof (NumberFacts.of_Q_at_least_one multiplier Hm) as B.
  assert (S : forall (base : Number.number) (n : Z),
             1 < n < 2 ^ 53 ->
             exists m e,
               Samples.Math_pow base (Number.sub (Number.of_Z n) Number.one)
               = Samples.Math_pow base (Number.Finite false m e)
               /\ (Number.magnitude m e == inject_Z (n - 1))%Q).
  { intros base n Hn.
    destruct (NumberFacts.sub_one n ltac:(lia))
      as [[L _] | (_ & m & e & S & W)]; [lia|].
    exists m, e. now rewrite S. }
  assert (G : (forall n, 1 < n < 2 ^ 53 -> power n = Number.Infinity false)
              \/ exists v, (1 <= v)%Q
                   /\ forall n, 1 < n < 2 ^ 53 ->
                        power n = Number.nearest false (Qpower v (n - 1))).
  { destruct (NumberFacts.leb_one _ B) as [E | (k & g & E & V)].
    - left. intros n Hn. unfold power. rewrite E.
      destruct (S (Number.Infinity false) n Hn) as (m & e & -> & W).
      rewrite (Math_pow_at _ _ (n - 1) m e eq_refl W).
      assert (P : (0 <? n - 1) = true) by (apply Z.ltb_lt; lia).
      now rewrite P.
    - right. exists (Qred (Number.magnitude k g)). split.
      + rewrite Qred_correct. exact V.
      + intros n Hn. unfold power. rewrite E.
        destruct (S (Number.Finite false k g) n Hn) as (m & e & -> & W).
        rewrite (Math_pow_at _ _ (n - 1) m e eq_refl W). cbn [Number.value].
        unfold Number.of_Q. apply NumberFacts.round_pos.
        apply Qpower_0_lt. rewrite Qred_correct. lra. }
  assert (A : forall n, 1 <= n < 2 ^ 53 ->
             Number.leb Number.one (power n) = true).
  { intros n Hn. destruct (Z.eq_dec n 1) as [->|N].
    - rewrite O. reflexivity.
    - destruct G as [F | (v & Hv & F)];
        rewrite (F n ltac:(lia)); [reflexivity|].
      rewrite NumberFacts.one_nearest.
      apply NumberFacts.nearest_mono; [lra|].
      rewrite <- (Qpower_0_r v). apply Qpower_le_compat_l; [lia|exact Hv]. }
  split; [apply A; lia|].
  destruct (Z.eq_dec a 1) as [->|N]; [rewrite O; apply A; lia|].
  destruct G as [F | (v & Hv & F)];
    rewrite (F a ltac:(lia)), (F b ltac:(lia)); [reflexivity|].
  apply NumberFacts.nearest_mono; [apply Qpower_0_lt; lra|].
  apply Qpower_le_compat_l; [lia|exact Hv].
Qed.

Lemma calculateDelay_below
    (pow : Number.number -> Number.number -> Number.number)
    (random : Number.number) (m : ErrorRecoveryManager)
    (c : ErrorClassification) (n : Z) :
  let top := Number.of_Q (maxDelay (config m)) in
  Number.compare (calculateDelay pow random m c n) top <> Some Gt
  /\ (Number.is_nan (strategyDelay pow m c n) = false ->
      Number.leb Number.zero random = true ->
      Number.ltb random Number.one = true ->
      Number.is_finite (strategyDelay pow m c n) = true
      \/ Number.ltb Number.zero random = true ->
      Number.leb (calculateDelay pow random m c n) top = true).
Proof.
  intros top. unfold calculateDelay. fold top.
  pose proof (strategyDelay_bounded pow m c n) as B.
  set (d := strategyDelay pow m c n) in *.
  split; [apply NumberFacts.min_not_above|].
  intros Nd R0 R1 Hor.
  assert (Nt : Number.is_nan top = false)
    by apply (proj1 (NumberFacts.round_kind false _)).
  destruct (jitterEnabled (config m) && Number.ltb Number.zero d) eqn:J;
    [|apply NumberFacts.min_le; assumption].
  apply andb_true_iff in J. destruct J as [_ P].
  apply NumberFacts.min_le; [|exact Nt].
  destruct (Number.is_finite d) eqn:F.
  - apply NumberFacts.jitter_is_number; try assumption.
    apply NumberFacts.unit_range_finite; assumption.
  - destruct Hor as [Hf|Hr]; [discriminate|].
    destruct d as [| [] | |]; try discriminate.
    now rewrite NumberFacts.jitter_of_infinity.
Qed.

(** C4, as amended.  The delay is computed in doubles, with the power
    taken from [Math.pow].  For a base delay that is not negative, the
    delay of exponential backoff before jitter at an attempt is at most
    that at a later attempt, unless the later one is [NaN]; it is [NaN]
    only as the product of a base delay of zero and a power that
    overflowed to infinity.  This holds for every [Math.pow] that, at
    the two attempts, returns at least 1 and no less at the second than
    at the first; and so it holds for a multiplier of at least one and
    attempts from 1 on with a [Math.pow] that rounds correctly.  The
    delay returned, whatever the attempt and the draw, is never greater
    than the configured maximum; it is at most the maximum, for a draw
    of [Math.random] in its range, when the delay before jitter is
    finite, or infinite with a draw that is not zero.  (Otherwise the
    delay returned can be [NaN], which no comparison orders.) *)
Theorem C4_exponential_backoff
    (pow : Number.number -> Number.number -> Number.number)
    (m : ErrorRecoveryManager) (c : ErrorClassification) (a b : Z) :
  let power (pow : Number.number -> Number.number -> Number.number) n :=
    pow (Number.of_Q (backoffMultiplier (config m)))
        (Number.sub (Number.of_Z n) Number.one) in
  let grows (pow : Number.number -> Number.number -> Number.number) :=
    (Number.is_nan (strategyDelay pow m c b) = false ->
     Number.leb (strategyDelay pow m c a) (strategyDelay pow m c b) = true)
    /\ (Number.is_nan (strategyDelay pow m c b) = true ->
        Number.of_Q (baseDelay c) = Number.zero
        /\ power pow b = Number.Infinity false) in
  let top := Number.of_Q (maxDelay (config m)) in
  strategy c = EXPONENTIAL_BACKOFF ->
  (0 <= baseDelay c)%Q ->
  (Number.leb Number.one (power pow a) = true ->
   Number.leb (power pow a) (power pow b) = true ->
   grows pow)
  /\ ((1 <= backoffMultiplier (config m))%Q ->
      1 <= a <= b -> b < 2 ^ 53 ->
      grows Samples.Math_pow)
  /\ forall (random : Number.number) (n : Z),
       Number.compare (calculateDelay pow random m c n) top <> Some Gt
       /\ (Number.is_nan (strategyDelay pow m c n) = false ->
           Number.leb Number.zero random = true ->
           Number.ltb random Number.one = true ->
           Number.is_finite (strategyDelay pow m c n) = true
           \/ Number.ltb Number.zero random = true ->
           Number.leb (calculateDelay pow random m c n) top = true).
Proof.
  intros power grows top Hs Hb.
  assert (N : Number.nonnegative (Number.of_Q (baseDelay c)))
    by (apply NumberFacts.of_Q_nonneg; exact Hb).
  assert (G : forall pow,
             Number.leb Number.one (power pow a) = true ->
             Number.leb (power pow a) (power pow b) = true ->
             grows pow).
  { intros p Ha Hab.
    assert (E : forall n,
               strategyDelay p m c n
               = Number.mul (Number.of_Q (baseDelay c)) (power p n)).
    { intros n. unfold strategyDelay. now rewrite Hs. }
    unfold grows. rewrite !E. split.
    - intros Hn. now apply NumberFacts.mul_mono.
    - intros Hn. apply NumberFacts.mul_nan; try assumption.
      now apply NumberFacts.leb_one_trans with (power p a). }
  split; [apply G|]. split.
  - intros Hm Hab Hlt.
    destruct (Math_pow_grows (backoffMultiplier (config m)) a b Hm Hab Hlt)
      as [Ha Hb'].
    apply G; assumption.
  - intros random n. apply calculateDelay_below.
Qed.

(** *** The recursion of attemptRecovery ends *)

Lemma fuel_S (fuel : nat) (env : Z -> AttemptEnv) (m : ErrorRecoveryManager)
    (t : SSEErrorType) (a : Z) :
  attemptRecovery_fuel (S fuel) env m t a
  = match attemptRecovery_pass (env a) m t a with
    | Return result m' => Some (result, m')
    | TryAgain m' => attemptRecovery_fuel fuel env m' t (a + 1)
    end.
Proof. reflexivity. Qed.

Lemma fuel_enough (fuel : nat) (env : Z -> AttemptEnv)
    (m : ErrorRecoveryManager) (t : SSEErrorType) (a : Z) :
  retry_ceiling + 1 - a <= Z.of_nat fuel ->
  exists r, attemptRecovery_fuel (S fuel) env m t a = Some r.
Proof.
  revert m a; induction fuel as [|fuel IH]; intros m a H;
    simpl; unfold attemptRecovery_pass;
    pose proof (maxRetries_ceiling (networkMetrics (observe (env a) m)) t)
      as Hc;
    destruct (negb _ || _) eqn:E; try (eexists; reflexivity);
    apply orb_false_elim in E; destruct E as [_ E];
    apply Z.ltb_ge in E.
  - lia.
  - destruct (match circuitBreakerState (observe (env a) m) with
              | OPEN => _ | _ => false end); [eexists; reflexivity|].
    destruct (recovery (env a)); [eexists; reflexivity|].
    apply IH. lia.
Qed.

Lemma fuel_more (fuel : nat) (env : Z -> AttemptEnv)
    (m : ErrorRecoveryManager) (t : SSEErrorType) (a : Z)
    (r : bool * ErrorRecoveryManager) :
  attemptRecovery_fuel fuel env m t a = Some r ->
  attemptRecovery_fuel (S fuel) env m t a = Some r.
Proof.
  revert m a; induction fuel as [|fuel IH]; intros m a H; [discriminate|].
  simpl in H. change (attemptRecovery_fuel (S (S fuel)) env m t a)
    with (match attemptRecovery_pass (env a) m t a with
          | Return result m0 => Some (result, m0)
          | TryAgain m0 => attemptRecovery_fuel (S fuel) env m0 t (a + 1)
          end).
  destruct (attemptRecovery_pass (env a) m t a); [exact H|].
  now apply IH.
Qed.

Lemma fuel_any (f1 f2 : nat) (env : Z -> AttemptEnv)
    (m : ErrorRecoveryManager) (t : SSEErrorType) (a : Z)
    (r : bool * ErrorRecoveryManager) :
  (f1 <= f2)%nat ->
  attemptRecovery_fuel f1 env m t a = Some r ->
  attemptRecovery_fuel f2 env m t a = Some r.
Proof.
  induction 1 as [|f2 _ IH]; intros H; [exact H|].
  apply fuel_more, IH, H.
Qed.

(** [attemptRecovery] always returns. *)
Lemma attemptRecovery_returns (env : Z -> AttemptEnv)
    (m : ErrorRecoveryManager) (t : SSEErrorType) (a : Z) :
  exists r, attemptRecovery env m t a = Some r.
Proof. unfold attemptRecovery. apply fuel_enough. lia. Qed.

(** The equation of [attemptRecovery]: one pass, then the call again. *)
Lemma attemptRecovery_eq (env : Z -> AttemptEnv) (m : ErrorRecoveryManager)
    (t : SSEErrorType) (a : Z) :
  attemptRecovery env m t a
  = match attemptRecovery_pass (env a) m t a with
    | Return result m' => Some (result, m')
    | TryAgain m' => attemptRecovery env m' t (a + 1)
    end.
Proof.
  unfold attemptRecovery at 1. rewrite fuel_S.
  destruct (attemptRecovery_pass (env a) m t a) as [result m'|m'] eqn:P;
    [reflexivity|].
  destruct (attemptRecovery_returns env m' t (a + 1)) as [r Hr].
  rewrite Hr. unfold attemptRecovery in Hr.
  assert (Ha : a <= retry_ceiling).
  { unfold attemptRecovery_pass in P.
    pose proof (maxRetries_ceiling (networkMetrics (observe (env a) m)) t).
    destruct (negb _ || _) eqn:E; [discriminate|].
    apply orb_false_elim in E; destruct E as [_ E].
    apply Z.ltb_ge in E. lia. }
  apply (fuel_any (S (Z.to_nat (retry_ceiling + 1 - (a + 1)))));
    [lia|exact Hr].
Qed.

(** *** A call that is turned down *)

Lemma recoveryCalls_app (t1 t2 : list Action) :
  recoveryCalls (t1 ++ t2) = (recoveryCalls t1 + recoveryCalls t2)%nat.
Proof. unfold recoveryCalls. now rewrite filter_app, length_app. Qed.

Lemma exceeded_facts (now : Z) (m : ErrorRecoveryManager) :
  let m' := handleMaxRetriesExceeded now m in
  circuitBreakerState m' = OPEN
  /\ lastFailureTime m' = now
  /\ failureCount m' = failureCount m
  /\ recoveryAttempts m' = recoveryAttempts m
  /\ recoveryCalls (trace m') = recoveryCalls (trace m).
Proof.
  unfold handleMaxRetriesExceeded, setCircuitBreakerState.
  destruct m as [cfg [] fc lt ra nm tr]; simpl; repeat split;
    try reflexivity; rewrite recoveryCalls_app; cbn; lia.
Qed.

Lemma observe_facts (e : AttemptEnv) (m : ErrorRecoveryManager) :
  circuitBreakerState (observe e m) = circuitBreakerState m
  /\ lastFailureTime (observe e m) = lastFailureTime m
  /\ failureCount (observe e m) = failureCount m
  /\ recoveryAttempts (observe e m) = recoveryAttempts m
  /\ trace (observe e m) = trace m
  /\ config (observe e m) = config m.
Proof. unfold observe. destruct (monitor e); simpl; auto 10. Qed.

Lemma refused (env : Z -> AttemptEnv) (m : ErrorRecoveryManager)
    (t : SSEErrorType) (a : Z) :
  let c := classifyError (networkMetrics (observe (env a) m)) t in
  retryable c = false \/ maxRetries c < a ->
  exists m',
    attemptRecovery env m t a = Some (false, m')
    /\ circuitBreakerState m' = OPEN
    /\ lastFailureTime m' = now_exceeded (env a)
    /\ recoveryAttempts m' = recoveryAttempts m
    /\ recoveryCalls (trace m') = recoveryCalls (trace m).
Proof.
  intros c H.
  exists (handleMaxRetriesExceeded (now_exceeded (env a)) (observe (env a) m)).
  split.
  - rewrite attemptRecovery_eq. unfold attemptRecovery_pass. fold c.
    replace (negb (retryable c) || (maxRetries c <? a)) with true;
      [reflexivity|].
    symmetry. apply orb_true_iff. destruct H as [H|H].
    + left. now rewrite H.
    + right. now apply Z.ltb_lt.
  - destruct (exceeded_facts (now_exceeded (env a)) (observe (env a) m))
      as (H1 & H2 & _ & H4 & H5).
    destruct (observe_facts (env a) m) as (_ & _ & _ & O4 & O5 & _).
    rewrite H4, H5, O4, O5. auto.
Qed.

(** C10. A call for an error whose classification is not retryable, or
    with an attempt count above the classification's retries, returns
    false at once with the breaker open and the last-failure time set to
    the clock reading of the call; the recovery function is not run and
    no attempt is recorded. *)
Theorem C10_refusal_opens_breaker (env : Z -> AttemptEnv)
    (m : ErrorRecoveryManager) (t : SSEErrorType) (a : Z) :
  let c := classifyError (networkMetrics (observe (env a) m)) t in
  retryable c = false \/ maxRetries c < a ->
  exists m',
    attemptRecovery env m t a = Some (false, m')
    /\ circuitBreakerState m' = OPEN
    /\ lastFailureTime m' = now_exceeded (env a)
    /\ recoveryAttempts m' = recoveryAttempts m
    /\ recoveryCalls (trace m') = recoveryCalls (trace m).
Proof. exact (refused env m t a). Qed.

(** C6. A call for an [auth_error] or a [parse_error] returns false
    without running the recovery function, whatever the configuration,
    the state of the manager, the network quality and the attempt
    count. *)
Theorem C6_auth_and_parse_not_retried (env : Z -> AttemptEnv)
    (m : ErrorRecoveryManager) (t : SSEErrorType) (a : Z) :
  t = AUTH_ERROR \/ t = PARSE_ERROR ->
  exists m',
    attemptRecovery env m t a = Some (false, m')
    /\ recoveryCalls (trace m') = recoveryCalls (trace m)
    /\ recoveryAttempts m' = recoveryAttempts m.
Proof.
  intros H.
  assert (R : retryable
                (classifyError (networkMetrics (observe (env a) m)) t)
              = false).
  { apply classifyError_retryable. destruct H as [-> | ->]; reflexivity. }
  destruct (refused env m t a (or_introl R)) as (m' & E & _ & _ & Ha & Hc).
  exists m'. auto.
Qed.

(** *** The circuit breaker *)

Lemma increment_facts (now : Z) (m : ErrorRecoveryManager) :
  let m' := incrementFailureCount now m in
  failureCount m' = failureCount m + 1
  /\ (circuitBreakerThreshold (config m) <= failureCount m + 1 ->
      circuitBreakerState m' = OPEN /\ lastFailureTime m' = now)
  /\ (failureCount m + 1 < circuitBreakerThreshold (config m) ->
      circuitBreakerState m' = circuitBreakerState m
      /\ lastFailureTime m' = lastFailureTime m).
Proof.
  unfold incrementFailureCount, setCircuitBreakerState.
  destruct m as [cfg cb fc lt ra nm tr]. simpl.
  destruct (circuitBreakerThreshold cfg <=? fc + 1) eqn:E.
  - apply Z.leb_le in E. destruct cb; simpl; repeat split; auto; lia.
  - apply Z.leb_gt in E. simpl. repeat split; auto; lia.
Qed.

(** The manager after a pass. *)
Lemma pass_attempted (e : AttemptEnv) (m : ErrorRecoveryManager)
    (t : SSEErrorType) (a : Z) :
  let c := classifyError (networkMetrics (observe e m)) t in
  retryable c = true -> a <= maxRetries c ->
  circuitBreakerState m <> OPEN ->
  exists m1,
    circuitBreakerState m1 = circuitBreakerState m
    /\ failureCount m1 = failureCount m
    /\ lastFailureTime m1 = lastFailureTime m
    /\ config m1 = config m
    /\ attemptRecovery_pass e m t a
       = match recovery e with
         | Resolved =>
             Return true
               (match circuitBreakerState m with
                | HALF_OPEN =>
                    setCircuitBreakerState CLOSED (resetFailureCount m1)
                | _ => resetFailureCount m1
                end)
         | Rejected msg => TryAgain (incrementFailureCount (now_failure e) m1)
         end.
Proof.
  intros c Hr Ha Hs. unfold attemptRecovery_pass. fold c.
  rewrite Hr. apply Z.ltb_ge in Ha. rewrite Ha. cbn [negb orb].
  destruct (observe_facts e m) as (O1 & O2 & O3 & _ & _ & O6).
  rewrite O1.
  set (m0 := observe e m) in *.
  destruct m0 as [cfg cb fc lt ra nm tr]. simpl in O1, O2, O3, O6.
  rewrite <- O1, <- O2, <- O3, <- O6. rewrite <- O1 in Hs.
  destruct cb; try congruence;
    destruct (recovery e) as [|msg]; destruct (Number.ltb _ _);
    cbn [circuitBreakerState resetFailureCount push_attempt log
         with_failureCount];
    (eexists; split; [|split; [|split; [|split; [|reflexivity]]]]);
    reflexivity.
Qed.

(** C3, as amended. The breaker starts [closed].  A call that is allowed
    to attempt (retryable error, attempt count within the retries):
    - when the attempt fails, counts the failure, and with the count at
      the threshold or above opens the breaker and takes the clock
      reading as last-failure time, be the breaker [closed] or
      [half_open]; below the threshold a [closed] breaker stays
      [closed];
    - on an [open] breaker with the timeout elapsed, continues as a call
      on the [half_open] breaker;
    - when the attempt succeeds on a [half_open] breaker, closes it and
      clears the count.
    While the breaker is [open] and the timeout has not elapsed, every
    call returns false and runs no recovery function, records no attempt
    and leaves the count alone.  Whenever a pass opens a breaker that
    was not open, the last-failure time is a clock reading of that
    pass. *)
Theorem C3_circuit_breaker (e : AttemptEnv) (m : ErrorRecoveryManager)
    (t : SSEErrorType) (a : Z) :
  let c := classifyError (networkMetrics (observe e m)) t in
  let threshold := circuitBreakerThreshold (config m) in
  let timeout := circuitBreakerTimeout (config m) in
  let allowed := retryable c = true /\ a <= maxRetries c in
  let after r := match r with Return _ m' => m' | TryAgain m' => m' end in
  (forall cfg, circuitBreakerState (create cfg) = CLOSED)
  /\ (allowed -> circuitBreakerState m <> OPEN ->
      forall msg, recovery e = Rejected msg ->
      exists m',
        attemptRecovery_pass e m t a = TryAgain m'
        /\ failureCount m' = failureCount m + 1
        /\ (threshold <= failureCount m + 1 ->
            circuitBreakerState m' = OPEN
            /\ lastFailureTime m' = now_failure e)
        /\ (circuitBreakerState m = CLOSED ->
            failureCount m + 1 < threshold ->
            circuitBreakerState m' = CLOSED))
  /\ (circuitBreakerState m = OPEN ->
      now_check e - lastFailureTime m < timeout ->
      exists m',
        attemptRecovery_pass e m t a = Return false m'
        /\ circuitBreakerState m' = OPEN
        /\ failureCount m' = failureCount m
        /\ recoveryAttempts m' = recoveryAttempts m
        /\ recoveryCalls (trace m') = recoveryCalls (trace m))
  /\ (allowed -> circuitBreakerState m = OPEN ->
      timeout <= now_check e - lastFailureTime m ->
      circuitBreakerState (setCircuitBreakerState HALF_OPEN m) = HALF_OPEN
      /\ attemptRecovery_pass e m t a
         = attemptRecovery_pass e (setCircuitBreakerState HALF_OPEN m) t a)
  /\ (allowed -> circuitBreakerState m = HALF_OPEN ->
      recovery e = Resolved ->
      exists m',
        attemptRecovery_pass e m t a = Return true m'
        /\ circuitBreakerState m' = CLOSED /\ failureCount m' = 0)
  /\ (circuitBreakerState m <> OPEN ->
      circuitBreakerState (after (attemptRecovery_pass e m t a)) = OPEN ->
      lastFailureTime (after (attemptRecovery_pass e m t a)) = now_exceeded e
      \/ lastFailureTime (after (attemptRecovery_pass e m t a))
         = now_failure e).
Proof.
  intros c threshold timeout allowed after.
  destruct (observe_facts e m) as (O1 & O2 & O3 & O4 & O5 & O6).
  split; [reflexivity|]. split; [|split; [|split; [|split]]].
  - intros [Hr Ha] Hs msg Hm.
    destruct (pass_attempted e m t a Hr Ha Hs) as (m1 & S1 & F1 & L1 & C1 & P).
    rewrite Hm in P. eexists. split; [exact P|].
    destruct (increment_facts (now_failure e) m1) as (I1 & I2 & I3).
    rewrite F1, C1 in *. fold threshold in I2, I3.
    split; [exact I1|]. split; [exact I2|].
    intros Hc Hlt. destruct (I3 Hlt) as [-> _]. congruence.
  - intros Hs Hlt. unfold attemptRecovery_pass. fold c.
    destruct (negb (retryable c) || (maxRetries c <? a)).
    + eexists. split; [reflexivity|].
      destruct (exceeded_facts (now_exceeded e) (observe e m))
        as (H1 & _ & H3 & H4 & H5).
      rewrite H3, H4, H5, O3, O4, O5. auto.
    + rewrite O1, Hs, O2, O6. fold timeout.
      apply Z.ltb_lt in Hlt. rewrite Hlt.
      eexists. split; [reflexivity|]. rewrite O1, O3, O4, O5. auto.
  - intros [Hr Ha] Hs Hge. split.
    + unfold setCircuitBreakerState. rewrite Hs. reflexivity.
    + unfold attemptRecovery_pass. fold c.
      assert (N : networkMetrics
                    (observe e (setCircuitBreakerState HALF_OPEN m))
                  = networkMetrics (observe e m)).
      { unfold observe, setCircuitBreakerState. rewrite Hs.
        destruct (monitor e); reflexivity. }
      rewrite N. fold c. rewrite Hr. apply Z.ltb_ge in Ha. rewrite Ha.
      cbn [negb orb].
      assert (E : setCircuitBreakerState HALF_OPEN (observe e m)
                  = observe e (setCircuitBreakerState HALF_OPEN m)).
      { unfold observe, setCircuitBreakerState. rewrite Hs.
        destruct (monitor e); simpl; rewrite Hs; reflexivity. }
      rewrite <- E.
      assert (S2 : circuitBreakerState
                     (setCircuitBreakerState HALF_OPEN (observe e m))
                   = HALF_OPEN).
      { unfold setCircuitBreakerState. rewrite O1, Hs. reflexivity. }
      rewrite O1, Hs, O2, O6, S2. fold timeout.
      apply Z.ltb_ge in Hge. rewrite Hge. reflexivity.
  - intros [Hr Ha] Hs Hm.
    assert (Hn : circuitBreakerState m <> OPEN) by congruence.
    destruct (pass_attempted e m t a Hr Ha Hn) as (m1 & S1 & F1 & L1 & C1 & P).
    rewrite Hm, Hs in P. eexists. split; [exact P|].
    unfold setCircuitBreakerState, resetFailureCount. simpl. rewrite S1, Hs.
    simpl. auto.
  - intros Hs. unfold attemptRecovery_pass. fold c.
    destruct (negb (retryable c) || (maxRetries c <? a)) eqn:G.
    + intros _. left.
      destruct (exceeded_facts (now_exceeded e) (observe e m))
        as (_ & H2 & _). exact H2.
    + apply orb_false_elim in G. destruct G as [Hr Ha].
      apply negb_false_iff in Hr. apply Z.ltb_ge in Ha.
      destruct (pass_attempted e m t a Hr Ha Hs)
        as (m1 & S1 & F1 & L1 & C1 & P).
      unfold attemptRecovery_pass in P. fold c in P.
      rewrite Hr in P. apply Z.ltb_ge in Ha. rewrite Ha in P.
      cbn [negb orb] in P. rewrite P.
      destruct (recovery e) as [|msg].
      * unfold after. intros H. exfalso. revert H.
        unfold setCircuitBreakerState, resetFailureCount.
        destruct (circuitBreakerState m) eqn:S0; simpl; rewrite ?S1;
          simpl; congruence.
      * unfold after. intros H. right.
        destruct (increment_facts (now_failure e) m1) as (I1 & I2 & I3).
        destruct (Z_lt_le_dec (failureCount m1 + 1)
                    (circuitBreakerThreshold (config m1))) as [Hlt|Hle].
        -- destruct (I3 Hlt) as [I4 _]. congruence.
        -- apply I2, Hle.
Qed.


(** *** Worked instances *)

(** The fifth failure in a row opens a closed breaker; an open breaker
    turns a call down before its timeout; after the timeout the call
    goes on as one on a half-open breaker, where a success closes and a
    failure at the threshold reopens. *)
Lemma C3_witness :
  let down := Rejected (lit "down") in
  (exists m',
      attemptRecovery_pass (Samples.env_at 100 down 1)
        (Samples.manager_at CLOSED 4 0) CONNECTION_FAILED 1 = TryAgain m'
      /\ circuitBreakerState m' = OPEN /\ lastFailureTime m' = 100)
  /\ (exists m',
         attemptRecovery_pass (Samples.env_at 200 down 1)
           (Samples.manager_at OPEN 5 100) CONNECTION_FAILED 1
         = Return false m'
         /\ recoveryAttempts m' = []
         /\ recoveryCalls (trace m') = 0%nat)
  /\ attemptRecovery_pass (Samples.env_at 60100 Resolved 1)
       (Samples.manager_at OPEN 5 100) CONNECTION_FAILED 1
     = attemptRecovery_pass (Samples.env_at 60100 Resolved 1)
         (setCircuitBreakerState HALF_OPEN (Samples.manager_at OPEN 5 100))
         CONNECTION_FAILED 1
  /\ (exists m',
         attemptRecovery_pass (Samples.env_at 60100 Resolved 1)
           (Samples.manager_at HALF_OPEN 5 100) CONNECTION_FAILED 1
         = Return true m'
         /\ circuitBreakerState m' = CLOSED /\ failureCount m' = 0)
  /\ (exists m',
         attemptRecovery_pass (Samples.env_at 60100 down 1)
           (Samples.manager_at HALF_OPEN 5 100) CONNECTION_FAILED 1
         = TryAgain m'
         /\ circuitBreakerState m' = OPEN /\ lastFailureTime m' = 60100)
  /\ (exists m',
         attemptRecovery_pass (Samples.env_at 100 down 1)
           (Samples.manager_at CLOSED 0 0) CONNECTION_FAILED 1 = TryAgain m'
         /\ failureCount m' = 1 /\ circuitBreakerState m' = CLOSED)
  /\ (let after r := match r with Return _ m' => m' | TryAgain m' => m' end in
      lastFailureTime
        (after (attemptRecovery_pass (Samples.env_at 100 down 1)
                  (Samples.manager_at CLOSED 4 0) CONNECTION_FAILED 1))
      = 100).
Proof.
  intros down.
  split; [|split; [|split; [|split; [|split; [|split]]]]].
  - destruct (C3_circuit_breaker (Samples.env_at 100 down 1)
                (Samples.manager_at CLOSED 4 0) CONNECTION_FAILED 1)
      as (_ & H & _).
    destruct (H ltac:(split; [reflexivity|simpl; lia]) ltac:(discriminate)
                (lit "down") eq_refl)
      as (m' & P & _ & O & _).
    exists m'. split; [exact P|]. apply O. simpl. lia.
  - destruct (C3_circuit_breaker (Samples.env_at 200 down 1)
                (Samples.manager_at OPEN 5 100) CONNECTION_FAILED 1)
      as (_ & _ & H & _).
    destruct (H eq_refl ltac:(simpl; lia)) as (m' & P & _ & _ & R & C).
    exists m'. split; [exact P|]. split; [exact R|exact C].
  - destruct (C3_circuit_breaker (Samples.env_at 60100 Resolved 1)
                (Samples.manager_at OPEN 5 100) CONNECTION_FAILED 1)
      as (_ & _ & _ & H & _).
    destruct (H ltac:(split; [reflexivity|simpl; lia]) eq_refl
                ltac:(simpl; lia)) as [_ E].
    exact E.
  - destruct (C3_circuit_breaker (Samples.env_at 60100 Resolved 1)
                (Samples.manager_at HALF_OPEN 5 100) CONNECTION_FAILED 1)
      as (_ & _ & _ & _ & H & _).
    exact (H ltac:(split; [reflexivity|simpl; lia]) eq_refl eq_refl).
  - destruct (C3_circuit_breaker (Samples.env_at 60100 down 1)
                (Samples.manager_at HALF_OPEN 5 100) CONNECTION_FAILED 1)
      as (_ & H & _).
    destruct (H ltac:(split; [reflexivity|simpl; lia]) ltac:(discriminate)
                (lit "down") eq_refl)
      as (m' & P & _ & O & _).
    exists m'. split; [exact P|]. apply O. simpl. lia.
  - destruct (C3_circuit_breaker (Samples.env_at 100 down 1)
                (Samples.manager_at CLOSED 0 0) CONNECTION_FAILED 1)
      as (_ & H & _).
    destruct (H ltac:(split; [reflexivity|simpl; lia]) ltac:(discriminate)
                (lit "down") eq_refl)
      as (m' & P & F & _ & C).
    exists m'. split; [exact P|]. split; [exact F|].
    apply C; [reflexivity|simpl; lia].
  - intros after.
    destruct (C3_circuit_breaker (Samples.env_at 100 down 1)
                (Samples.manager_at CLOSED 4 0) CONNECTION_FAILED 1)
      as (_ & _ & _ & _ & _ & H).
    destruct (H ltac:(discriminate) eq_refl) as [E|E]; exact E.
Defined.

(** On a fresh manager, one call with an [auth_error] opens the closed
    breaker although no failure has been counted, the threshold being
    five.  Once the timeout has elapsed, a call with a [connection_lost]
    error moves the breaker to half-open, and the attempt, which fails,
    leaves it half-open: the count, one, is below the threshold, and the
    last-failure time is not renewed. *)
Lemma C3_counterexample :
  let fresh := create DEFAULT_RECOVERY_CONFIG in
  exists opened probing : ErrorRecoveryManager,
    circuitBreakerState fresh = CLOSED
    /\ attemptRecovery (Samples.env_at 0 Resolved) fresh AUTH_ERROR 1
       = Some (false, opened)
    /\ circuitBreakerState opened = OPEN
    /\ failureCount opened = 0
    /\ circuitBreakerThreshold (config opened) = 5
    /\ attemptRecovery_pass
         (Samples.env_at 60000 (Rejected (lit "down")) 1) opened
         CONNECTION_LOST 1
       = TryAgain probing
    /\ recoveryCalls (trace probing) = 1%nat
    /\ circuitBreakerState probing = HALF_OPEN
    /\ failureCount probing = 1
    /\ lastFailureTime probing = 0.
Proof.
  eexists. eexists.
  split; [reflexivity|]. split; [vm_compute; reflexivity|].
  split; [reflexivity|]. split; [reflexivity|]. split; [reflexivity|].
  split; [vm_compute; reflexivity|].
  repeat split.
Qed.

(** An exponential backoff with a base delay of zero, at attempt 1025
    and the default multiplier 2: [Math.pow(2, 1024)] is [Infinity], the
    delay [0 * Infinity] is [NaN], [Math.min(NaN, 30000)] is [NaN], and
    [NaN] is at most nothing. *)
Lemma C4_counterexample :
  let pow := Samples.Math_pow in
  let m := create DEFAULT_RECOVERY_CONFIG in
  let c := {| type := CONNECTION_FAILED; severity := high; retryable := true;
              strategy := EXPONENTIAL_BACKOFF; maxRetries := 5;
              baseDelay := 0 |} in
  (0 <= baseDelay c)%Q
  /\ (1 <= backoffMultiplier (config m))%Q
  /\ pow (Number.of_Q (backoffMultiplier (config m)))
         (Number.sub (Number.of_Z 1025) Number.one)
     = Number.Infinity false
  /\ strategyDelay pow m c 1 = Number.Zero false
  /\ strategyDelay pow m c 1025 = Number.NaN
  /\ Number.leb (strategyDelay pow m c 1) (strategyDelay pow m c 1025)
     = false
  /\ calculateDelay pow (Number.of_Q (1 # 2)) m c 1025 = Number.NaN
  /\ Number.leb (calculateDelay pow (Number.of_Q (1 # 2)) m c 1025)
       (Number.of_Q (maxDelay (config m))) = false.
Proof.
  intros pow m c.
  split; [unfold Qle; simpl; lia|]. split; [unfold Qle; simpl; lia|].
  vm_compute. repeat split.
Qed.

(** The delays of the first attempts after a failed connection, before
    jitter and as returned for a draw of one half. *)
Example backoff_sample :
  let pow := Samples.Math_pow in
  let m := create DEFAULT_RECOVERY_CONFIG in
  let c := ERROR_CLASSIFICATION_RULES CONNECTION_FAILED in
  map (strategyDelay pow m c) [1; 2; 3; 4; 5; 6]
  = map Number.of_Z [2000; 4000; 8000; 16000; 32000; 64000]
  /\ map (calculateDelay pow (Number.of_Q (1 # 2)) m c) [1; 2; 3; 4; 5]
     = map Number.of_Z [2100; 4200; 8400; 16800; 30000].
Proof. vm_compute. split; reflexivity. Qed.

Lemma C4_witness :
  let pow := Samples.Math_pow in
  let m := create DEFAULT_RECOVERY_CONFIG in
  let c := ERROR_CLASSIFICATION_RULES CONNECTION_FAILED in
  let power (pow : Number.number -> Number.number -> Number.number) n :=
    pow (Number.of_Q (backoffMultiplier (config m)))
        (Number.sub (Number.of_Z n) Number.one) in
  let grows (pow : Number.number -> Number.number -> Number.number) :=
    (Number.is_nan (strategyDelay pow m c 3) = false ->
     Number.leb (strategyDelay pow m c 1) (strategyDelay pow m c 3) = true)
    /\ (Number.is_nan (strategyDelay pow m c 3) = true ->
        Number.of_Q (baseDelay c) = Number.zero
        /\ power pow 3 = Number.Infinity false) in
  let top := Number.of_Q (maxDelay (config m)) in
  (Number.leb Number.one (power pow 1) = true ->
   Number.leb (power pow 1) (power pow 3) = true ->
   grows pow)
  /\ ((1 <= backoffMultiplier (config m))%Q ->
      1 <= 1 <= 3 -> 3 < 2 ^ 53 ->
      grows Samples.Math_pow)
  /\ forall (random : Number.number) (n : Z),
       Number.compare (calculateDelay pow random m c n) top <> Some Gt
       /\ (Number.is_nan (strategyDelay pow m c n) = false ->
           Number.leb Number.zero random = true ->
           Number.ltb random Number.one = true ->
           Number.is_finite (strategyDelay pow m c n) = true
           \/ Number.ltb Number.zero random = true ->
           Number.leb (calculateDelay pow random m c n) top = true).
Proof.
  intros pow m c.
  apply (C4_exponential_backoff pow m c 1 3).
  - reflexivity.
  - unfold Qle. simpl. lia.
Defined.

Lemma C6_witness :
  exists m',
    attemptRecovery (Samples.env_at 0 Resolved)
      (create DEFAULT_RECOVERY_CONFIG) AUTH_ERROR 1 = Some (false, m')
    /\ recoveryCalls (trace m') = 0%nat
    /\ recoveryAttempts m' = [].
Proof.
  apply (C6_auth_and_parse_not_retried (Samples.env_at 0 Resolved)
           (create DEFAULT_RECOVERY_CONFIG) AUTH_ERROR 1).
  left. reflexivity.
Defined.

Lemma C10_witness :
  exists m',
    attemptRecovery (Samples.env_at 7 Resolved)
      (create DEFAULT_RECOVERY_CONFIG) CONNECTION_FAILED 6
    = Some (false, m')
    /\ circuitBreakerState m' = OPEN
    /\ lastFailureTime m' = 7
    /\ recoveryAttempts m' = []
    /\ recoveryCalls (trace m') = 0%nat.
Proof.
  apply (C10_refusal_opens_breaker (Samples.env_at 7 Resolved)
           (create DEFAULT_RECOVERY_CONFIG) CONNECTION_FAILED 6).
  right. simpl. lia.
Defined.

End RecoveryFacts.

(** ** More on the stream processor *)

Module StreamingMore.
Import Js Sse Streaming Reading LineFacts Observations StreamingFacts.

Lemma callbacks_app (t1 t2 : list Action) :
  callbacks (t1 ++ t2) = callbacks t1 ++ callbacks t2.
Proof.
  induction t1 as [|a t1 IH]; simpl; [reflexivity|].
  destruct a; simpl; now rewrite ?IH.
Qed.

Lemma notified_app (t1 t2 : list Action) :
  notified (t1 ++ t2) = notified t1 ++ notified t2.
Proof.
  induction t1 as [|a t1 IH]; simpl; [reflexivity|].
  destruct a; simpl; now rewrite ?IH.
Qed.

Lemma chain_app (a b c : SSEConnectionState)
    (l1 l2 : list SSEConnectionState) :
  chain a l1 b -> chain b l2 c -> chain a (l1 ++ l2) c.
Proof.
  revert a; induction l1 as [|x l1 IH]; intros a H1 H2; simpl in *.
  - now subst.
  - destruct H1 as [Hx H1]. split; [exact Hx|]. now apply IH.
Qed.

Lemma watchdogs_app (t1 t2 : list Action) :
  watchdogs (t1 ++ t2) = watchdogs t1 + watchdogs t2.
Proof.
  induction t1 as [|a t1 IH]; [reflexivity|].
  rewrite <- app_comm_cons.
  destruct a as [| | |t|t|]; try destruct t; cbn [watchdogs];
    rewrite IH; lia.
Qed.

Lemma cleared_app (t1 t2 : list Action) :
  cleared (t1 ++ t2) = cleared t1 ++ cleared t2.
Proof.
  induction t1 as [|a t1 IH]; simpl; [reflexivity|].
  destruct a; simpl; now rewrite ?IH.
Qed.

Ltac absurd_type :=
  match goal with
  | H1 : negb (truthy ?v) = true, H2 : strictEq ?v _ = true |- _ =>
      apply strictEq_true in H2; rewrite H2 in H1; discriminate H1
  | H1 : strictEq ?v ?a = true, H2 : strictEq ?v ?b = true |- _ =>
      apply strictEq_true in H1; apply strictEq_true in H2;
      rewrite H1 in H2; vm_compute in H2; discriminate H2
  end.

Section Platform.

Variable JSON_parse : jsstring -> option value.
Variable ToString : value -> jsstring.
Variable processSources : value -> option value.

Let line := processSSELine JSON_parse ToString processSources.
Let loop := readLoop JSON_parse ToString processSources.
Let stream := processStream JSON_parse ToString processSources.
Let start := startStream JSON_parse ToString processSources.
Let run_timed := run_timed JSON_parse ToString processSources.
Let payload := line_payload JSON_parse.
Let text := token_text ToString.

(** *** Payloads and message of a body *)

Lemma line_reference (now : Z) (s : StreamingService) (l : jsstring) :
  dispatched (trace (line now s l))
  = dispatched (trace s) ++ payloads_of JSON_parse [l]
  /\ currentMessage (line now s l)
     = currentMessage s
       ++ List.concat (map text (payloads_of JSON_parse [l])).
Proof.
  destruct s as [cfg [st conn lt rc err] rt ht msg so ci cl cg tr].
  unfold line, processSSELine, payloads_of, text, line_payload. simpl.
  destruct (isEmpty (trim l) || startsWith (trim l) (lit ":"));
    [simpl; now rewrite !app_nil_r|].
  destruct (startsWith (trim l) (lit "data: "));
    [|simpl; now rewrite !app_nil_r].
  destruct (JsString.eqb _ _).
  - unfold_handlers; break_ifs; simpl;
      rewrite ?dispatched_app, ?app_nil_r; auto.
  - destruct (JSON_parse _) as [parsed|];
      [|simpl; rewrite ?dispatched_app, ?app_nil_r; auto].
    unfold token_text, content_text, append.
    destruct parsed; unfold_handlers; break_ifs; simpl;
      try absurd_type;
      rewrite ?dispatched_app; simpl; rewrite ?app_nil_r; auto.
Qed.

Lemma payloads_cons (l : jsstring) (ls : list jsstring) :
  payloads_of JSON_parse (l :: ls)
  = payloads_of JSON_parse [l] ++ payloads_of JSON_parse ls.
Proof. unfold payloads_of. simpl. now rewrite app_nil_r. Qed.

Lemma run_reference (lines : list (Z * jsstring)) (s : StreamingService) :
  dispatched (trace (run_timed lines s))
  = dispatched (trace s) ++ payloads_of JSON_parse (map snd lines)
  /\ currentMessage (run_timed lines s)
     = currentMessage s
       ++ List.concat (map text (payloads_of JSON_parse (map snd lines))).
Proof.
  revert s; induction lines as [|[now l] lines IH]; intros s.
  - simpl. now rewrite !app_nil_r.
  - change (run_timed ((now, l) :: lines) s)
      with (run_timed lines (line now s l)).
    destruct (IH (line now s l)) as [E1 E2].
    destruct (line_reference now s l) as [L1 L2].
    change (map snd ((now, l) :: lines)) with (l :: map snd lines).
    rewrite (payloads_cons l (map snd lines)). split.
    + rewrite E1, L1. now rewrite app_assoc.
    + rewrite E2, L2, map_app, concat_app. now rewrite app_assoc.
Qed.

Lemma update_quiet (st : SSEConnectionState) (s : StreamingService) :
  dispatched (trace (updateConnectionState st s)) = dispatched (trace s)
  /\ currentMessage (updateConnectionState st s) = currentMessage s.
Proof.
  unfold updateConnectionState. break_ifs; simpl;
    rewrite ?dispatched_app; simpl; rewrite ?app_nil_r; auto.
Qed.

Lemma finish_quiet (s : StreamingService) (d : TextDecoder.t)
    (b : jsstring) (e : StreamEnd) :
  dispatched (trace (loop s d b [] e)) = dispatched (trace s)
  /\ currentMessage (loop s d b [] e) = currentMessage s.
Proof.
  destruct s as [cfg [st conn lt rc err] rt ht msg so ci cl cg tr].
  destruct e as [|now m]; simpl.
  - apply update_quiet.
  - unfold createSSEError; unfold_handlers; destruct st; simpl;
      break_ifs; simpl; rewrite ?dispatched_app; simpl;
      rewrite ?app_nil_r; auto.
Qed.

Lemma stream_reference (s : StreamingService)
    (reads : list (Z * list byte)) (e : StreamEnd) :
  let payloads := body_payloads JSON_parse (List.concat (map snd reads)) in
  dispatched (trace (stream s reads e)) = dispatched (trace s) ++ payloads
  /\ currentMessage (stream s reads e)
     = currentMessage s ++ List.concat (map text payloads).
Proof.
  intros payloads.
  assert (E : stream s reads e
              = log ReleaseLock
                  (loop (run_timed (fed TextDecoder.create [] reads)
                           (updateConnectionState CONNECTED s))
                     TextDecoder.create [] [] e)).
  { unfold stream, processStream. f_equal. apply readLoop_fed. }
  rewrite E.
  assert (L : forall x, dispatched (trace (log ReleaseLock x))
                        = dispatched (trace x)
                        /\ currentMessage (log ReleaseLock x)
                           = currentMessage x).
  { intros x. simpl. rewrite dispatched_app. simpl.
    now rewrite app_nil_r. }
  destruct (L (loop (run_timed (fed TextDecoder.create [] reads)
                       (updateConnectionState CONNECTED s))
                 TextDecoder.create [] [] e)) as [-> ->].
  destruct (finish_quiet
              (run_timed (fed TextDecoder.create [] reads)
                 (updateConnectionState CONNECTED s))
              TextDecoder.create [] e) as [-> ->].
  destruct (run_reference (fed TextDecoder.create [] reads)
              (updateConnectionState CONNECTED s)) as [-> ->].
  destruct (update_quiet CONNECTED s) as [-> ->].
  rewrite fed_whole. auto.
Qed.

(** X1. The payloads that a run hands to the dispatcher are those of the
    data lines of the body's text that a line feed completes, in order,
    whatever the chunks; and the message grows by the contents of the
    token payloads among them. *)
Theorem stream_payloads_and_message (s : StreamingService)
    (reads : list (Z * list byte)) (e : StreamEnd) :
  let payloads := body_payloads JSON_parse (List.concat (map snd reads)) in
  dispatched (trace (stream s reads e)) = dispatched (trace s) ++ payloads
  /\ currentMessage (stream s reads e)
     = currentMessage s ++ List.concat (map text payloads).
Proof. exact (stream_reference s reads e). Qed.



(** *** Accumulators and callbacks *)

Let grows := grows ToString.

Lemma grows_refl (s : StreamingService) : grows s s [].
Proof. unfold grows, Observations.grows. simpl. now rewrite !app_nil_r. Qed.

Lemma grows_trans (s s1 s2 : StreamingService) (d1 d2 : list Action) :
  grows s s1 d1 -> grows s1 s2 d2 -> grows s s2 (d1 ++ d2).
Proof.
  intros (A1 & A2 & A3 & A4 & A5 & A6) (B1 & B2 & B3 & B4 & B5 & B6).
  unfold grows, Observations.grows.
  rewrite callbacks_app, !filter_app, map_app, concat_app.
  rewrite B1, B2, B3, B4, B5, B6, A1, A2, A3, A4, A5, A6.
  now rewrite !app_assoc.
Qed.

Lemma line_emits (now : Z) (s : StreamingService) (l : jsstring) :
  trace (line now s l) = trace s ++ trace (line now (with_trace [] s) l).
Proof.
  rewrite <- (after_with_trace s) at 1.
  unfold line. rewrite frame_line. reflexivity.
Qed.

Lemma line_grows (now : Z) (s : StreamingService) (l : jsstring) :
  grows s (line now s l) (trace (line now (with_trace [] s) l)).
Proof.
  split; [apply line_emits|].
  destruct s as [cfg [st conn lt rc err] rt ht msg so ci cl cg tr].
  unfold line, processSSELine, with_trace. simpl.
  destruct (isEmpty (trim l) || startsWith (trim l) (lit ":"));
    [simpl; now rewrite !app_nil_r|].
  destruct (startsWith (trim l) (lit "data: "));
    [|simpl; now rewrite !app_nil_r].
  destruct (JsString.eqb _ _).
  - unfold_handlers; break_ifs; simpl; now rewrite !app_nil_r.
  - destruct (JSON_parse _) as [parsed|];
      [|simpl; now rewrite !app_nil_r].
    unfold event_text, content_text, append.
    destruct parsed; unfold_handlers; break_ifs; simpl;
      rewrite ?app_nil_r; auto 10.
Qed.

Lemma run_grows (lines : list (Z * jsstring)) (s : StreamingService) :
  exists d, grows s (run_timed lines s) d.
Proof.
  revert s; induction lines as [|[now l] lines IH]; intros s.
  - exists []. apply grows_refl.
  - change (run_timed ((now, l) :: lines) s)
      with (run_timed lines (line now s l)).
    destruct (IH (line now s l)) as [d2 H2].
    eexists. eapply grows_trans; [apply line_grows|exact H2].
Qed.

Lemma update_grows (st : SSEConnectionState) (s : StreamingService) :
  exists d, grows s (updateConnectionState st s) d.
Proof.
  unfold updateConnectionState.
  destruct (negb _); [|exists []; apply grows_refl].
  eexists. unfold grows, Observations.grows.
  split; [destruct st; reflexivity|].
  destruct st; simpl; now rewrite !app_nil_r.
Qed.

Lemma finish_grows (s : StreamingService) (d0 : TextDecoder.t)
    (b : jsstring) (e : StreamEnd) :
  exists d, grows s (loop s d0 b [] e) d.
Proof.
  destruct e as [|now m]; [apply update_grows|].
  destruct s as [cfg [st conn lt rc err] rt ht msg so ci cl cg tr].
  unfold loop. simpl. unfold createSSEError.
  unfold_handlers; destruct st; simpl; break_ifs; simpl;
    eexists; unfold grows, Observations.grows; simpl;
    (split; [rewrite <- ?app_assoc; reflexivity|]);
    simpl; now rewrite !app_nil_r.
Qed.

(** X2. Over a run, every accumulator only grows, and by exactly what
    the callbacks of its kind were passed, in order: the sources, the
    citations, the claims and the claim groups by the events, the
    message by the contents of the token events.  A caller that keeps
    its own copies from the callbacks holds what the service holds. *)
Theorem accumulators_follow_callbacks (s : StreamingService)
    (reads : list (Z * list byte)) (e : StreamEnd) :
  exists d : list Action,
    trace (stream s reads e) = trace s ++ d
    /\ currentMessage (stream s reads e)
       = currentMessage s
         ++ List.concat (map (event_text ToString) (callbacks d))
    /\ currentSources (stream s reads e)
       = currentSources s ++ filter is_sources (callbacks d)
    /\ currentCitations (stream s reads e)
       = currentCitations s ++ filter is_citation (callbacks d)
    /\ currentClaims (stream s reads e)
       = currentClaims s ++ filter is_claim (callbacks d)
    /\ currentClaimsGroup (stream s reads e)
       = currentClaimsGroup s ++ filter is_claims (callbacks d).
Proof.
  assert (E : stream s reads e
              = log ReleaseLock
                  (loop (run_timed (fed TextDecoder.create [] reads)
                           (updateConnectionState CONNECTED s))
                     TextDecoder.create [] [] e)).
  { unfold stream, processStream. f_equal. apply readLoop_fed. }
  rewrite E.
  destruct (update_grows CONNECTED s) as [d1 H1].
  destruct (run_grows (fed TextDecoder.create [] reads)
              (updateConnectionState CONNECTED s)) as [d2 H2].
  destruct (finish_grows
              (run_timed (fed TextDecoder.create [] reads)
                 (updateConnectionState CONNECTED s))
              TextDecoder.create [] e) as [d3 H3].
  pose proof (grows_trans _ _ _ _ _ (grows_trans _ _ _ _ _ H1 H2) H3) as H.
  exists ((d1 ++ d2) ++ d3 ++ [ReleaseLock]).
  eapply (grows_trans _ _ _ _ [ReleaseLock]) in H;
    [rewrite <- app_assoc in H; exact H|].
  unfold grows, Observations.grows. simpl. now rewrite !app_nil_r.
Qed.


(** *** State changes and watchdogs *)

Lemma tracks_refl (s : StreamingService) : tracks s s [].
Proof.
  unfold tracks. simpl. rewrite app_nil_r.
  split; [reflexivity|]. split; [reflexivity|].
  intros H. split; [exact H|lia].
Qed.

Lemma tracks_trans (s s1 s2 : StreamingService) (d1 d2 : list Action) :
  tracks s s1 d1 -> tracks s1 s2 d2 -> tracks s s2 (d1 ++ d2).
Proof.
  intros (A1 & A2 & A3) (B1 & B2 & B3). unfold tracks.
  rewrite notified_app, watchdogs_app, B1, A1, app_assoc.
  split; [reflexivity|]. split; [eapply chain_app; eassumption|].
  intros H. destruct (A3 H) as [H1 E1]. destruct (B3 H1) as [H2 E2].
  split; [exact H2|lia].
Qed.

Ltac tracks_same :=
  simpl; split; [reflexivity|];
  let H := fresh in intros H; split; [exact H|lia].

Ltac tracks_close :=
  unfold timers_sorted; simpl;
  (split; [repeat split; (discriminate || reflexivity)|]);
  intros [? ?];
  repeat match goal with
         | t : option Timer |- _ => destruct t as [[]|]
         | t : Timer |- _ => destruct t
         end;
  simpl in *; try contradiction; repeat split; auto; try lia.

Ltac tracks_tail :=
  eexists; unfold tracks; simpl;
  (split; [first [rewrite <- ?app_assoc; reflexivity
                 |symmetry; apply app_nil_r]|]);
  tracks_close.

Lemma line_tracks (now : Z) (s : StreamingService) (l : jsstring) :
  tracks s (line now s l) (trace (line now (with_trace [] s) l)).
Proof.
  split; [apply line_emits|].
  destruct s as [cfg [st conn lt rc err] rt ht msg so ci cl cg tr].
  unfold line, processSSELine, with_trace. simpl.
  destruct (isEmpty (trim l) || startsWith (trim l) (lit ":"));
    [tracks_same|].
  destruct (startsWith (trim l) (lit "data: "));
    [|tracks_same].
  destruct (JsString.eqb _ _).
  - destruct st; unfold_handlers; tracks_close.
  - destruct (JSON_parse _) as [parsed|];
      [|tracks_same].
    destruct st, parsed; unfold_handlers; break_ifs; tracks_close.
Qed.

Lemma run_tracks (lines : list (Z * jsstring)) (s : StreamingService) :
  exists d, tracks s (run_timed lines s) d.
Proof.
  revert s; induction lines as [|[now l] lines IH]; intros s.
  - exists []. apply tracks_refl.
  - change (run_timed ((now, l) :: lines) s)
      with (run_timed lines (line now s l)).
    destruct (IH (line now s l)) as [d2 H2].
    eexists. eapply tracks_trans; [apply line_tracks|exact H2].
Qed.

Lemma update_tracks (st : SSEConnectionState) (s : StreamingService) :
  exists d, tracks s (updateConnectionState st s) d.
Proof.
  destruct s as [cfg [st0 conn lt rc err] rt ht msg so ci cl cg tr].
  destruct st0, st; unfold updateConnectionState; simpl; tracks_tail.
Qed.

Lemma log_tracks (a : Action) (s : StreamingService) :
  notified [a] = [] -> watchdogs [a] = 0 ->
  tracks s (log a s) [a].
Proof.
  intros Hn Hw. unfold tracks. rewrite Hn, Hw. simpl.
  split; [reflexivity|]. split; [reflexivity|].
  intros H. split; [exact H|lia].
Qed.

Lemma error_tracks (now : Z) (err : SSEConnectionError)
    (s : StreamingService) :
  exists d, tracks s (handleConnectionError now err s) d.
Proof.
  destruct s as [cfg [st conn lt rc e0] rt ht msg so ci cl cg tr].
  destruct st; unfold_handlers; break_ifs; tracks_tail.
Qed.

Lemma finish_tracks (s : StreamingService) (d0 : TextDecoder.t)
    (b : jsstring) (e : StreamEnd) :
  exists d, tracks s (loop s d0 b [] e) d.
Proof.
  destruct e as [|now m]; [apply update_tracks|apply error_tracks].
Qed.

Lemma close_tracks (s : StreamingService) :
  exists d, tracks s (closeConnection s) d.
Proof.
  destruct s as [cfg [st conn lt rc e0] rt ht msg so ci cl cg tr].
  unfold closeConnection. simpl.
  destruct st, rt as [[]|], ht as [[]|]; unfold_handlers; tracks_tail.
Qed.

Lemma stream_tracks (s : StreamingService) (reads : list (Z * list byte))
    (e : StreamEnd) :
  exists d, tracks s (stream s reads e) d.
Proof.
  assert (E : stream s reads e
              = log ReleaseLock
                  (loop (run_timed (fed TextDecoder.create [] reads)
                           (updateConnectionState CONNECTED s))
                     TextDecoder.create [] [] e)).
  { unfold stream, processStream. f_equal. apply readLoop_fed. }
  rewrite E.
  destruct (update_tracks CONNECTED s) as [d1 H1].
  destruct (run_tracks (fed TextDecoder.create [] reads)
              (updateConnectionState CONNECTED s)) as [d2 H2].
  destruct (finish_tracks
              (run_timed (fed TextDecoder.create [] reads)
                 (updateConnectionState CONNECTED s))
              TextDecoder.create [] e) as [d3 H3].
  eexists.
  eapply tracks_trans;
    [eapply tracks_trans; [eapply tracks_trans; [exact H1|exact H2]|exact H3]|].
  apply log_tracks; reflexivity.
Qed.

Lemma reset_tracks (s : StreamingService) :
  tracks s (with_accumulators [] [] [] [] [] s) [].
Proof.
  unfold tracks. simpl. rewrite app_nil_r.
  split; [reflexivity|]. split; [reflexivity|].
  intros H. split; [exact H|lia].
Qed.

Lemma start_tracks (now : Z) (s : StreamingService) (r : FetchResult) :
  exists d, tracks s (start now s r) d.
Proof.
  unfold start, startStream.
  destruct (close_tracks s) as [d1 H1].
  pose proof (reset_tracks (closeConnection s)) as H2.
  destruct (update_tracks CONNECTING
              (with_accumulators [] [] [] [] [] (closeConnection s)))
    as [d3 H3].
  pose proof (tracks_trans _ _ _ _ _ (tracks_trans _ _ _ _ _ H1 H2) H3) as H.
  set (s3 := updateConnectionState CONNECTING
               (with_accumulators [] [] [] [] [] (closeConnection s))) in *.
  assert (F : forall m, exists d,
             tracks s3 (handleConnectionError now
                          (createSSEError CONNECTION_FAILED m) s3) d)
    by (intros m; apply error_tracks).
  destruct r as [[m|]|statusLine| |reads e].
  - destruct (F m) as [d4 H4]. eexists. eapply tracks_trans; eassumption.
  - destruct (F (lit "Connection failed")) as [d4 H4].
    eexists. eapply tracks_trans; eassumption.
  - destruct (F statusLine) as [d4 H4].
    eexists. eapply tracks_trans; eassumption.
  - destruct (F (lit "No response body for streaming")) as [d4 H4].
    eexists. eapply tracks_trans; eassumption.
  - destruct (stream_tracks s3 reads e) as [d4 H4].
    eexists. eapply tracks_trans; eassumption.
Qed.

(** X3. [updateConnectionState], in any state of the service, calls
    [onConnectionStateChange] exactly when the state it is given differs
    from the current one, once and with that state.  And the states
    passed to [onConnectionStateChange] form a chain from the state
    before to the state after, over a whole [startStream] (from closing
    the old connection to the end of the body or the failure of the
    request) and over each single line, processed in any state of the
    service: every call reports a state that differs from the one
    reported before it, the first from the state the service was in, and
    the last call reports the state the service is left in; with no
    call, the state is the one before.  So the listener is never told
    the state it was told last, and after each line and at the end of
    the run the state it was told last is the state of the service. *)
Theorem notifications_follow_the_state (now : Z) (s : StreamingService)
    (r : FetchResult) :
  (forall st : SSEConnectionState,
      state (connectionStatus (updateConnectionState st s)) = st
      /\ trace (updateConnectionState st s)
         = trace s
           ++ (if SSEConnectionState_eqb (state (connectionStatus s)) st
               then [] else [OnConnectionStateChange st]))
  /\ (exists d : list Action,
        trace (start now s r) = trace s ++ d
        /\ chain (state (connectionStatus s)) (notified d)
             (state (connectionStatus (start now s r))))
  /\ (forall l : jsstring,
        exists d : list Action,
          trace (line now s l) = trace s ++ d
          /\ chain (state (connectionStatus s)) (notified d)
               (state (connectionStatus (line now s l)))).
Proof.
  split; [|split].
  - intros st.
    destruct s as [cfg [st0 conn lt rc err] rt ht msg so ci cl cg tr].
    unfold updateConnectionState. simpl.
    destruct st0, st; simpl; rewrite ?app_nil_r; split; reflexivity.
  - destruct (start_tracks now s r) as (d & H1 & H2 & _).
    exists d. auto.
  - intros l. destruct (line_tracks now s l) as (H1 & H2 & _).
    eexists. split; [exact H1|exact H2].
Qed.

(** X4. A service whose stored timers are of the kind of their fields
    keeps them so over a whole [startStream], and the watchdog timers
    armed and not cleared during it are as many as the stored watchdog
    makes up for: a watchdog is cleared before another is armed, and
    closing clears the one that is stored. *)
Theorem at_most_one_watchdog (now : Z) (s : StreamingService)
    (r : FetchResult) :
  timers_sorted s ->
  exists d : list Action,
    trace (start now s r) = trace s ++ d
    /\ timers_sorted (start now s r)
    /\ watchdogs d
       = stored (heartbeatTimeout (start now s r))
         - stored (heartbeatTimeout s).
Proof.
  intros H. destruct (start_tracks now s r) as (d & H1 & _ & H3).
  exists d. destruct (H3 H) as [H4 H5]. auto.
Qed.


(** *** The flag, and what lines leave alone *)

Lemma flag_update (st : SSEConnectionState) (s : StreamingService) :
  flag_agrees s -> flag_agrees (updateConnectionState st s).
Proof.
  destruct s as [cfg [st0 conn lt rc err] rt ht msg so ci cl cg tr].
  unfold flag_agrees. simpl. intros ->.
  destruct st0, st; reflexivity.
Qed.

Lemma flag_line (now : Z) (s : StreamingService) (l : jsstring) :
  flag_agrees s -> flag_agrees (line now s l).
Proof.
  destruct s as [cfg [st conn lt rc err] rt ht msg so ci cl cg tr].
  unfold flag_agrees. simpl. intros ->.
  unfold line, processSSELine. simpl.
  destruct (isEmpty (trim l) || startsWith (trim l) (lit ":"));
    [reflexivity|].
  destruct (startsWith (trim l) (lit "data: ")); [|reflexivity].
  destruct (JsString.eqb _ _).
  - destruct st; reflexivity.
  - destruct (JSON_parse _) as [parsed|]; [|reflexivity].
    destruct st, parsed; unfold_handlers; break_ifs; reflexivity.
Qed.

Lemma flag_run (lines : list (Z * jsstring)) (s : StreamingService) :
  flag_agrees s -> flag_agrees (run_timed lines s).
Proof.
  revert s; induction lines as [|[now l] lines IH]; intros s H;
    [exact H|].
  change (run_timed ((now, l) :: lines) s)
    with (run_timed lines (line now s l)).
  apply IH, flag_line, H.
Qed.

Lemma flag_error (now : Z) (err : SSEConnectionError)
    (s : StreamingService) :
  flag_agrees s -> flag_agrees (handleConnectionError now err s).
Proof.
  destruct s as [cfg [st conn lt rc e0] rt ht msg so ci cl cg tr].
  unfold flag_agrees. simpl. intros ->.
  destruct st; unfold_handlers; break_ifs; reflexivity.
Qed.

Lemma flag_close (s : StreamingService) :
  flag_agrees s -> flag_agrees (closeConnection s).
Proof.
  destruct s as [cfg [st conn lt rc e0] rt ht msg so ci cl cg tr].
  unfold flag_agrees, closeConnection. simpl. intros ->.
  destruct st, rt, ht; reflexivity.
Qed.

Lemma flag_stream (s : StreamingService) (reads : list (Z * list byte))
    (e : StreamEnd) :
  flag_agrees s -> flag_agrees (stream s reads e).
Proof.
  intros H. unfold stream, processStream.
  rewrite (readLoop_fed JSON_parse ToString processSources).
  assert (L : forall x, flag_agrees x -> flag_agrees (log ReleaseLock x))
    by (intros x Hx; exact Hx).
  apply L.
  set (x := Reading.run_timed _ _ _ _ _).
  assert (Hx : flag_agrees x) by (apply flag_run, flag_update, H).
  destruct e as [|now m]; simpl.
  - apply flag_update, Hx.
  - apply flag_error, Hx.
Qed.

(** X5. The [connected] flag of the status says whether the state is
    [connected], and every operation keeps it that way: closing, a
    stream from its first chunk to its end or failure, and a whole
    [startStream]. *)
Theorem connected_flag_agrees_with_state (now : Z) (s : StreamingService)
    (r : FetchResult) (reads : list (Z * list byte)) (e : StreamEnd) :
  flag_agrees s ->
  flag_agrees (closeConnection s)
  /\ flag_agrees (stream s reads e)
  /\ flag_agrees (start now s r).
Proof.
  intros H. split; [apply flag_close, H|]. split; [apply flag_stream, H|].
  unfold start, startStream.
  set (s3 := updateConnectionState CONNECTING _).
  assert (H3 : flag_agrees s3).
  { apply flag_update.
    assert (R : forall x, flag_agrees x
                -> flag_agrees (with_accumulators [] [] [] [] [] x))
      by (intros x Hx; exact Hx).
    apply R, flag_close, H. }
  destruct r as [[m|]|statusLine| |reads' e'];
    try (apply flag_error, H3).
  apply flag_stream, H3.
Qed.

Lemma state_line (now : Z) (s : StreamingService) (l : jsstring) :
  state (connectionStatus (line now s l)) = state (connectionStatus s)
  \/ state (connectionStatus (line now s l)) = DISCONNECTED.
Proof.
  destruct s as [cfg [st conn lt rc err] rt ht msg so ci cl cg tr].
  unfold line, processSSELine. simpl.
  destruct (isEmpty (trim l) || startsWith (trim l) (lit ":")); [auto|].
  destruct (startsWith (trim l) (lit "data: ")); [|auto].
  destruct (JsString.eqb _ _).
  - destruct st; simpl; auto.
  - destruct (JSON_parse _) as [parsed|]; [|auto].
    destruct st, parsed; unfold_handlers; break_ifs; simpl; auto.
Qed.

(** X6. Lines never change the connection state except to
    [disconnected], set no error, change no retry count and arm no
    reconnection: an [error] payload from the server is passed to the
    error callback and leaves the connection as it is. *)
Theorem lines_only_disconnect (lines : list (Z * jsstring))
    (s : StreamingService) :
  (state (connectionStatus (run_timed lines s)) = state (connectionStatus s)
   \/ state (connectionStatus (run_timed lines s)) = DISCONNECTED)
  /\ error (connectionStatus (run_timed lines s))
     = error (connectionStatus s)
  /\ retryCount (connectionStatus (run_timed lines s))
     = retryCount (connectionStatus s)
  /\ retryTimeout (run_timed lines s) = retryTimeout s.
Proof.
  split; [|apply run_timed_keeps_recovery].
  revert s; induction lines as [|[now l] lines IH]; intros s; [now left|].
  change (run_timed ((now, l) :: lines) s)
    with (run_timed lines (line now s l)).
  destruct (IH (line now s l)) as [E|E]; [|now right].
  rewrite E. apply state_line.
Qed.

(** *** The watchdog *)

Lemma heartbeat_line (now : Z) (s : StreamingService) (l : jsstring) :
  config (line now s l) = config s
  /\ heartbeatTimeout (line now s l)
     = if existsb is_heartbeat (payloads_of JSON_parse [l])
       then Some (HeartbeatTimer (heartbeatInterval (config s) * 2))
       else heartbeatTimeout s.
Proof.
  destruct s as [cfg [st conn lt rc err] rt ht msg so ci cl cg tr].
  unfold line, processSSELine, payloads_of, line_payload, is_heartbeat.
  simpl.
  destruct (isEmpty (trim l) || startsWith (trim l) (lit ":")); [auto|].
  destruct (startsWith (trim l) (lit "data: ")); [|auto].
  destruct (JsString.eqb _ _).
  - destruct st; simpl; auto.
  - destruct (JSON_parse _) as [parsed|]; [|auto].
    cbn [existsb app]. rewrite orb_false_r.
    destruct st, parsed; unfold_handlers; break_ifs; simpl;
      try absurd_type; auto.
Qed.

Lemma heartbeat_run (lines : list (Z * jsstring)) (s : StreamingService) :
  config (run_timed lines s) = config s
  /\ heartbeatTimeout (run_timed lines s)
     = if existsb is_heartbeat (payloads_of JSON_parse (map snd lines))
       then Some (HeartbeatTimer (heartbeatInterval (config s) * 2))
       else heartbeatTimeout s.
Proof.
  revert s; induction lines as [|[now l] lines IH]; intros s; [auto|].
  change (run_timed ((now, l) :: lines) s)
    with (run_timed lines (line now s l)).
  change (map snd ((now, l) :: lines)) with (l :: map snd lines).
  rewrite (payloads_cons l (map snd lines)), existsb_app.
  destruct (IH (line now s l)) as [-> ->].
  destruct (heartbeat_line now s l) as [-> ->].
  split; [reflexivity|].
  destruct (existsb is_heartbeat (payloads_of JSON_parse (map snd lines)));
    [now rewrite orb_true_r|now rewrite orb_false_r].
Qed.

Lemma heartbeat_keep_update (st : SSEConnectionState)
    (s : StreamingService) :
  config (updateConnectionState st s) = config s
  /\ heartbeatTimeout (updateConnectionState st s) = heartbeatTimeout s.
Proof. unfold updateConnectionState. break_ifs; auto. Qed.

Lemma heartbeat_keep_finish (s : StreamingService) (d : TextDecoder.t)
    (b : jsstring) (e : StreamEnd) :
  heartbeatTimeout (loop s d b [] e) = heartbeatTimeout s.
Proof.
  destruct s as [cfg [st conn lt rc err] rt ht msg so ci cl cg tr].
  destruct e as [|now m]; simpl.
  - unfold updateConnectionState. break_ifs; auto.
  - unfold createSSEError. destruct st; unfold_handlers; break_ifs; auto.
Qed.

(** X7. The watchdog is armed by heartbeat payloads and by nothing else,
    and the end of the stream does not clear it: after a stream the
    stored watchdog is the one of twice the heartbeat interval when the
    body held a heartbeat payload, and the one stored before when it
    held none.  A stream without heartbeats is never watched. *)
Theorem watchdog_follows_heartbeats (s : StreamingService)
    (reads : list (Z * list byte)) (e : StreamEnd) :
  heartbeatTimeout (stream s reads e)
  = if existsb is_heartbeat
         (body_payloads JSON_parse (List.concat (map snd reads)))
    then Some (HeartbeatTimer (heartbeatInterval (config s) * 2))
    else heartbeatTimeout s.
Proof.
  unfold stream, processStream.
  rewrite (readLoop_fed JSON_parse ToString processSources).
  change (heartbeatTimeout (log ReleaseLock ?x)) with (heartbeatTimeout x).
  fold loop. rewrite heartbeat_keep_finish. fold run_timed.
  destruct (heartbeat_run (fed TextDecoder.create [] reads)
              (updateConnectionState CONNECTED s)) as [_ ->].
  destruct (heartbeat_keep_update CONNECTED s) as [-> ->].
  rewrite fed_whole. reflexivity.
Qed.


(** *** Lines that are passed over *)

Lemma trimStart_suffix (x : jsstring) :
  exists a, x = a ++ trimStart x.
Proof.
  induction x as [|c x [a IH]]; [exists []; reflexivity|].
  simpl. destruct (is_space c).
  - exists (c :: a). simpl. now rewrite <- IH.
  - exists []. reflexivity.
Qed.

Lemma trimEnd_prefix (x : jsstring) :
  exists b, x = trimEnd x ++ b.
Proof.
  unfold trimEnd. destruct (trimStart_suffix (rev x)) as [a H].
  exists (rev a). rewrite <- rev_app_distr, <- H. now rewrite rev_involutive.
Qed.

Lemma startsWith_longer (x b p : jsstring) :
  startsWith x p = true -> startsWith (x ++ b) p = true.
Proof.
  revert x; induction p as [|y p IH]; intros x H.
  - destruct (x ++ b); reflexivity.
  - destruct x as [|c x]; simpl in *; [discriminate|].
    apply andb_true_iff in H. destruct H as [-> H]. simpl. now apply IH.
Qed.

(** X8. A line that, trimmed, does not begin with [data: ] is passed
    over without a trace: blank lines, comments, the other fields of the
    wire format, and also a data field written without the space after
    the colon. *)
Theorem lines_without_data_prefix_are_ignored (now : Z)
    (s : StreamingService) :
  (forall l : jsstring,
      startsWith (trim l) (lit "data: ") = false -> line now s l = s)
  /\ (forall p : jsstring,
         startsWith p (lit " ") = false ->
         line now s (lit "data:" ++ p) = s).
Proof.
  assert (G : forall l : jsstring,
             startsWith (trim l) (lit "data: ") = false -> line now s l = s).
  { intros l H. unfold line, processSSELine. rewrite H.
    destruct (isEmpty (trim l) || startsWith (trim l) (lit ":"));
      reflexivity. }
  split; [exact G|].
  intros p Hp. apply G.
  destruct (startsWith (trim (lit "data:" ++ p)) (lit "data: ")) eqn:E;
    [|reflexivity].
  exfalso. unfold trim in E.
  change (trimStart (lit "data:" ++ p)) with (lit "data:" ++ p) in E.
  destruct (trimEnd_prefix (lit "data:" ++ p)) as [b Hb].
  apply (startsWith_longer _ b) in E. rewrite <- Hb in E.
  change (startsWith (lit "data:" ++ p) (lit "data: "))
    with (startsWith p (lit " ")) in E.
  congruence.
Qed.

End Platform.
(** *** Worked instances *)

(** A service that stores a watchdog starts a stream of two heartbeats:
    closing clears the stored watchdog, the first heartbeat arms one, the
    second clears that and arms another, which stays stored. *)
Lemma at_most_one_watchdog_witness :
  let s := MoreSamples.watched in
  let s' :=
    MoreSamples.startStream 5 s
      (Body [(6, Samples.bytes_of
                   (MoreSamples.heartbeat_data_line
                    ++ MoreSamples.heartbeat_data_line))]
         EndOfInput) in
  heartbeatTimeout s = Some (HeartbeatTimer 60000)
  /\ heartbeatTimeout s' = Some (HeartbeatTimer 60000)
  /\ MoreSamples.timer_calls (skipn (List.length (trace s)) (trace s'))
     = [ClearTimeout (HeartbeatTimer 60000);
        SetTimeout (HeartbeatTimer 60000);
        ClearTimeout (HeartbeatTimer 60000);
        SetTimeout (HeartbeatTimer 60000)]
  /\ exists d : list Action,
       trace s' = trace s ++ d
       /\ timers_sorted s'
       /\ watchdogs d
          = stored (heartbeatTimeout s') - stored (heartbeatTimeout s).
Proof.
  intros s s'.
  split; [vm_compute; reflexivity|].
  split; [vm_compute; reflexivity|].
  split; [vm_compute; reflexivity|].
  apply (at_most_one_watchdog MoreSamples.JSON_parse Samples.ToString
           Samples.processSources 5 s).
  vm_compute. split; exact I.
Defined.

Lemma connected_flag_witness :
  let s := create DEFAULT_SSE_CONFIG in
  flag_agrees (closeConnection s)
  /\ flag_agrees (Samples.processStream s [] EndOfInput)
  /\ flag_agrees (Samples.startStream 0 s NoBody).
Proof.
  intros s.
  apply (connected_flag_agrees_with_state Samples.JSON_parse
           Samples.ToString Samples.processSources 0 s NoBody [] EndOfInput).
  reflexivity.
Defined.

Lemma lines_without_data_prefix_witness :
  let s := create DEFAULT_SSE_CONFIG in
  Samples.processSSELine 0 s (lit "event: token") = s
  /\ Samples.processSSELine 0 s (lit "data:{}") = s.
Proof.
  intros s.
  destruct (lines_without_data_prefix_are_ignored Samples.JSON_parse
              Samples.ToString Samples.processSources 0 s) as [A B].
  split; [apply A; reflexivity|apply (B (lit "{}")); reflexivity].
Defined.

End StreamingMore.

(** ** The life of a connection *)

Module ConnectionFacts.
Import Js Sse Streaming Reading LineFacts Observations StreamingFacts.
Import StreamingMore.

(** X9. Closing leaves the service [disconnected] with no stored timer
    and with its accumulators as they were, clears the timers that were
    stored and no other, and closing again changes nothing. *)
Theorem closeConnection_settles (s : StreamingService) :
  let closed := closeConnection s in
  state (connectionStatus closed) = DISCONNECTED
  /\ retryTimeout closed = None
  /\ heartbeatTimeout closed = None
  /\ currentMessage closed = currentMessage s
  /\ closeConnection closed = closed
  /\ exists d : list Action,
       trace closed = trace s ++ d
       /\ cleared d
          = match retryTimeout s with Some t => [t] | None => [] end
            ++ match heartbeatTimeout s with Some t => [t] | None => [] end.
Proof.
  destruct s as [cfg [st conn lt rc e0] rt ht msg so ci cl cg tr].
  unfold closeConnection. simpl.
  destruct st, rt, ht; unfold_handlers;
    (repeat (split; [reflexivity|]));
    eexists;
    (split; [first [rewrite <- ?app_assoc; reflexivity
                   |symmetry; apply app_nil_r]|]);
    reflexivity.
Qed.


Section Platform.

Variable JSON_parse : jsstring -> option value.
Variable ToString : value -> jsstring.
Variable processSources : value -> option value.

Let line := processSSELine JSON_parse ToString processSources.
Let stream := processStream JSON_parse ToString processSources.
Let start := startStream JSON_parse ToString processSources.
Let grows := grows ToString.

Lemma error_grows (now : Z) (err : SSEConnectionError)
    (s : StreamingService) :
  exists d, grows s (handleConnectionError now err s) d.
Proof.
  destruct s as [cfg [st conn lt rc e0] rt ht msg so ci cl cg tr].
  destruct st; unfold_handlers; break_ifs; simpl;
    eexists; unfold grows, Observations.grows; simpl;
    (split; [rewrite <- ?app_assoc; reflexivity|]);
    simpl; now rewrite !app_nil_r.
Qed.

Lemma stream_grows (s : StreamingService) (reads : list (Z * list byte))
    (e : StreamEnd) :
  exists d, grows s (stream s reads e) d.
Proof.
  assert (E : stream s reads e
              = log ReleaseLock
                  (readLoop JSON_parse ToString processSources
                     (run_timed JSON_parse ToString processSources
                        (fed TextDecoder.create [] reads)
                        (updateConnectionState CONNECTED s))
                     TextDecoder.create [] [] e)).
  { unfold stream, processStream. f_equal. apply readLoop_fed. }
  rewrite E.
  destruct (update_grows ToString CONNECTED s) as [d1 H1].
  destruct (run_grows JSON_parse ToString processSources
              (fed TextDecoder.create [] reads)
              (updateConnectionState CONNECTED s)) as [d2 H2].
  destruct (finish_grows JSON_parse ToString processSources
              (run_timed JSON_parse ToString processSources
                 (fed TextDecoder.create [] reads)
                 (updateConnectionState CONNECTED s))
              TextDecoder.create [] e) as [d3 H3].
  pose proof (grows_trans ToString _ _ _ _ _
                (grows_trans ToString _ _ _ _ _ H1 H2) H3) as H.
  exists ((d1 ++ d2) ++ d3 ++ [ReleaseLock]).
  eapply (grows_trans ToString _ _ _ _ [ReleaseLock]) in H;
    [rewrite <- app_assoc in H; exact H|].
  unfold Observations.grows. simpl. now rewrite !app_nil_r.
Qed.

(** The service as [startStream] has it when it turns to the request:
    closed, emptied and [connecting]. *)
Lemma prelude (s : StreamingService) :
  let s3 := updateConnectionState CONNECTING
              (with_accumulators [] [] [] [] [] (closeConnection s)) in
  exists d0,
    trace s3 = trace s ++ d0 /\ callbacks d0 = []
    /\ currentMessage s3 = [] /\ currentSources s3 = []
    /\ currentCitations s3 = [] /\ currentClaims s3 = []
    /\ currentClaimsGroup s3 = [].
Proof.
  destruct s as [cfg [st conn lt rc e0] rt ht msg so ci cl cg tr].
  unfold closeConnection. simpl.
  destruct st, rt, ht; unfold_handlers; eexists;
    (split; [rewrite <- ?app_assoc; reflexivity|]);
    repeat split.
Qed.

(** X11. After [startStream] the accumulators hold what the callbacks
    were passed during this [startStream], and nothing of an earlier
    stream: the message is the contents of its token events, the lists
    are its events. *)
Theorem startStream_starts_afresh (now : Z) (s : StreamingService)
    (r : FetchResult) :
  exists d : list Action,
    trace (start now s r) = trace s ++ d
    /\ currentMessage (start now s r)
       = List.concat (map (event_text ToString) (callbacks d))
    /\ currentSources (start now s r) = filter is_sources (callbacks d)
    /\ currentCitations (start now s r) = filter is_citation (callbacks d)
    /\ currentClaims (start now s r) = filter is_claim (callbacks d)
    /\ currentClaimsGroup (start now s r) = filter is_claims (callbacks d).
Proof.
  unfold start, startStream.
  destruct (prelude s) as (d0 & T0 & C0 & M0 & A1 & A2 & A3 & A4).
  set (s3 := updateConnectionState CONNECTING _) in *.
  assert (G : forall s4 d4, grows s3 s4 d4 ->
             trace s4 = trace s ++ d0 ++ d4
             /\ currentMessage s4
                = List.concat
                    (map (event_text ToString) (callbacks (d0 ++ d4)))
             /\ currentSources s4 = filter is_sources (callbacks (d0 ++ d4))
             /\ currentCitations s4
                = filter is_citation (callbacks (d0 ++ d4))
             /\ currentClaims s4 = filter is_claim (callbacks (d0 ++ d4))
             /\ currentClaimsGroup s4
                = filter is_claims (callbacks (d0 ++ d4))).
  { intros s4 d4 (B1 & B2 & B3 & B4 & B5 & B6).
    rewrite callbacks_app, C0, B1, B2, B3, B4, B5, B6, T0, M0, A1, A2, A3,
      A4. simpl. now rewrite app_assoc. }
  assert (F : forall m, exists d4,
             grows s3 (handleConnectionError now
                         (createSSEError CONNECTION_FAILED m) s3) d4)
    by (intros m; apply error_grows).
  destruct r as [[m|]|statusLine| |reads e].
  - destruct (F m) as [d4 H4]. exists (d0 ++ d4). apply G, H4.
  - destruct (F (lit "Connection failed")) as [d4 H4].
    exists (d0 ++ d4). apply G, H4.
  - destruct (F statusLine) as [d4 H4]. exists (d0 ++ d4). apply G, H4.
  - destruct (F (lit "No response body for streaming")) as [d4 H4].
    exists (d0 ++ d4). apply G, H4.
  - destruct (stream_grows s3 reads e) as [d4 H4].
    exists (d0 ++ d4). apply G, H4.
Qed.

(** *** Requests that fail one after the other *)

Lemma failed_start (now : Z) (s : StreamingService) (m : option jsstring) :
  let s' := start now s (FetchRejected m) in
  let count := retryCount (connectionStatus s) in
  config s' = config s
  /\ retryCount (connectionStatus s')
     = (if enableReconnect (config s) && (count <? maxRetries (config s))
        then count + 1 else count)
  /\ state (connectionStatus s')
     = (if enableReconnect (config s) && (count <? maxRetries (config s))
        then RECONNECTING else ERROR).
Proof.
  destruct s as [cfg [st conn lt rc e0] rt ht msg so ci cl cg tr].
  unfold start, startStream, closeConnection. simpl.
  destruct m, st, rt, ht; unfold createSSEError; unfold_handlers;
    destruct (enableReconnect cfg && (rc <? maxRetries cfg));
    repeat split.
Qed.

(** X12. Requests that fail one after the other use the retry count up:
    with reconnection enabled, after [n] failed [startStream] calls on a
    new service the retry count is [n] or the maximum, whichever is
    smaller; the service is [reconnecting] as long as the maximum was
    not reached before the last call and in [error] from then on.
    Nothing but a stream that connects sets the count back. *)
Theorem failed_requests_use_up_retries (cfg : SSEConfig)
    (attempts : list (Z * option jsstring)) :
  enableReconnect cfg = true ->
  0 <= maxRetries cfg ->
  let s' := fold_left
              (fun s a => start (fst a) s (FetchRejected (snd a)))
              attempts (create cfg) in
  let n := Z.of_nat (List.length attempts) in
  retryCount (connectionStatus s') = Z.min n (maxRetries cfg)
  /\ (0 < n ->
      state (connectionStatus s')
      = if n <=? maxRetries cfg then RECONNECTING else ERROR).
Proof.
  intros He Hm.
  assert (G : forall (l : list (Z * option jsstring)) (s : StreamingService),
             config s = cfg ->
             0 <= retryCount (connectionStatus s) <= maxRetries cfg ->
             let s' := fold_left
                         (fun s a => start (fst a) s (FetchRejected (snd a)))
                         l s in
             let n := Z.of_nat (List.length l) in
             config s' = cfg
             /\ retryCount (connectionStatus s')
                = Z.min (retryCount (connectionStatus s) + n) (maxRetries cfg)
             /\ (0 < n ->
                 state (connectionStatus s')
                 = if retryCount (connectionStatus s) + n
                      <=? maxRetries cfg
                   then RECONNECTING else ERROR)).
  { induction l as [|[now m] l IH]; intros s Hc Hr.
    - simpl. split; [exact Hc|]. split; [lia|lia].
    - cbn [fold_left fst snd].
      destruct (failed_start now s m) as (C1 & R1 & S1).
      rewrite Hc, He in *. cbn [andb] in *.
      set (s1 := start now s (FetchRejected m)) in *.
      assert (Hr1 : 0 <= retryCount (connectionStatus s1) <= maxRetries cfg).
      { rewrite R1. destruct (Z.ltb_spec (retryCount (connectionStatus s))
                                 (maxRetries cfg)); lia. }
      destruct (IH s1 C1 Hr1) as (C2 & R2 & S2).
      split; [exact C2|].
      replace (Z.of_nat (List.length ((now, m) :: l)))
        with (1 + Z.of_nat (List.length l))
        by (cbn [List.length]; lia).
      split.
      + rewrite R2, R1.
        destruct (Z.ltb_spec (retryCount (connectionStatus s))
                    (maxRetries cfg)); lia.
      + intros _. destruct l as [|a l'].
        * cbn [fold_left List.length Z.of_nat] in *.
          rewrite S1.
          destruct (Z.ltb_spec (retryCount (connectionStatus s))
                      (maxRetries cfg));
            destruct (Z.leb_spec (retryCount (connectionStatus s) + (1 + 0))
                        (maxRetries cfg)); try reflexivity; lia.
        * rewrite S2 by (cbn [List.length]; lia). rewrite R1.
          cbn [List.length]. rewrite Nat2Z.inj_succ.
          destruct (Z.ltb_spec (retryCount (connectionStatus s))
                      (maxRetries cfg));
            repeat match goal with
                   | |- context [?a <=? ?b] => destruct (Z.leb_spec a b)
                   end; try reflexivity; lia. }
  intros s' n.
  destruct (G attempts (create cfg) eq_refl ltac:(simpl; lia))
    as (_ & R & S).
  simpl in R, S. fold s' n in R, S. split; [exact R|exact S].
Qed.

End Platform.

(** *** Worked instances *)


Lemma failed_requests_witness :
  let attempts := [(1, None); (2, None); (3, None); (4, None); (5, None);
                   (6, None); (7, None)] in
  let s' := fold_left
              (fun s a => Samples.startStream (fst a) s (FetchRejected (snd a)))
              attempts (create DEFAULT_SSE_CONFIG) in
  retryCount (connectionStatus s') = Z.min 7 5
  /\ (0 < 7 ->
      state (connectionStatus s') = if 7 <=? 5 then RECONNECTING else ERROR).
Proof.
  intros attempts s'.
  apply (failed_requests_use_up_retries Samples.JSON_parse Samples.ToString
           Samples.processSources DEFAULT_SSE_CONFIG attempts).
  - reflexivity.
  - simpl. lia.
Defined.

End ConnectionFacts.

(** ** More on error recovery *)

Module RecoveryMore.
Import Sse Recovery NetworkMonitor RecoveryFacts.

(** *** What a pass leaves behind *)

(** The network never buys a retryable error more attempts than the
    table gives its type. *)
Lemma retryable_cap (metrics : option NetworkMetrics) (t : SSEErrorType) :
  retryable (classifyError metrics t) = true ->
  retryable (ERROR_CLASSIFICATION_RULES t) = true
  /\ 1 <= maxRetries (classifyError metrics t)
     <= maxRetries (ERROR_CLASSIFICATION_RULES t).
Proof.
  unfold classifyError.
  destruct (currentQuality metrics) as [[]|]; destruct t; simpl;
    rewrite ?floor_half; try discriminate; intros _;
    (split; [reflexivity|]); vm_compute; split; discriminate.
Qed.

Lemma set_breaker_facts (c : CircuitBreakerState) (m : ErrorRecoveryManager) :
  let m' := setCircuitBreakerState c m in
  circuitBreakerState m' = c
  /\ failureCount m' = failureCount m
  /\ lastFailureTime m' = lastFailureTime m
  /\ recoveryAttempts m' = recoveryAttempts m
  /\ config m' = config m
  /\ networkMetrics m' = networkMetrics m
  /\ recoveryCalls (trace m') = recoveryCalls (trace m).
Proof.
  unfold setCircuitBreakerState.
  destruct m as [cfg [] fc lt ra nm tr], c; simpl; repeat split;
    rewrite recoveryCalls_app; cbn; lia.
Qed.

Lemma increment_frame (now : Z) (m : ErrorRecoveryManager) :
  let m' := incrementFailureCount now m in
  recoveryAttempts m' = recoveryAttempts m
  /\ config m' = config m
  /\ recoveryCalls (trace m') = recoveryCalls (trace m).
Proof.
  unfold incrementFailureCount, setCircuitBreakerState.
  destruct m as [cfg [] fc lt ra nm tr]; simpl;
    destruct (circuitBreakerThreshold cfg <=? fc + 1); simpl; repeat split;
    rewrite recoveryCalls_app; cbn; lia.
Qed.

Ltac pass_cbn :=
  cbn [circuitBreakerState failureCount recoveryAttempts trace config
       lastFailureTime networkMetrics resetFailureCount push_attempt log
       with_failureCount with_lastFailureTime with_breaker negb
       CircuitBreakerState_eqb].

Ltac pass_tail e :=
  generalize (calculateDelay (Math_pow e) (random e)); intros ?calc;
  destruct (recovery e) as [|?msg]; destruct (Number.ltb _ _);
  pass_cbn; unfold incrementFailureCount; pass_cbn;
  repeat match goal with
         | |- context [circuitBreakerThreshold ?c <=? ?n] =>
             destruct (circuitBreakerThreshold c <=? n)
         end;
  unfold setCircuitBreakerState; pass_cbn;
  rewrite ?recoveryCalls_app;
  repeat split; try assumption; try (eexists; reflexivity);
  try (cbn; lia);
  eexists; repeat split.

(** The three ways a pass can end. *)
Lemma pass_cases (e : AttemptEnv) (m : ErrorRecoveryManager)
    (t : SSEErrorType) (a : Z) :
  match attemptRecovery_pass e m t a with
  | Return false m' =>
      circuitBreakerState m' = OPEN
      /\ failureCount m' = failureCount m
      /\ recoveryAttempts m' = recoveryAttempts m
      /\ recoveryCalls (trace m') = recoveryCalls (trace m)
  | Return true m' =>
      recovery e = Resolved
      /\ circuitBreakerState m' = CLOSED /\ failureCount m' = 0
      /\ a <= maxRetries (ERROR_CLASSIFICATION_RULES t)
      /\ recoveryCalls (trace m') = S (recoveryCalls (trace m))
      /\ exists x,
           recoveryAttempts m' = recoveryAttempts m ++ [x]
           /\ attempt x = a /\ success x = true
  | TryAgain m' =>
      (exists msg, recovery e = Rejected msg)
      /\ a <= maxRetries (ERROR_CLASSIFICATION_RULES t)
      /\ recoveryCalls (trace m') = S (recoveryCalls (trace m))
      /\ exists x,
           recoveryAttempts m' = recoveryAttempts m ++ [x]
           /\ attempt x = a /\ success x = false
  end.
Proof.
  unfold attemptRecovery_pass.
  destruct (observe_facts e m) as (O1 & O2 & O3 & O4 & O5 & O6).
  set (c := classifyError (networkMetrics (observe e m)) t).
  destruct (negb (retryable c) || (maxRetries c <? a)) eqn:G.
  - destruct (exceeded_facts (now_exceeded e) (observe e m))
      as (H1 & _ & H3 & H4 & H5).
    rewrite H3, H4, H5, O3, O4, O5. auto.
  - apply orb_false_elim in G. destruct G as [Hr Ha].
    apply negb_false_iff in Hr. apply Z.ltb_ge in Ha.
    destruct (retryable_cap _ _ Hr) as [_ Hcap]. fold c in Hcap.
    assert (Hb : a <= maxRetries (ERROR_CLASSIFICATION_RULES t)) by lia.
    clearbody c. clear Hr Ha Hcap.
    destruct (observe e m) as [cfg cb fc lt ra nm tr].
    simpl in O1, O3, O4, O5. rewrite <- O3, <- O4, <- O5.
    clear O1 O2 O3 O4 O5 O6.
    destruct cb; cbn [circuitBreakerState lastFailureTime config].
    + (* closed *)
      pass_tail e.
    + destruct (now_check e - lt <? circuitBreakerTimeout cfg).
      * auto.
      * pass_tail e.
    + pass_tail e.
Qed.

(** *** The attempts of a call *)

Lemma seq_shift_counts (a : Z) (n : nat) :
  a :: map (fun i => a + 1 + Z.of_nat i) (seq 0 n)
  = map (fun i => a + Z.of_nat i) (seq 0 (S n)).
Proof.
  cbn [seq map]. f_equal; [simpl; lia|].
  rewrite <- seq_shift, map_map. apply map_ext. intros i. lia.
Qed.

Lemma fuel_log (fuel : nat) (env : Z -> AttemptEnv)
    (m : ErrorRecoveryManager) (t : SSEErrorType) (a : Z) (r : bool)
    (m' : ErrorRecoveryManager) :
  attemptRecovery_fuel fuel env m t a = Some (r, m') ->
  exists (log : list RecoveryAttempt) (failed : nat),
    recoveryAttempts m' = recoveryAttempts m ++ log
    /\ map attempt log
       = map (fun i => a + Z.of_nat i) (seq 0 (List.length log))
    /\ map success log = repeat false failed ++ (if r then [true] else [])
    /\ recoveryCalls (trace m')
       = (recoveryCalls (trace m) + List.length log)%nat
    /\ Z.of_nat (List.length log)
       <= Z.max 0 (maxRetries (ERROR_CLASSIFICATION_RULES t) + 1 - a)
    /\ (if r
        then circuitBreakerState m' = CLOSED /\ failureCount m' = 0
             /\ recovery (env (a + Z.of_nat failed)) = Resolved
        else circuitBreakerState m' = OPEN)
    /\ forall i, (i < failed)%nat ->
         exists msg, recovery (env (a + Z.of_nat i)) = Rejected msg.
Proof.
  revert m a; induction fuel as [|fuel IH]; intros m a H; [discriminate|].
  rewrite fuel_S in H. pose proof (pass_cases (env a) m t a) as P.
  destruct (attemptRecovery_pass (env a) m t a) as [[|] m1|m1].
  - injection H as <- <-.
    destruct P as (Hres & Hc & Hf & Ha & Hcalls & x & Hx & Hxa & Hxs).
    exists [x], 0%nat. cbn [map List.length seq repeat app Z.of_nat].
    rewrite Hx, Hxa, Hxs, Hcalls, !Z.add_0_r.
    repeat split; auto; try lia.
  - injection H as <- <-.
    destruct P as (Hc & Hf & Hat & Hcalls).
    exists [], 0%nat. cbn [map List.length seq repeat app Z.of_nat].
    rewrite Hat, Hcalls, app_nil_r.
    repeat split; auto; try lia.
  - destruct P as ((msg & Hrej) & Ha & Hcalls & x & Hx & Hxa & Hxs).
    destruct (IH m1 (a + 1) H)
      as (log & failed & L1 & L2 & L3 & L4 & L5 & L6 & L7).
    exists (x :: log), (S failed).
    rewrite L1, Hx, <- app_assoc. cbn [app List.length map repeat].
    rewrite Hxa, Hxs, L2, L3, L4, Hcalls.
    split; [reflexivity|]. split; [apply seq_shift_counts|].
    split; [reflexivity|]. split; [lia|]. split; [lia|]. split.
    + replace (a + Z.of_nat (S failed)) with (a + 1 + Z.of_nat failed)
        by lia. exact L6.
    + intros [|i] Hi.
      * exists msg. now rewrite Z.add_0_r.
      * destruct (L7 i ltac:(lia)) as [msg' Hm]. exists msg'.
        replace (a + Z.of_nat (S i)) with (a + 1 + Z.of_nat i) by lia.
        exact Hm.
Qed.

(** X13. Every call of [attemptRecovery] returns, and what it leaves in
    the attempt log tells its story: the attempts recorded are numbered
    from the attempt count on without a gap, one per invocation of the
    recovery function; all of them failed but the last, and the last
    one succeeded exactly when the call returns [true]; and there are
    never more of them than the table of classifications gives retries
    to the type of the error, whatever the network quality. *)
Theorem attempts_are_logged (env : Z -> AttemptEnv)
    (m : ErrorRecoveryManager) (t : SSEErrorType) (a : Z) :
  exists (r : bool) (m' : ErrorRecoveryManager)
         (log : list RecoveryAttempt) (failed : nat),
    attemptRecovery env m t a = Some (r, m')
    /\ recoveryAttempts m' = recoveryAttempts m ++ log
    /\ map attempt log
       = map (fun i => a + Z.of_nat i) (seq 0 (List.length log))
    /\ map success log = repeat false failed ++ (if r then [true] else [])
    /\ recoveryCalls (trace m')
       = (recoveryCalls (trace m) + List.length log)%nat
    /\ Z.of_nat (List.length log)
       <= Z.max 0 (maxRetries (ERROR_CLASSIFICATION_RULES t) + 1 - a).
Proof.
  destruct (attemptRecovery_returns env m t a) as [[r m'] H].
  destruct (fuel_log _ env m t a r m' H)
    as (log & failed & L1 & L2 & L3 & L4 & L5 & _).
  exists r, m', log, failed. auto 10.
Qed.

(** X14. The breaker after a call tells how the call ended: after
    [true] it is [closed] and the failure count is zero, after [false]
    it is [open], whatever the breaker was before and however many
    attempts the call made. *)
Theorem breaker_tells_the_outcome (env : Z -> AttemptEnv)
    (m : ErrorRecoveryManager) (t : SSEErrorType) (a : Z) :
  exists (r : bool) (m' : ErrorRecoveryManager),
    attemptRecovery env m t a = Some (r, m')
    /\ if r
       then circuitBreakerState m' = CLOSED /\ failureCount m' = 0
       else circuitBreakerState m' = OPEN.
Proof.
  destruct (attemptRecovery_returns env m t a) as [[r m'] H].
  destruct (fuel_log _ env m t a r m' H)
    as (log & failed & _ & _ & _ & _ & _ & L6 & _).
  exists r, m'. split; [exact H|].
  destruct r; [|exact L6]. destruct L6 as (H1 & H2 & _). auto.
Qed.

(** X15. A call returns [true] only when the recovery function resolved
    in one of its attempts: when the function is rejected every time,
    the call returns [false], with the breaker [open], after no more
    invocations than the table gives retries to the type of the
    error. *)
Theorem rejected_every_time (env : Z -> AttemptEnv)
    (m : ErrorRecoveryManager) (t : SSEErrorType) (a : Z) :
  (forall k, a <= k -> recovery (env k) <> Resolved) ->
  exists m',
    attemptRecovery env m t a = Some (false, m')
    /\ circuitBreakerState m' = OPEN
    /\ Z.of_nat (recoveryCalls (trace m') - recoveryCalls (trace m))
       <= Z.max 0 (maxRetries (ERROR_CLASSIFICATION_RULES t) + 1 - a).
Proof.
  intros Hrej.
  destruct (attemptRecovery_returns env m t a) as [[r m'] H].
  destruct (fuel_log _ env m t a r m' H)
    as (log & failed & _ & _ & _ & L4 & L5 & L6 & _).
  destruct r.
  - destruct L6 as (_ & _ & Hres). exfalso.
    apply (Hrej (a + Z.of_nat failed)); [lia|exact Hres].
  - exists m'. split; [exact H|]. split; [exact L6|].
    rewrite L4. lia.
Qed.

(** *** The classifier and the delay *)

(** X16. The network quality only ever makes a classification more
    cautious: an error that the classifier lets retry is retryable in
    the table, with at least one and at most the table's retries, and
    the base delay is never shorter than the table's. *)
Theorem quality_only_restrains (metrics : option NetworkMetrics)
    (t : SSEErrorType) :
  let base := ERROR_CLASSIFICATION_RULES t in
  let c := classifyError metrics t in
  (retryable c = true ->
   retryable base = true /\ 1 <= maxRetries c <= maxRetries base)
  /\ (baseDelay base <= baseDelay c)%Q
  /\ (currentQuality metrics = Some OFFLINE -> retryable c = false).
Proof.
  intros base c. split; [apply retryable_cap|]. split.
  - unfold c, base, classifyError.
    destruct (currentQuality metrics) as [[]|]; destruct t; simpl;
      vm_compute; discriminate.
  - unfold c, classifyError. now intros ->.
Qed.

(** X17. Jitter never shortens a delay and lengthens it by at most a
    tenth, in the arithmetic of doubles: for a draw of [Math.random] in
    its range and a delay [d] of the strategy that is finite and not
    negative, the delay returned lies between [d] and [d + d * 0.1] (the
    product and the sum as doubles round them), both cut at the
    configured maximum; with jitter switched off, or for a delay that is
    not positive, it is [d] cut at the maximum. *)
Theorem jitter_adds_at_most_a_tenth
    (pow : Number.number -> Number.number -> Number.number)
    (random : Number.number) (m : ErrorRecoveryManager)
    (c : ErrorClassification) (n : Z) :
  let d := strategyDelay pow m c n in
  let top := Number.of_Q (maxDelay (config m)) in
  Number.is_finite d = true ->
  Number.leb Number.zero d = true ->
  Number.leb Number.zero random = true ->
  Number.ltb random Number.one = true ->
  Number.leb (Number.min d top) (calculateDelay pow random m c n) = true
  /\ Number.leb (calculateDelay pow random m c n)
       (Number.min (Number.add d (Number.mul d Number.tenth)) top) = true
  /\ (jitterEnabled (config m) = false \/ Number.ltb Number.zero d = false ->
      calculateDelay pow random m c n = Number.min d top).
Proof.
  intros d top F P R0 R1. unfold calculateDelay. fold d top.
  pose proof (strategyDelay_bounded pow m c n) as B.
  pose proof (strategyDelay_representable pow m c n) as R. fold d in B, R.
  assert (Nt : Number.is_nan top = false)
    by apply (proj1 (NumberFacts.round_kind false _)).
  assert (Nd : Number.is_nan d = false) by (destruct d; try discriminate; auto).
  destruct (jitterEnabled (config m) && Number.ltb Number.zero d) eqn:J.
  - apply andb_true_iff in J. destruct J as [Je Jd].
    destruct (NumberFacts.jitter_bounds d random R B F Jd R0 R1) as [L U].
    split; [now apply NumberFacts.min_mono|].
    split; [now apply NumberFacts.min_mono|].
    intros [H|H]; congruence.
  - split.
    + apply NumberFacts.leb_refl. now rewrite NumberFacts.min_nan, Nd, Nt.
    + split; [|reflexivity].
      apply NumberFacts.min_mono; [exact Nt|].
      now apply NumberFacts.tenth_more.
Qed.

(** *** The network monitor *)

Lemma slice_last_length {A} (n : nat) (l : list A) :
  List.length (slice_last n l) = Nat.min n (List.length l).
Proof. unfold slice_last. rewrite length_skipn. lia. Qed.

Lemma slice_last_suffix {A} (n : nat) (l : list A) :
  firstn (List.length l - n) l ++ slice_last n l = l.
Proof. apply firstn_skipn. Qed.

Lemma filter_length_le {A} (f : A -> bool) (l : list A) :
  (List.length (filter f l) <= List.length l)%nat.
Proof.
  induction l as [|x l IH]; simpl; [lia|]. destruct (f x); simpl; lia.
Qed.

Lemma filter_all {A} (f : A -> bool) (l : list A) :
  (forall x, In x l -> f x = true) -> filter f l = l.
Proof.
  induction l as [|x l IH]; simpl; intros H; [reflexivity|].
  rewrite (H x (or_introl eq_refl)), IH; auto.
Qed.

Lemma filter_none {A} (f : A -> bool) (l : list A) :
  (forall x, In x l -> f x = false) -> filter f l = [].
Proof.
  induction l as [|x l IH]; simpl; intros H; [reflexivity|].
  rewrite (H x (or_introl eq_refl)), IH; auto.
Qed.

Lemma rate_bounds (k n : nat) :
  (k <= n)%nat -> (0 < n)%nat ->
  (0 <= inject_Z (Z.of_nat k) / inject_Z (Z.of_nat n))%Q
  /\ (inject_Z (Z.of_nat k) / inject_Z (Z.of_nat n) <= 1)%Q.
Proof.
  intros Hk Hn.
  assert (P : (0 < inject_Z (Z.of_nat n))%Q).
  { change 0%Q with (inject_Z 0). rewrite <- Zlt_Qlt. lia. }
  split.
  - apply Qle_shift_div_l; [exact P|]. rewrite Qmult_0_l.
    change 0%Q with (inject_Z 0). rewrite <- Zle_Qle. lia.
  - apply Qle_shift_div_r; [exact P|]. rewrite Qmult_1_l.
    rewrite <- Zle_Qle. lia.
Qed.

(** X18. The stability score is a rate: a number from 0 to 1, which is
    1 when every one of the last ten attempts recorded succeeded (also
    when none is recorded) and 0 when attempts are recorded and none of
    the last ten succeeded; attempts before the last ten do not
    count. *)
Theorem stability_is_a_rate (m : ErrorRecoveryManager) :
  let recent := slice_last 10 (recoveryAttempts m) in
  (0 <= calculateNetworkStability m)%Q
  /\ (calculateNetworkStability m <= 1)%Q
  /\ ((forall x, In x recent -> success x = true) ->
      (calculateNetworkStability m == 1)%Q)
  /\ (recoveryAttempts m <> [] ->
      (forall x, In x recent -> success x = false) ->
      (calculateNetworkStability m == 0)%Q).
Proof.
  intros recent. unfold calculateNetworkStability. fold recent.
  destruct (recoveryAttempts m) as [|x l] eqn:E.
  - repeat split; try discriminate; try reflexivity. congruence.
  - assert (N : (0 < List.length recent)%nat).
    { unfold recent. rewrite slice_last_length. simpl. lia. }
    destruct (rate_bounds (List.length (filter success recent))
                (List.length recent) (filter_length_le _ _) N) as [L U].
    split; [exact L|]. split; [exact U|]. split.
    + intros H. rewrite (filter_all _ _ H). apply Qmult_inv_r.
      intros Z0. unfold Qeq in Z0. simpl in Z0. lia.
    + intros _ H. rewrite (filter_none _ _ H). reflexivity.
Qed.

(** X19. While the monitor's last probe found the network offline (the
    request failed, or the response was not ok), recovery is not
    attempted: a call returns [false] at once and opens the breaker,
    without invoking the recovery function, for every type of error. *)
Theorem offline_probe_stops_recovery (p : Probe) (env : Z -> AttemptEnv)
    (m : ErrorRecoveryManager) (t : SSEErrorType) (a : Z) :
  match p with Response ok _ _ _ => ok = false | Failure _ => True end ->
  monitor (env a) = None ->
  let checked := fst (checkNetworkQuality p m) in
  currentQuality (networkMetrics checked) = Some OFFLINE
  /\ exists m',
       attemptRecovery env checked t a = Some (false, m')
       /\ circuitBreakerState m' = OPEN
       /\ recoveryAttempts m' = recoveryAttempts m
       /\ recoveryCalls (trace m') = recoveryCalls (trace m).
Proof.
  intros Hp Hm checked.
  assert (Q : currentQuality (networkMetrics checked) = Some OFFLINE).
  { unfold checked. destruct p as [ok start finish stamp|stamp]; simpl.
    - rewrite Hp. reflexivity.
    - reflexivity. }
  split; [exact Q|].
  assert (O : observe (env a) checked = checked)
    by (unfold observe; now rewrite Hm).
  assert (R : retryable
                (classifyError (networkMetrics (observe (env a) checked)) t)
              = false).
  { rewrite O. unfold classifyError. now rewrite Q. }
  destruct (refused env checked t a (or_introl R))
    as (m' & E & S1 & _ & Ha & Hc).
  exists m'. split; [exact E|]. split; [exact S1|].
  rewrite Ha, Hc. unfold checked.
  destruct p; simpl; auto.
Qed.

(** X20. A probe that was answered stores the quality of its band, and
    tells the listener exactly when that quality is not the one stored
    before; the quality is [offline] exactly when the response was not
    ok, and a longer latency never gives a better quality.  A probe
    that failed tells the listener [offline] every time, also when
    [offline] was stored before.  Neither touches the breaker, the
    count or the attempt log. *)
Theorem probe_grades_and_notifies (ok : bool) (start finish stamp : Z)
    (m : ErrorRecoveryManager) :
  let answered := checkNetworkQuality (Response ok start finish stamp) m in
  let failed := checkNetworkQuality (Failure stamp) m in
  let q := band ok (finish - start) in
  currentQuality (networkMetrics (fst answered)) = Some q
  /\ (q = OFFLINE <-> ok = false)
  /\ (snd answered = None <-> currentQuality (networkMetrics m) = Some q)
  /\ (snd answered = None \/ snd answered = Some q)
  /\ (forall l1 l2 : Z, l1 <= l2 -> grade (band ok l2) <= grade (band ok l1))
  /\ currentQuality (networkMetrics (fst failed)) = Some OFFLINE
  /\ snd failed = Some OFFLINE
  /\ (forall r, r = fst answered \/ r = fst failed ->
      circuitBreakerState r = circuitBreakerState m
      /\ failureCount r = failureCount m
      /\ recoveryAttempts r = recoveryAttempts m
      /\ trace r = trace m).
Proof.
  intros answered failed q. split; [reflexivity|]. split.
  { unfold q, band. destruct ok; simpl.
    - repeat match goal with
             | |- context [if ?c then _ else _] => destruct c
             end; split; discriminate.
    - split; reflexivity. }
  split.
  { unfold answered. simpl. fold q.
    destruct (currentQuality (networkMetrics m)) as [p|].
    - destruct p, q; simpl; split; congruence.
    - split; discriminate. }
  split.
  { unfold answered. simpl. fold q.
    destruct (currentQuality (networkMetrics m)) as [p|]; [|now right].
    destruct (NetworkQuality_eqb p q); auto. }
  split.
  { intros l1 l2 H. unfold band. destruct ok; simpl; [|lia].
    repeat match goal with
           | |- context [?a <? ?b] => destruct (Z.ltb_spec a b)
           end; simpl; lia. }
  split; [reflexivity|]. split; [reflexivity|].
  intros r [-> | ->]; simpl; auto.
Qed.

(** *** Reset and status *)

Lemma last_skipn {A} (k : nat) (l : list A) (d : A) :
  (k < List.length l)%nat -> last (skipn k l) d = last l d.
Proof.
  revert l; induction k as [|k IH]; intros [|x l] H; simpl in *;
    try reflexivity; try lia.
  rewrite IH by lia. destruct l; [simpl in H; lia|reflexivity].
Qed.

Lemma last_slice {A} (n : nat) (l : list A) (d : A) :
  (0 < n)%nat -> last (slice_last n l) d = last l d.
Proof.
  intros Hn. destruct l as [|x l]; [reflexivity|].
  unfold slice_last. apply last_skipn. cbn [List.length]. lia.
Qed.

Lemma last_append {A} (l l' : list A) (d : A) :
  l' <> [] -> last (l ++ l') d = last l' d.
Proof.
  intros H. induction l as [|x l IH]; [reflexivity|].
  rewrite <- app_comm_cons. cbn [last]. rewrite IH.
  destruct (l ++ l') eqn:E; [|reflexivity].
  apply app_eq_nil in E. destruct E as [_ E]. contradiction.
Qed.

Lemma last_mapped {A B} (f : A -> B) (l : list A) (d : A) :
  last (map f l) (f d) = f (last l d).
Proof.
  induction l as [|x [|y l] IH]; try reflexivity.
  change (last (x :: y :: l) d) with (last (y :: l) d). rewrite <- IH.
  reflexivity.
Qed.

Lemma last_success (failed : nat) (r : bool) (d : bool) :
  (0 < failed \/ r = true)%nat ->
  last (repeat false failed ++ (if r then [true] else [])) d = r.
Proof.
  intros H. destruct r.
  - apply last_last.
  - rewrite app_nil_r. destruct H as [H|H]; [|discriminate].
    induction failed as [|[|k] IH]; [lia|reflexivity|].
    change (repeat false (S (S k))) with (false :: repeat false (S k)).
    cbn [last]. change (repeat false (S k)) with (false :: repeat false k) at 1.
    apply IH. lia.
Qed.

(** X21. The status shows the last five attempts of the log, in order;
    and after a call that made an attempt, the last attempt shown
    records how the call ended. *)
Theorem status_shows_the_outcome (env : Z -> AttemptEnv)
    (m : ErrorRecoveryManager) (t : SSEErrorType) (a : Z) :
  let shown (x : ErrorRecoveryManager) := snd (getStatus x) in
  (exists older, recoveryAttempts m = older ++ shown m)
  /\ List.length (shown m) = Nat.min 5 (List.length (recoveryAttempts m))
  /\ exists (r : bool) (m' : ErrorRecoveryManager),
       attemptRecovery env m t a = Some (r, m')
       /\ (recoveryAttempts m' <> recoveryAttempts m ->
           forall d, success (last (shown m') d) = r).
Proof.
  intros shown. split.
  { eexists. symmetry. apply (slice_last_suffix 5). }
  split; [apply slice_last_length|].
  destruct (attemptRecovery_returns env m t a) as [[r m'] H].
  destruct (fuel_log _ env m t a r m' H)
    as (log & failed & L1 & _ & L3 & _).
  exists r, m'. split; [exact H|]. intros Hn d.
  unfold shown, getStatus. cbn [snd]. rewrite last_slice by lia.
  rewrite L1 in *.
  assert (Hl : log <> []) by (intros ->; rewrite app_nil_r in Hn; auto).
  rewrite last_append by exact Hl.
  rewrite <- last_mapped, L3. apply last_success.
  destruct r; [now right|left].
  rewrite app_nil_r in L3. destruct failed; [|lia].
  destruct log; [contradiction|discriminate].
Qed.

(** X22. [reset] unblocks: whatever the breaker, the count and the log
    were, the next call for an error that may be retried invokes the
    recovery function, and its attempt is the first of the new log.
    Resetting twice is resetting once, and the metrics of the monitor
    are kept. *)
Theorem reset_unblocks (e : AttemptEnv) (m : ErrorRecoveryManager)
    (t : SSEErrorType) (a : Z) :
  let c := classifyError (networkMetrics (observe e (reset m))) t in
  retryable c = true -> a <= maxRetries c ->
  getStatus (reset m) = (CLOSED, 0, networkMetrics m, [])
  /\ reset (reset m) = reset m
  /\ exists (m' : ErrorRecoveryManager) (x : RecoveryAttempt),
       (attemptRecovery_pass e (reset m) t a = Return true m'
        \/ attemptRecovery_pass e (reset m) t a = TryAgain m')
       /\ recoveryCalls (trace m') = S (recoveryCalls (trace m))
       /\ recoveryAttempts m' = [x] /\ attempt x = a.
Proof.
  intros c Hr Ha. split; [reflexivity|]. split; [reflexivity|].
  assert (Hs : circuitBreakerState (reset m) <> OPEN) by discriminate.
  destruct (pass_attempted e (reset m) t a Hr Ha Hs)
    as (m1 & _ & _ & _ & _ & P).
  pose proof (pass_cases e (reset m) t a) as C.
  destruct (recovery e) as [|msg]; rewrite P in C.
  - destruct C as (_ & _ & _ & _ & Hc & x & Hx & Hxa & _).
    eexists. exists x. split; [left; exact P|]. auto.
  - destruct C as (_ & _ & Hc & x & Hx & Hxa & _).
    eexists. exists x. split; [right; exact P|]. auto.
Qed.

(** *** Worked instances *)

Lemma rejected_every_time_witness :
  let env := Samples.env_at 0 (Rejected (lit "down")) in
  let m := create DEFAULT_RECOVERY_CONFIG in
  exists m',
    attemptRecovery env m CONNECTION_LOST 1 = Some (false, m')
    /\ circuitBreakerState m' = OPEN
    /\ Z.of_nat (recoveryCalls (trace m') - recoveryCalls (trace m))
       <= Z.max 0 (maxRetries (ERROR_CLASSIFICATION_RULES CONNECTION_LOST)
                   + 1 - 1).
Proof.
  intros env m. apply (rejected_every_time env m CONNECTION_LOST 1).
  intros k _. simpl. discriminate.
Defined.

Lemma quality_only_restrains_witness :
  let base := ERROR_CLASSIFICATION_RULES CONNECTION_FAILED in
  let c := classifyError (Some MoreSamples.slow_network) CONNECTION_FAILED in
  retryable base = true /\ 1 <= maxRetries c <= maxRetries base.
Proof.
  intros base c.
  apply (proj1 (quality_only_restrains (Some MoreSamples.slow_network) CONNECTION_FAILED)).
  reflexivity.
Defined.

(** The second attempt after a failed connection, with a draw of one
    half: the strategy gives 4000, the jitter adds 200, and 4200 lies
    between 4000 and 4400. *)
Lemma jitter_witness :
  let pow := Samples.Math_pow in
  let m := create DEFAULT_RECOVERY_CONFIG in
  let c := ERROR_CLASSIFICATION_RULES CONNECTION_FAILED in
  let random := Number.of_Q (1 # 2) in
  let d := strategyDelay pow m c 2 in
  let top := Number.of_Q (maxDelay (config m)) in
  (d = Number.of_Z 4000
   /\ calculateDelay pow random m c 2 = Number.of_Z 4200
   /\ Number.min (Number.add d (Number.mul d Number.tenth)) top
      = Number.of_Z 4400)
  /\ Number.leb (Number.min d top) (calculateDelay pow random m c 2) = true
  /\ Number.leb (calculateDelay pow random m c 2)
       (Number.min (Number.add d (Number.mul d Number.tenth)) top) = true
  /\ (jitterEnabled (config m) = false \/ Number.ltb Number.zero d = false ->
      calculateDelay pow random m c 2 = Number.min d top).
Proof.
  intros pow m c random d top.
  split; [vm_compute; repeat split|].
  apply (jitter_adds_at_most_a_tenth pow random m c 2).
  - vm_compute. reflexivity.
  - vm_compute. reflexivity.
  - vm_compute. reflexivity.
  - vm_compute. reflexivity.
Defined.

(** The rate after one call of [attemptRecovery]: one success logged
    gives 1; five failures logged give 0; two failures and a success give
    a third. *)
Lemma stability_witness :
  map success (recoveryAttempts (MoreSamples.recovered_at 1)) = [true]
  /\ (calculateNetworkStability (MoreSamples.recovered_at 1) == 1)%Q
  /\ map success (recoveryAttempts (MoreSamples.recovered_at 6))
     = [false; false; false; false; false]
  /\ (calculateNetworkStability (MoreSamples.recovered_at 6) == 0)%Q
  /\ map success (recoveryAttempts (MoreSamples.recovered_at 3))
     = [false; false; true]
  /\ (0 <= calculateNetworkStability (MoreSamples.recovered_at 3))%Q
  /\ (calculateNetworkStability (MoreSamples.recovered_at 3) <= 1)%Q
  /\ (calculateNetworkStability (MoreSamples.recovered_at 3) == 1 # 3)%Q.
Proof.
  split; [vm_compute; reflexivity|]. split.
  { apply (proj1 (proj2 (proj2 (stability_is_a_rate
                                   (MoreSamples.recovered_at 1))))).
    vm_compute. intros x [<-|[]]. reflexivity. }
  split; [vm_compute; reflexivity|]. split.
  { apply (proj2 (proj2 (proj2 (stability_is_a_rate
                                   (MoreSamples.recovered_at 6))))).
    - vm_compute. discriminate.
    - vm_compute. intros x H.
      repeat (destruct H as [<-|H]; [reflexivity|]). destruct H. }
  split; [vm_compute; reflexivity|].
  split; [apply (stability_is_a_rate (MoreSamples.recovered_at 3))|].
  split; [apply (stability_is_a_rate (MoreSamples.recovered_at 3))|].
  vm_compute. reflexivity.
Defined.

Lemma offline_probe_witness :
  let env := Samples.env_at 6 Resolved in
  let m := create DEFAULT_RECOVERY_CONFIG in
  let checked := fst (checkNetworkQuality (Failure 5) m) in
  currentQuality (networkMetrics checked) = Some OFFLINE
  /\ exists m',
       attemptRecovery env checked CONNECTION_FAILED 1 = Some (false, m')
       /\ circuitBreakerState m' = OPEN
       /\ recoveryAttempts m' = recoveryAttempts m
       /\ recoveryCalls (trace m') = recoveryCalls (trace m).
Proof.
  intros env m checked.
  apply (offline_probe_stops_recovery (Failure 5) env m CONNECTION_FAILED 1).
  - exact I.
  - reflexivity.
Defined.

Lemma probe_grades_witness :
  grade (band true 500) <= grade (band true 50).
Proof.
  pose proof (probe_grades_and_notifies true 0 0 0
                (create DEFAULT_RECOVERY_CONFIG)) as H.
  cbv zeta in H. destruct H as (_ & _ & _ & _ & Mono & _).
  apply Mono. lia.
Defined.

Lemma status_witness :
  let env := Samples.env_at 0 Resolved in
  let m := create DEFAULT_RECOVERY_CONFIG in
  exists (r : bool) (m' : ErrorRecoveryManager),
    attemptRecovery env m CONNECTION_LOST 1 = Some (r, m')
    /\ forall d, success (last (snd (getStatus m')) d) = r.
Proof.
  intros env m.
  destruct (status_shows_the_outcome env m CONNECTION_LOST 1)
    as (_ & _ & r & m' & E & H).
  exists r, m'. split; [exact E|]. apply H.
  vm_compute in E. injection E as <- <-. discriminate.
Defined.

Lemma reset_unblocks_witness :
  let e := Samples.env_at 0 Resolved 1 in
  let m := Samples.manager_at OPEN 5 0 in
  getStatus (reset m) = (CLOSED, 0, networkMetrics m, [])
  /\ reset (reset m) = reset m
  /\ exists (m' : ErrorRecoveryManager) (x : RecoveryAttempt),
       (attemptRecovery_pass e (reset m) CONNECTION_FAILED 1 = Return true m'
        \/ attemptRecovery_pass e (reset m) CONNECTION_FAILED 1 = TryAgain m')
       /\ recoveryCalls (trace m') = S (recoveryCalls (trace m))
       /\ recoveryAttempts m' = [x] /\ attempt x = 1.
Proof.
  intros e m. apply (reset_unblocks e m CONNECTION_FAILED 1).
  - reflexivity.
  - simpl. lia.
Defined.

End RecoveryMore.

(** ** Sources *)

Module SourceFacts.
Import LineFacts SourceUtils SourceInv.

(** *** cleanExcerpt *)

Lemma startsWith_prefix (s p : jsstring) :
  startsWith s p = true -> exists rest, s = p ++ rest.
Proof.
  revert s; induction p as [|y p IH]; intros s H.
  - exists s. reflexivity.
  - destruct s as [|x s]; [discriminate|]. simpl in H.
    apply andb_true_iff in H. destruct H as [E H].
    apply Z.eqb_eq in E. subst y.
    destruct (IH s H) as [rest ->]. exists rest. reflexivity.
Qed.

Lemma endsWith_suffix (s suffix : jsstring) :
  endsWith s suffix = true -> exists before, s = before ++ suffix.
Proof.
  unfold endsWith. intros H.
  destruct (startsWith_prefix _ _ H) as [rest E].
  exists (rev rest). apply (f_equal (@rev Z)) in E.
  rewrite rev_involutive, rev_app_distr, rev_involutive in E. exact E.
Qed.

Lemma lastIndexOf_at_end (s : jsstring) (i found : Z) :
  lastIndexOf_from i found (s ++ [46]) = i + Z.of_nat (List.length s).
Proof.
  revert i found; induction s as [|c s IH]; intros i found.
  - simpl. lia.
  - cbn [app lastIndexOf_from List.length]. rewrite IH. lia.
Qed.

Lemma excerpt_kept (excerpt : jsstring) : cleanExcerpt excerpt = excerpt.
Proof.
  unfold cleanExcerpt. destruct excerpt as [|c s]; [reflexivity|].
  cbn [isEmpty]. set (e := c :: s).
  destruct (endsWith e (lit "...")) eqn:E; [|reflexivity].
  destruct (endsWith_suffix _ _ E) as [before B].
  change (lit "...") with ([46; 46] ++ [46]) in B.
  rewrite app_assoc in B.
  unfold lastIndexOf_dot. rewrite B, lastIndexOf_at_end.
  rewrite <- B.
  assert (L : Z.of_nat (List.length e)
              = Z.of_nat (List.length (before ++ [46; 46])) + 1).
  { rewrite B at 1. rewrite length_app. simpl. lia. }
  destruct (Z.ltb_spec (Z.of_nat (List.length e) - 50)
              (0 + Z.of_nat (List.length (before ++ [46; 46]))));
    [|reflexivity].
  unfold substring0.
  replace (Z.to_nat (0 + Z.of_nat (List.length (before ++ [46; 46])) + 1))
    with (List.length e) by lia.
  apply firstn_all.
Qed.

(** X23. [cleanExcerpt] never changes an excerpt.  An excerpt that ends
    in [...] has its last full stop in its last place, so the
    sentence end the function looks for is always near the
    truncation, and the substring it takes is the whole excerpt. *)
Theorem cleanExcerpt_changes_nothing (excerpt : jsstring) :
  cleanExcerpt excerpt = excerpt.
Proof. exact (excerpt_kept excerpt). Qed.

(** *** The map of deduplicateSources *)

Lemma map_get_in {V} (m : list (jsstring * V)) (k : jsstring) (v : V) :
  map_get m k = Some v -> In (k, v) m.
Proof.
  induction m as [|[k' v'] m IH]; simpl; [discriminate|].
  destruct (JsString.eqb k k') eqn:E.
  - apply eqb_eq in E. intros H. injection H as ->. left. now subst.
  - intros H. right. auto.
Qed.

Lemma map_get_none {V} (m : list (jsstring * V)) (k : jsstring) :
  map_get m k = None -> ~ In k (map fst m).
Proof.
  induction m as [|[k' v'] m IH]; simpl; [auto|].
  destruct (JsString.eqb k k') eqn:E; [discriminate|].
  intros H [F|F]; [|exact (IH H F)].
  subst k'. now rewrite eqb_refl in E.
Qed.

Lemma map_get_unique {V} (m : list (jsstring * V)) (k : jsstring) (v : V) :
  NoDup (map fst m) -> In (k, v) m -> map_get m k = Some v.
Proof.
  induction m as [|[k' v'] m IH]; simpl; [contradiction|].
  intros N [H|H].
  - injection H as -> ->. now rewrite eqb_refl.
  - inversion N as [|? ? N1 N2]; subst.
    destruct (JsString.eqb k k') eqn:E; [|auto].
    apply eqb_eq in E. subst k'. exfalso. apply N1.
    apply (in_map fst) in H. exact H.
Qed.

Lemma map_set_keys {V} (m : list (jsstring * V)) (k : jsstring) (v : V) :
  map fst (map_set m k v)
  = match map_get m k with
    | Some _ => map fst m
    | None => map fst m ++ [k]
    end.
Proof.
  induction m as [|[k' v'] m IH]; simpl; [reflexivity|].
  destruct (JsString.eqb k k') eqn:E; simpl; [reflexivity|].
  rewrite IH. destruct (map_get m k); reflexivity.
Qed.

Lemma map_set_in {V} (m : list (jsstring * V)) (k : jsstring) (v : V)
    (k' : jsstring) (v' : V) :
  In (k', v') (map_set m k v) -> (k' = k /\ v' = v) \/ In (k', v') m.
Proof.
  induction m as [|[k0 v0] m IH]; simpl.
  - intros [H|[]]. injection H as <- <-. auto.
  - destruct (JsString.eqb k k0) eqn:E; simpl.
    + apply eqb_eq in E. subst k0.
      intros [H|H]; [injection H as <- <-; auto|auto].
    + intros [H|H]; [auto|]. destruct (IH H); auto.
Qed.

Lemma map_set_same {V} (m : list (jsstring * V)) (k : jsstring) (v : V) :
  In (k, v) (map_set m k v).
Proof.
  induction m as [|[k0 v0] m IH]; simpl; [auto|].
  destruct (JsString.eqb k k0) eqn:E; simpl; [|auto].
  apply eqb_eq in E. subst k0. auto.
Qed.

Lemma map_set_other {V} (m : list (jsstring * V)) (k : jsstring) (v : V)
    (k' : jsstring) (v' : V) :
  k' <> k -> In (k', v') m -> In (k', v') (map_set m k v).
Proof.
  intros Hk. induction m as [|[k0 v0] m IH]; simpl; [auto|].
  destruct (JsString.eqb k k0) eqn:E; simpl.
  - apply eqb_eq in E. subst k0.
    intros [H|H]; [injection H as <- <-; contradiction|auto].
  - intros [H|H]; auto.
Qed.

Lemma map_set_nodup {V} (m : list (jsstring * V)) (k : jsstring) (v : V) :
  NoDup (map fst m) -> NoDup (map fst (map_set m k v)).
Proof.
  intros N. rewrite map_set_keys. destruct (map_get m k) eqn:G; [exact N|].
  apply map_get_none in G.
  apply (Permutation_NoDup (l := k :: map fst m)).
  - apply Permutation_cons_append.
  - constructor; assumption.
Qed.

Lemma Qgtb_true (a b : Q) : Qgtb a b = true -> (b < a)%Q.
Proof.
  unfold Qgtb. intros H. apply negb_true_iff in H.
  apply Qnot_le_lt. intros L. apply Qle_bool_iff in L. congruence.
Qed.

Lemma Qgtb_false (a b : Q) : Qgtb a b = false -> (a <= b)%Q.
Proof.
  unfold Qgtb. intros H. apply negb_false_iff in H.
  now apply Qle_bool_iff.
Qed.

Lemma from_more (visited : list Source) (x : Source) (k : jsstring)
    (y : Source) :
  from visited k y -> from (visited ++ [x]) k y.
Proof.
  intros (U & (x0 & I0 & F0) & i & first & R & Nth & Uf & Early).
  split; [exact U|]. split.
  - exists x0. split; [apply in_or_app; now left|exact F0].
  - assert (Hi : (i < List.length visited)%nat)
      by (apply nth_error_Some; congruence).
    exists i, first. split; [exact R|]. split.
    + rewrite nth_error_app1 by exact Hi. exact Nth.
    + split; [exact Uf|]. intros j xj Hj Hn.
      rewrite nth_error_app1 in Hn by lia. eauto.
Qed.

Lemma visit_collected (visited : list Source)
    (m : list (jsstring * Source)) (x : Source) :
  collected visited m ->
  collected (visited ++ [x]) (visit m x (Z.of_nat (List.length visited))).
Proof.
  intros (N & E & C). unfold visit.
  destruct (map_get m (url x)) as [existing|] eqn:G.
  - pose proof (map_get_in _ _ _ G) as Hin.
    destruct (Qgtb (relevance_score x) (relevance_score existing)) eqn:Q.
    + apply Qgtb_true in Q. split; [now apply map_set_nodup|]. split.
      * intros k y H. apply map_set_in in H. destruct H as [[-> ->]|H].
        -- destruct (E _ _ Hin) as (_ & _ & i & first & R & Rest).
           split; [reflexivity|]. split.
           ++ exists x. split; [apply in_or_app; right; now left|].
              repeat split.
           ++ assert (Hi : (i < List.length visited)%nat).
              { apply nth_error_Some. destruct Rest as (Nth & _). congruence. }
              destruct Rest as (Nth & Uf & Early).
              exists i, first. cbn [rank]. split; [exact R|]. split.
              ** rewrite nth_error_app1 by exact Hi. exact Nth.
              ** split; [exact Uf|]. intros j xj Hj Hn.
                 rewrite nth_error_app1 in Hn by lia. eauto.
        -- apply from_more, E, H.
      * intros x' Hx. apply in_app_or in Hx. destruct Hx as [Hx|[<-|[]]].
        -- destruct (C x' Hx) as (y & Hy & Le).
           destruct (list_eq_dec Z.eq_dec (url x') (url x)) as [Eq|Ne].
           ++ eexists. split; [rewrite Eq; apply map_set_same|].
              cbn [relevance_score]. rewrite Eq in Hy.
              rewrite (map_get_unique _ _ _ N Hy) in G. injection G as ->.
              apply Qlt_le_weak. eapply Qle_lt_trans; eassumption.
           ++ exists y. split; [now apply map_set_other|exact Le].
        -- eexists. split; [apply map_set_same|]. apply Qle_refl.
    + apply Qgtb_false in Q. split; [exact N|]. split.
      * intros k y H. apply from_more, E, H.
      * intros x' Hx. apply in_app_or in Hx. destruct Hx as [Hx|[<-|[]]].
        -- apply C, Hx.
        -- exists existing. split; [exact Hin|exact Q].
  - pose proof (map_get_none _ _ G) as Hnew.
    split; [now apply map_set_nodup|]. split.
    + intros k y H. apply map_set_in in H. destruct H as [[-> ->]|H].
      * split; [reflexivity|]. split.
        -- exists x. split; [apply in_or_app; right; now left|].
           repeat split.
        -- exists (List.length visited), x. cbn [rank].
           split; [reflexivity|]. split.
           ++ rewrite nth_error_app2 by lia. now rewrite Nat.sub_diag.
           ++ split; [reflexivity|]. intros j xj Hj Hn Hu.
              rewrite nth_error_app1 in Hn by lia.
              apply nth_error_In in Hn. destruct (C xj Hn) as (y & Hy & _).
              apply Hnew. rewrite <- Hu. apply (in_map fst) in Hy. exact Hy.
      * apply from_more, E, H.
    + intros x' Hx. apply in_app_or in Hx. destruct Hx as [Hx|[<-|[]]].
      * destruct (C x' Hx) as (y & Hy & Le). exists y.
        split; [|exact Le]. apply map_set_other; [|exact Hy].
        intros Eq. apply Hnew. rewrite <- Eq.
        apply (in_map fst) in Hy. exact Hy.
      * eexists. split; [apply map_set_same|]. apply Qle_refl.
Qed.

Lemma forEach_collected (sources visited : list Source)
    (m : list (jsstring * Source)) :
  collected visited m ->
  collected (visited ++ sources)
    (forEach m sources (Z.of_nat (List.length visited))).
Proof.
  revert visited m; induction sources as [|x sources IH]; intros visited m H.
  - rewrite app_nil_r. exact H.
  - cbn [forEach].
    replace (Z.of_nat (List.length visited) + 1)
      with (Z.of_nat (List.length (visited ++ [x])))
      by (rewrite length_app; simpl; lia).
    replace (visited ++ x :: sources) with ((visited ++ [x]) ++ sources)
      by (now rewrite <- app_assoc).
    apply IH, visit_collected, H.
Qed.

Lemma collected_all (sources : list Source) :
  collected sources (forEach [] sources 0).
Proof.
  apply (forEach_collected sources [] []).
  split; [constructor|]. split; [intros k y []|intros x []].
Qed.

(** *** The sort *)

Lemma insert_perm (x : Source) (l : list Source) :
  Permutation (insert x l) (x :: l).
Proof.
  induction l as [|y l IH]; simpl; [reflexivity|].
  destruct (Qgtb (relevance_score y) (relevance_score x)); [|reflexivity].
  rewrite IH. apply perm_swap.
Qed.

Lemma sort_perm (l : list Source) : Permutation (sort l) l.
Proof.
  induction l as [|x l IH]; simpl; [reflexivity|].
  rewrite insert_perm. now constructor.
Qed.

Lemma descending_cons (x : Source) (l : list Source) :
  descending (x :: l)
  <-> (match l with
       | [] => True
       | y :: _ => (relevance_score y <= relevance_score x)%Q
       end /\ descending l).
Proof. destruct l; simpl; tauto. Qed.

Lemma insert_descending (x : Source) (l : list Source) :
  descending l -> descending (insert x l).
Proof.
  induction l as [|y l IH]; intros H; [exact I|].
  cbn [insert].
  destruct (Qgtb (relevance_score y) (relevance_score x)) eqn:G.
  - apply descending_cons in H. destruct H as [Hy Hl].
    apply descending_cons. split; [|auto].
    destruct l as [|z l]; cbn [insert].
    + apply Qgtb_true in G. now apply Qlt_le_weak.
    + destruct (Qgtb (relevance_score z) (relevance_score x));
        [exact Hy|]. apply Qgtb_true in G. now apply Qlt_le_weak.
  - apply Qgtb_false in G. apply descending_cons. split; assumption.
Qed.

Lemma sort_descending (l : list Source) : descending (sort l).
Proof.
  induction l as [|x l IH]; [exact I|]. now apply insert_descending.
Qed.

(** In a descending list, the head dominates. *)
Lemma descending_head (x : Source) (l : list Source) :
  descending (x :: l) ->
  forall y, In y l -> (relevance_score y <= relevance_score x)%Q.
Proof.
  revert x; induction l as [|z l IH]; intros x H y []; subst.
  - apply H.
  - destruct H as [Hz Hl]. eapply Qle_trans; [|exact Hz]. now apply IH.
Qed.

Lemma descending_tail (x : Source) (l : list Source) :
  descending (x :: l) -> descending l.
Proof. intros H. apply descending_cons in H. tauto. Qed.

Lemma firstn_descending (n : nat) (l : list Source) :
  descending l -> descending (firstn n l).
Proof.
  revert l; induction n as [|n IH]; intros l H; [exact I|].
  destruct l as [|x l]; [exact I|]. cbn [firstn].
  apply descending_cons. split; [|apply IH; eapply descending_tail; eauto].
  destruct n; [exact I|]. destruct l as [|y l]; [exact I|].
  cbn [firstn]. apply H.
Qed.

(** Cutting a descending list keeps its best: what is cut off is no
    better than anything kept, and is cut off only from a full list. *)
Lemma firstn_best (n : nat) (l : list Source) :
  descending l ->
  forall x, In x l ->
    In x (firstn n l)
    \/ (List.length (firstn n l) = n
        /\ forall y, In y (firstn n l) ->
             (relevance_score x <= relevance_score y)%Q).
Proof.
  revert l; induction n as [|n IH]; intros l H x Hx.
  - right. split; [reflexivity|intros y []].
  - destruct l as [|z l]; [contradiction|]. cbn [firstn].
    destruct Hx as [->|Hx]; [left; now left|].
    destruct (IH l (descending_tail _ _ H) x Hx) as [Hin|[Hlen Hall]].
    + left. now right.
    + right. split; [cbn [List.length]; now rewrite Hlen|].
      intros y [<-|Hy]; [|auto]. eapply descending_head; eauto.
Qed.

Lemma deduplicateSources_eq (sources : list Source) :
  deduplicateSources sources
  = firstn 6 (sort (map_values (forEach [] sources 0))).
Proof. destruct sources; reflexivity. Qed.

Lemma values_in (m : list (jsstring * Source)) (visited : list Source)
    (y : Source) :
  collected visited m -> In y (map_values m) -> In (url y, y) m.
Proof.
  intros (_ & E & _) H. unfold map_values in H.
  apply in_map_iff in H. destruct H as ([k y'] & Hy & Hin).
  simpl in Hy. subst y'. destruct (E _ _ Hin) as (-> & _). exact Hin.
Qed.

Lemma values_urls (m : list (jsstring * Source)) (visited : list Source) :
  collected visited m -> map url (map_values m) = map fst m.
Proof.
  intros (_ & E & _). unfold map_values. rewrite map_map.
  apply map_ext_in. intros [k y] Hin. simpl. apply (E _ _ Hin).
Qed.

Lemma firstn_nodup {A} (n : nat) (l : list A) :
  NoDup l -> NoDup (firstn n l).
Proof.
  revert l; induction n as [|n IH]; intros l H; [constructor|].
  destruct l as [|x l]; [constructor|]. cbn [firstn].
  inversion H as [|? ? H1 H2]; subst. constructor; [|auto].
  intros F. apply H1. revert F. clear. revert l.
  induction n as [|n IH]; intros l F; [contradiction|].
  destruct l as [|y l]; [contradiction|].
  destruct F as [->|F]; [now left|right; eauto].
Qed.

Lemma firstn_in {A} (n : nat) (l : list A) (x : A) :
  In x (firstn n l) -> In x l.
Proof.
  intros H. rewrite <- (firstn_skipn n l). apply in_or_app. now left.
Qed.

Lemma deduplicated_shape (sources : list Source) :
  (List.length (deduplicateSources sources) <= 6)%nat
  /\ NoDup (map url (deduplicateSources sources)).
Proof.
  rewrite deduplicateSources_eq.
  pose proof (collected_all sources) as H.
  set (m := forEach [] sources 0) in *.
  split; [apply firstn_le_length|].
  rewrite <- firstn_map. apply firstn_nodup.
  apply (Permutation_NoDup (l := map url (map_values m))).
  - symmetry. apply Permutation_map, sort_perm.
  - rewrite (values_urls m sources H). apply H.
Qed.

(** X24. The sources returned by [deduplicateSources] are at most six,
    with no URL twice, in the order of their scores from the highest
    down; each one has the URL, title, excerpt and score of one of
    the sources given; and they are the best: for a source given,
    either a source of its URL with at least its score is returned,
    or six sources are returned that all score at least as high. *)
Theorem deduplicateSources_keeps_the_best (sources : list Source) :
  let out := deduplicateSources sources in
  (List.length out <= 6)%nat
  /\ NoDup (map url out)
  /\ descending out
  /\ (forall y, In y out ->
        exists x, In x sources /\ url x = url y /\ title x = title y
                  /\ excerpt x = excerpt y
                  /\ relevance_score x = relevance_score y)
  /\ (forall x, In x sources ->
        (exists y, In y out /\ url y = url x
                   /\ (relevance_score x <= relevance_score y)%Q)
        \/ (List.length out = 6%nat
            /\ forall y, In y out ->
                 (relevance_score x <= relevance_score y)%Q)).
Proof.
  intros out. unfold out.
  destruct (deduplicated_shape sources) as [L N0].
  split; [exact L|]. split; [exact N0|]. clear L N0.
  rewrite deduplicateSources_eq.
  pose proof (collected_all sources) as H.
  set (m := forEach [] sources 0) in *.
  pose proof (sort_perm (map_values m)) as P.
  split; [apply firstn_descending, sort_descending|]. split.
  { intros y Hy. apply firstn_in in Hy.
    apply (Permutation_in _ P) in Hy.
    apply (values_in m sources y H) in Hy.
    destruct H as (_ & E & _). destruct (E _ _ Hy) as (_ & F & _).
    destruct F as (x & Hx & Hu & Rest). exists x. auto. }
  intros x Hx. destruct H as (N & E & C).
  destruct (C x Hx) as (y & Hy & Le).
  assert (Hs : In y (sort (map_values m))).
  { apply (Permutation_in _ (Permutation_sym P)).
    unfold map_values. apply in_map_iff. exists (url x, y). auto. }
  destruct (firstn_best 6 _ (sort_descending (map_values m)) y Hs)
    as [Hin|[Hlen Hall]].
  - left. exists y. split; [exact Hin|]. split; [apply (E _ _ Hy)|exact Le].
  - right. split; [exact Hlen|]. intros z Hz.
    eapply Qle_trans; [exact Le|auto].
Qed.

(** X25. The rank of a source returned is not its place in the list
    returned: it is the place, counted from one, at which its URL
    first stood in the list given, also when the source returned is a
    later one of a higher score. *)
Theorem rank_is_first_position (sources : list Source) (y : Source) :
  In y (deduplicateSources sources) ->
  exists (i : nat) (first : Source),
    rank y = Some (Z.of_nat i + 1)
    /\ nth_error sources i = Some first
    /\ url first = url y
    /\ forall j xj, (j < i)%nat -> nth_error sources j = Some xj ->
                    url xj <> url y.
Proof.
  rewrite deduplicateSources_eq. intros Hy.
  pose proof (collected_all sources) as H.
  apply firstn_in in Hy. apply (Permutation_in _ (sort_perm _)) in Hy.
  apply (values_in _ sources y H) in Hy.
  destruct H as (_ & E & _). destruct (E _ _ Hy) as (_ & _ & F). exact F.
Qed.

(** X26. [processSources] is [deduplicateSources] with the titles
    cleaned: the URLs, excerpts, scores and ranks of its result are
    those of the deduplicated list, in the same order, so the result
    too has at most six sources and no URL twice. *)
Theorem processSources_cleans_titles_only (rawSources : list Source) :
  let out := processSources rawSources in
  let kept := deduplicateSources rawSources in
  map url out = map url kept
  /\ map excerpt out = map excerpt kept
  /\ map relevance_score out = map relevance_score kept
  /\ map rank out = map rank kept
  /\ map title out = map cleanSourceTitle (map title kept)
  /\ (List.length out <= 6)%nat
  /\ NoDup (map url out).
Proof.
  intros out kept. unfold out, processSources, enhanceSources. fold kept.
  rewrite !map_map. cbn [url excerpt relevance_score rank title].
  split; [reflexivity|]. split.
  { apply map_ext. intros s. apply excerpt_kept. }
  split; [reflexivity|]. split; [reflexivity|]. split; [reflexivity|].
  rewrite length_map.
  destruct (deduplicated_shape rawSources) as (L & N). auto.
Qed.

(** *** cleanSourceTitle *)

Lemma span_app (p : Z -> bool) (s : jsstring) :
  s = fst (span p s) ++ snd (span p s).
Proof.
  induction s as [|c s IH]; [reflexivity|]. simpl.
  destruct (p c); [|reflexivity].
  destruct (span p s) as [a b]. simpl in *. now rewrite <- IH.
Qed.

Lemma capitalized_end_app (reversed matched before : jsstring) :
  capitalized_end reversed = Some (matched, before) ->
  reversed = matched ++ before.
Proof.
  unfold capitalized_end. pose proof (span_app isLower reversed) as E.
  destruct (span isLower reversed) as [lower rest]. simpl in E.
  destruct lower as [|l lower]; [discriminate|].
  destruct rest as [|c rest]; [discriminate|].
  destruct (isUpper c); [|discriminate].
  intros H. injection H as <- <-. rewrite E. simpl.
  now rewrite <- app_assoc.
Qed.

Lemma rev_eq_app (s a b : jsstring) :
  rev s = a ++ b -> s = rev b ++ rev a.
Proof.
  intros H. apply (f_equal (@rev Z)) in H.
  now rewrite rev_involutive, rev_app_distr in H.
Qed.

Lemma strip_wikipedia_ending (s : jsstring) : ending s (strip_wikipedia s).
Proof.
  unfold strip_wikipedia.
  destruct (endsWith s (lit " - Wikipedia")) eqn:W; [|now left].
  right. apply endsWith_suffix in W. destruct W as [before ->].
  rewrite length_app. change (List.length (lit " - Wikipedia")) with 12%nat.
  replace (List.length before + 12 - 12)%nat with (List.length before + 0)%nat
    by lia.
  rewrite firstn_app_2. cbn [firstn]. rewrite app_nil_r.
  eexists. reflexivity.
Qed.

Lemma strip_pipe_brand_ending (s : jsstring) : ending s (strip_pipe_brand s).
Proof.
  unfold strip_pipe_brand.
  destruct (capitalized_end (rev s)) as [[matched before]|] eqn:E;
    [|now left].
  repeat (match goal with
          | |- ending _ (match ?b with _ => _ end) =>
              destruct b as [|? ?]; [now left|]
          | |- ending _ (match ?c with _ => _ end) =>
              destruct c; try (now left)
          end).
  right. apply capitalized_end_app, rev_eq_app in E. rewrite E.
  cbn [rev]. rewrite <- !app_assoc. eexists. reflexivity.
Qed.

Lemma strip_dash_two_words_ending (s : jsstring) :
  ending s (strip_dash_two_words s).
Proof.
  unfold strip_dash_two_words.
  destruct (capitalized_end (rev s)) as [[matched before]|] eqn:E;
    [|now left].
  destruct before as [|c before]; [now left|].
  destruct c; try (now left).
  repeat (match goal with
          | |- ending _ (match ?p with _ => _ end) =>
              is_var p; destruct p; try (now left)
          end).
  destruct (capitalized_end before) as [[matched' before']|] eqn:E';
    [|now left].
  repeat (match goal with
          | |- ending _ (match ?b with _ => _ end) =>
              destruct b as [|? ?]; [now left|]
          | |- ending _ (match ?c with _ => _ end) =>
              destruct c; try (now left)
          end).
  right. apply capitalized_end_app in E'. rewrite E' in E.
  apply capitalized_end_app, rev_eq_app in E. rewrite E.
  cbn [rev]. rewrite !rev_app_distr. cbn [rev app].
  rewrite <- !app_assoc. eexists. reflexivity.
Qed.

Lemma ending_trans (a b c : jsstring) : ending a b -> ending b c -> ending a c.
Proof.
  intros [->|[t1 ->]] [->|[t2 ->]].
  - now left.
  - right. eauto.
  - right. eauto.
  - right. rewrite <- app_assoc. eexists. reflexivity.
Qed.

(** X27. [cleanSourceTitle] removes nothing from inside a title: its
    result is the title without an ending, trimmed; the ending removed
    is empty or begins with a space, so a title without a space is
    only trimmed. *)
Theorem cleanSourceTitle_removes_an_ending (title : jsstring) :
  (exists kept : jsstring,
      ending title kept /\ cleanSourceTitle title = trim kept)
  /\ ((forall c, In c title -> c <> 32) ->
      cleanSourceTitle title = trim title).
Proof.
  assert (G : exists kept : jsstring,
             ending title kept /\ cleanSourceTitle title = trim kept).
  { eexists. split; [|reflexivity].
    eapply ending_trans; [apply strip_wikipedia_ending|].
    eapply ending_trans; [apply strip_pipe_brand_ending|].
    apply strip_dash_two_words_ending. }
  split; [exact G|]. intros H.
  destruct G as (kept & [->|[tail E]] & ->); [reflexivity|].
  exfalso. apply (H 32); [|reflexivity].
  rewrite E. apply in_or_app. right. now left.
Qed.

(** *** Worked instances *)

Lemma deduplicate_witness :
  let out := deduplicateSources MoreSamples.hits in
  (exists y, In y out /\ url y = lit "https://a.example"
             /\ (1 # 2 <= relevance_score y)%Q)
  \/ (List.length out = 6%nat
      /\ forall y, In y out -> (1 # 2 <= relevance_score y)%Q).
Proof.
  intros out.
  pose proof (deduplicateSources_keeps_the_best MoreSamples.hits) as H.
  cbv zeta in H. destruct H as (_ & _ & _ & _ & Best).
  apply (Best (MoreSamples.hit "https://a.example" "A - Wikipedia" (1 # 2))).
  simpl. left. reflexivity.
Defined.

Lemma rank_witness :
  let y := {| url := lit "https://a.example"; title := lit "A again";
              excerpt := lit "..."; relevance_score := 9 # 10;
              rank := Some 1 |} in
  exists (i : nat) (first : Source),
    rank y = Some (Z.of_nat i + 1)
    /\ nth_error MoreSamples.hits i = Some first
    /\ url first = url y
    /\ forall j xj, (j < i)%nat -> nth_error MoreSamples.hits j = Some xj ->
                    url xj <> url y.
Proof.
  intros y. apply (rank_is_first_position MoreSamples.hits y).
  vm_compute. left. reflexivity.
Defined.

Lemma cleanSourceTitle_witness :
  cleanSourceTitle (lit "Rocq") = trim (lit "Rocq").
Proof.
  apply (proj2 (cleanSourceTitle_removes_an_ending (lit "Rocq"))).
  simpl. intros c [<-|[<-|[<-|[<-|[]]]]]; discriminate.
Defined.

End SourceFacts.

(** ** More on the decoder *)

Module DecoderMore.
Import TextDecoder DecoderInv Reading LineFacts.

Lemma land_low (b : Z) (k : Z) :
  0 <= k -> Z.land b (Z.ones k) = b mod 2 ^ k.
Proof. intros H. now apply Z.land_ones. Qed.

Lemma land_1F (b : Z) : Z.land b 0x1F = b mod 32.
Proof. apply (land_low b 5). lia. Qed.

Lemma land_F (b : Z) : Z.land b 0xF = b mod 16.
Proof. apply (land_low b 4). lia. Qed.

Lemma land_7 (b : Z) : Z.land b 0x7 = b mod 8.
Proof. apply (land_low b 3). lia. Qed.

Lemma land_3F (b : Z) : Z.land b 0x3F = b mod 64.
Proof. apply (land_low b 6). lia. Qed.

Lemma lor_shift_zero (cp y : Z) :
  Z.lor (Z.shiftl cp 6) y = 0 -> cp = 0.
Proof.
  intros H. apply Z.lor_eq_0_iff in H. destruct H as [H _].
  now apply Z.shiftl_eq_0_iff in H.
Qed.

Lemma lor_shift_nonneg (cp b : Z) :
  0 <= cp -> 0 <= Z.lor (Z.shiftl cp 6) (Z.land b 0x3F).
Proof.
  intros H. apply Z.lor_nonneg. split.
  - apply Z.shiftl_nonneg. exact H.
  - rewrite land_3F. apply Z.mod_pos_bound. lia.
Qed.

(** A sequence that has collected anything does not end in a line
    feed. *)
Lemma lor_shift_10 (cp y : Z) :
  0 <= cp -> Z.lor (Z.shiftl cp 6) y = 10 -> cp = 0.
Proof.
  intros Hc H. apply Z.bits_inj'. intros n Hn. rewrite Z.bits_0.
  assert (F : Z.testbit (Z.lor (Z.shiftl cp 6) y) (n + 6) = false).
  { rewrite H. apply Z.bits_above_log2; [lia|].
    change (Z.log2 10) with 3. lia. }
  rewrite Z.lor_spec in F. apply orb_false_elim in F. destruct F as [F _].
  rewrite Z.shiftl_spec in F by lia.
  now replace (n + 6 - 6) with n in F by lia.
Qed.

Lemma sound_init : sound utf8_init.
Proof. split; [reflexivity|]. intros H. now contradiction H. Qed.

Ltac ranges :=
  unfold between in *;
  repeat match goal with
         | H : (_ && _) = true |- _ => apply andb_true_iff in H; destruct H
         | H : (_ && _) = false |- _ => apply andb_false_iff in H
         | H : (_ <=? _) = true |- _ => apply Z.leb_le in H
         | H : (_ <=? _) = false |- _ => apply Z.leb_gt in H
         | H : (_ =? _) = true |- _ => apply Z.eqb_eq in H
         | H : (_ =? _) = false |- _ => apply Z.eqb_neq in H
         | H : negb _ = true |- _ => apply negb_true_iff in H
         | H : negb _ = false |- _ => apply negb_false_iff in H
         end.

Ltac modlia := Z.to_euclidean_division_equations; lia.

(** One byte in a sound state: the state stays sound, and a line feed
    comes out exactly for the byte [0A]. *)
Lemma handler_sound (d : utf8) (b : Z) :
  sound d ->
  sound (fst (handler d b))
  /\ match snd (handler d b) with
     | CodePoint cp => 0 <= cp /\ (cp = 10 <-> b = 10)
     | DecodeErrorRestore => fst (handler d b) = utf8_init
     | Continue | DecodeError => b <> 10
     end.
Proof.
  intros [S0 S1]. unfold handler.
  destruct (bytes_needed d =? 0) eqn:N.
  - apply Z.eqb_eq in N. rewrite (S0 N). cbn [bytes_seen lower_boundary
      upper_boundary utf8_init].
    destruct (between 0 127 b) eqn:B1; cbn [fst snd].
    { split; [apply sound_init|]. ranges. split; [lia|tauto]. }
    destruct (between 194 223 b) eqn:B2; cbn [fst snd].
    { split; [|ranges; lia].
      split; cbn [bytes_needed code_point bytes_seen lower_boundary
                  upper_boundary]; [discriminate|]. intros _.
      ranges. rewrite land_1F.
      repeat split; try lia; intros; repeat split; modlia. }
    destruct (between 224 239 b) eqn:B3; cbn [fst snd].
    { split; [|ranges; lia].
      split; cbn [bytes_needed code_point bytes_seen lower_boundary
                  upper_boundary]; [discriminate|]. intros _.
      ranges. rewrite land_F.
      destruct (b =? 224) eqn:E1; destruct (b =? 237) eqn:E2; ranges;
        repeat split; try lia; intros; repeat split; modlia. }
    destruct (between 240 244 b) eqn:B4; cbn [fst snd].
    { split; [|ranges; lia].
      split; cbn [bytes_needed code_point bytes_seen lower_boundary
                  upper_boundary]; [discriminate|]. intros _.
      ranges. rewrite land_7.
      destruct (b =? 240) eqn:E1; destruct (b =? 244) eqn:E2; ranges;
        repeat split; try lia; intros; repeat split; modlia. }
    split; [apply sound_init|]. ranges. lia.
  - apply Z.eqb_neq in N. destruct (S1 N) as (C & Seen & Lo & Hi & Zero).
    destruct (negb (between (lower_boundary d) (upper_boundary d) b)) eqn:B;
      cbn [fst snd].
    { split; [apply sound_init|reflexivity]. }
    destruct (bytes_seen d + 1 =? bytes_needed d) eqn:E; cbn [fst snd].
    + split; [apply sound_init|].
      split; [now apply lor_shift_nonneg|]. ranges. split.
      * intros Hten. apply lor_shift_10 in Hten; [|exact C].
        destruct (Zero Hten). lia.
      * intros ->. lia.
    + split; [|ranges; lia].
      split; cbn [bytes_needed code_point bytes_seen lower_boundary
                  upper_boundary]; [intros; contradiction|]. intros _.
      ranges. split; [now apply lor_shift_nonneg|].
      split; [lia|]. split; [lia|]. split; [lia|]. intros Hz. exfalso.
      pose proof (lor_shift_zero _ _ Hz) as C0.
      destruct (Zero C0) as [_ Lo']. rewrite C0 in Hz.
      rewrite Z.shiftl_0_l, Z.lor_0_l, land_3F in Hz. modlia.
Qed.

Lemma tens_app (a b : jsstring) :
  line_feeds (a ++ b) = (line_feeds a + line_feeds b)%nat.
Proof. unfold line_feeds. now rewrite filter_app, length_app. Qed.

Lemma tens_one (c : Z) :
  line_feeds [c] = if c =? 10 then 1%nat else 0%nat.
Proof. unfold line_feeds. simpl. destruct (c =? 10); reflexivity. Qed.

Lemma step_sound (d : utf8) (b : Z) :
  sound d ->
  sound (fst (step d b))
  /\ Forall (fun cp => 0 <= cp) (snd (step d b))
  /\ line_feeds (snd (step d b)) = if b =? 10 then 1%nat else 0%nat.
Proof.
  intros S. unfold step.
  destruct (handler_sound d b S) as [S1 O1].
  destruct (handler d b) as [d1 [|cp| |]]; cbn [fst snd] in *.
  - split; [exact S1|]. split; [constructor|].
    apply Z.eqb_neq in O1. now rewrite O1.
  - split; [exact S1|]. destruct O1 as [P T].
    split; [repeat constructor; exact P|]. rewrite tens_one.
    destruct (Z.eqb_spec cp 10) as [E|E], (Z.eqb_spec b 10) as [F|F];
      try reflexivity; tauto.
  - split; [exact S1|]. split; [repeat constructor; lia|].
    apply Z.eqb_neq in O1. now rewrite O1.
  - subst d1. destruct (handler_sound utf8_init b sound_init) as [S2 O2].
    destruct (handler utf8_init b) as [d2 [|cp| |]] eqn:Hh;
      cbn [fst snd] in *.
    + split; [exact S2|]. split; [repeat constructor; lia|].
      apply Z.eqb_neq in O2. now rewrite O2.
    + split; [exact S2|]. destruct O2 as [P T].
      split; [repeat constructor; try exact P; lia|].
      change [65533; cp] with ([65533] ++ [cp]).
      rewrite tens_app, tens_one, tens_one. cbn [Z.eqb Nat.add].
      destruct (Z.eqb_spec cp 10) as [E|E], (Z.eqb_spec b 10) as [F|F];
        try reflexivity; tauto.
    + split; [exact S2|]. split; [repeat constructor; lia|].
      apply Z.eqb_neq in O2. now rewrite O2.
    + split; [exact S2|]. split; [repeat constructor; lia|].
      (* utf8_init never asks for the byte again *)
      exfalso. clear - Hh. unfold handler in Hh.
      cbn [bytes_needed utf8_init Z.eqb] in Hh.
      revert Hh. repeat match goal with
                        | |- context [if ?c then _ else _] => destruct c
                        end; discriminate.
Qed.

Lemma utf16_tens (cp : Z) :
  0 <= cp -> line_feeds (utf16 cp) = if cp =? 10 then 1%nat else 0%nat.
Proof.
  intros H. unfold utf16. destruct (Z.leb_spec cp 65535) as [L|L].
  - apply tens_one.
  - change [55296 + Z.shiftr (cp - 65536) 10;
            56320 + Z.land (cp - 65536) 1023]
      with ([55296 + Z.shiftr (cp - 65536) 10]
            ++ [56320 + Z.land (cp - 65536) 1023]).
    rewrite tens_app, !tens_one.
    assert (A : 0 <= Z.shiftr (cp - 65536) 10)
      by (apply Z.shiftr_nonneg; lia).
    assert (B : 0 <= Z.land (cp - 65536) 1023)
      by (apply Z.land_nonneg; right; lia).
    repeat match goal with
           | |- context [?a =? ?b] => destruct (Z.eqb_spec a b)
           end; try reflexivity; lia.
Qed.

Lemma serialize_tens (seen : bool) (cps : list Z) :
  Forall (fun cp => 0 <= cp) cps ->
  line_feeds (snd (serialize seen cps)) = line_feeds cps.
Proof.
  revert seen; induction cps as [|cp cps IH]; intros seen H; [reflexivity|].
  inversion H as [|? ? Hc Hr]; subst. cbn [serialize].
  specialize (IH true Hr). destruct (serialize true cps) as [seen' s].
  cbn [snd] in IH.
  change (cp :: cps) with ([cp] ++ cps). rewrite (tens_app [cp]), tens_one.
  destruct seen; [|destruct (Z.eqb_spec cp 65279) as [E|E]]; cbn [snd].
  - now rewrite tens_app, utf16_tens, IH.
  - rewrite IH. subst cp. reflexivity.
  - now rewrite tens_app, utf16_tens, IH.
Qed.

Lemma code_nonneg (b : byte) : 0 <= code b.
Proof. unfold code. apply N2Z.is_nonneg. Qed.

Lemma decode_sound (value : list byte) (td : t) :
  sound (decoder td) ->
  sound (decoder (fst (decode td value)))
  /\ line_feeds (snd (decode td value)) = bytes_0A value.
Proof.
  revert td; induction value as [|b value IH]; intros td S.
  - split; [exact S|reflexivity].
  - cbn [decode]. unfold decode_byte. fold (code b).
    destruct (step_sound (decoder td) (code b) S) as (S1 & P1 & T1).
    destruct (step (decoder td) (code b)) as [d1 cps]. cbn [fst snd] in *.
    pose proof (serialize_tens (BOM_seen td) cps P1) as T2.
    destruct (serialize (BOM_seen td) cps) as [seen1 s1]. cbn [snd] in T2.
    destruct (IH {| decoder := d1; BOM_seen := seen1 |} S1) as [S2 T3].
    destruct (decode {| decoder := d1; BOM_seen := seen1 |} value)
      as [td2 s2]. cbn [fst snd] in *.
    split; [exact S2|].
    rewrite tens_app, T2, T1, T3. unfold bytes_0A. cbn [filter].
    destruct (code b =? 10); reflexivity.
Qed.

Lemma lines_count (s : jsstring) :
  List.length (complete_lines s) = line_feeds s.
Proof.
  induction s as [|c s IH]; [reflexivity|].
  change (c :: s) with ([c] ++ s) at 2. rewrite tens_app, tens_one.
  destruct (Z.eqb_spec c 10) as [->|Hc].
  - destruct (lines_cons_lf s) as [-> _]. simpl. now rewrite IH.
  - destruct (lines_cons_other c s Hc) as [-> _]. rewrite <- IH.
    destruct (complete_lines s); reflexivity.
Qed.

(** X28. Lines are delimited by the bytes [0A] of the body and by
    nothing else: whatever the bytes are, valid UTF-8 or not, and
    however they are cut into chunks, the parser is handed exactly as
    many lines as the body has bytes [0A].  No byte of a multi-byte
    sequence, no replacement character and no byte order mark is taken
    for a line feed. *)
Theorem lines_are_delimited_by_0A (reads : list (Z * list byte)) :
  let body := List.concat (map snd reads) in
  line_feeds (body_text body) = bytes_0A body
  /\ List.length (fed create [] reads) = bytes_0A body.
Proof.
  intros body.
  assert (T : line_feeds (body_text body) = bytes_0A body)
    by (apply (decode_sound body create), sound_init).
  split; [exact T|].
  rewrite <- (length_map snd), StreamingFacts.fed_whole. fold body.
  now rewrite lines_count.
Qed.

Lemma ascii_byte (td : t) (b : byte) :
  decoder td = utf8_init -> code b < 128 ->
  decode_byte td b = ({| decoder := utf8_init; BOM_seen := true |}, [code b]).
Proof.
  intros D H. unfold decode_byte, step, handler. fold (code b). rewrite D.
  pose proof (code_nonneg b) as P.
  cbn [bytes_needed utf8_init Z.eqb]. unfold between.
  destruct (Z.leb_spec 0 (code b)); [|lia].
  destruct (Z.leb_spec (code b) 127); [|lia].
  cbn [andb serialize]. unfold utf16.
  destruct (Z.leb_spec (code b) 65535); [|lia].
  destruct (Z.eqb_spec (code b) 65279); [lia|].
  destruct (BOM_seen td); reflexivity.
Qed.

(** X29. A body of ASCII bytes is its own text: every byte below [80]
    is decoded to the code unit of its value, whatever chunk it
    arrives in. *)
Theorem ascii_is_decoded_as_it_is (body : list byte) :
  Forall (fun b => code b < 128) body ->
  body_text body = map code body.
Proof.
  intros H. unfold body_text.
  assert (G : forall td, decoder td = utf8_init ->
             snd (decode td body) = map code body).
  { induction H as [|b body Hb _ IH]; intros td D; [reflexivity|].
    cbn [decode]. rewrite (ascii_byte td b D Hb).
    specialize (IH {| decoder := utf8_init; BOM_seen := true |} eq_refl).
    destruct (decode _ body) as [td2 s2]. cbn [snd] in *. now rewrite IH. }
  apply G. reflexivity.
Qed.

(** *** Worked instances *)

Lemma ascii_witness :
  body_text (Samples.bytes_of (lit "data: x"))
  = map code (Samples.bytes_of (lit "data: x")).
Proof.
  apply (ascii_is_decoded_as_it_is (Samples.bytes_of (lit "data: x"))).
  vm_compute. repeat constructor.
Defined.

End DecoderMore.
